(** * CINESONICS backend: quota ledger and cover-token vault

    A shallow embedding of [server.js]: the in-memory rate-limiting store,
    the one-time cover tokens, and the three route handlers
    ([GET /api/status], [POST /api/generate], [GET /api/cover/:token])
    together with the periodic cleanup of expired tokens.

    Conventions.
    - A JavaScript string is the list of its UTF-16 code units, so that
      [length] is [String.prototype.length].
    - JavaScript numbers that the server counts with are integers far below
      2^53; they are modelled in [Z].
    - A handler that awaits a network call is split at the [await]: the
      part before it returns either a response or the suspended call, the
      part after it takes the outcome of the call.  Other requests may run
      in between.
    - The wall clock ([todayUTC()], [Date.now()]), the random token and the
      upstream answers are inputs of the handlers.  One synchronous stretch
      of a handler runs within one reading of the clock. *)

From stdpp Require Import gmap list fin_maps strings pretty.
From Stdlib Require Import ZArith Lia.

Local Open Scope Z_scope.
Set Warnings "-register-all".

(** ** JavaScript strings *)

Abbreviation jsstring := (list N).

Fixpoint js (s : string) : jsstring :=
  match s with
  | EmptyString => []
  | String a r => Ascii.N_of_ascii a :: js r
  end.

(** WhiteSpace and LineTerminator code units, the ones [trim] strips. *)
Definition isWhiteSpace (c : N) : bool :=
  ((9 <=? c) && (c <=? 13) || (c =? 32) || (c =? 160) || (c =? 5760)
   || (8192 <=? c) && (c <=? 8202) || (c =? 8232) || (c =? 8233)
   || (c =? 8239) || (c =? 8287) || (c =? 12288) || (c =? 65279))%N.

Fixpoint trimStart (s : jsstring) : jsstring :=
  match s with
  | c :: r => if isWhiteSpace c then trimStart r else s
  | [] => []
  end.

Definition trimEnd (s : jsstring) : jsstring := rev (trimStart (rev s)).

Definition trim (s : jsstring) : jsstring := trimEnd (trimStart s).

(** [s.split(',')[0]]: the part of [s] before its first comma. *)
Fixpoint split_comma_head (s : jsstring) : jsstring :=
  match s with
  | c :: r => if (c =? 44)%N then [] else c :: split_comma_head r
  | [] => []
  end.

Arguments js : simpl never.

(** A string is truthy when it is not empty. *)
Definition truthy_str (s : jsstring) : bool :=
  match s with [] => false | _ => true end.

(** ** JSON values, as [express.json()] and [JSON.parse] deliver them.
    [JUndefined] stands for a property that is not there. *)

Inductive jsvalue :=
| JUndefined
| JNull
| JBool (b : bool)
| JNum (n : Z)
| JStr (s : jsstring)
| JArr (items : list jsvalue)
| JObj (fields : list (jsstring * jsvalue)).

(** The value under [key] in the fields of an object, [undefined] when
    there is none. *)
Fixpoint assoc (key : jsstring) (fields : list (jsstring * jsvalue)) : jsvalue :=
  match fields with
  | (k, v) :: r => if decide (k = key) then v else assoc key r
  | [] => JUndefined
  end.

(** Property read [v.key]; [None] is the TypeError of reading through
    [null] or [undefined].  Strings, numbers, booleans and arrays have none
    of the properties read here. *)
Definition get_prop (v : jsvalue) (key : jsstring) : option jsvalue :=
  match v with
  | JUndefined | JNull => None
  | JObj fields => Some (assoc key fields)
  | _ => Some JUndefined
  end.

(** ** The rate-limiting store and the cover tokens *)

Definition DAILY_GLOBAL_LIMIT : Z := 11.
Definition DAILY_USER_LIMIT : Z := 2.

(** A per-user record [{ count, date }].  Records are objects: the [users]
    map holds references to them, and a handler keeps the reference it got
    from [userRecord] across its [await]. *)
Record userRec := UserRec { count : Z; date : jsstring }.

Abbreviation ref := nat.

(** One-time-use cover tokens: token -> [{ url, expiresAt }]. *)
Record entry := Entry { url : jsstring; expiresAt : Z }.

(** The module-level state: the fields of [store], the [coverTokens] map,
    and the cells [recs] of the per-user records ever created. *)
Record state := State {
  globalCount : Z;
  resetDate : jsstring;
  users : gmap jsstring ref;
  recs : list userRec;
  coverTokens : gmap jsstring entry
}.

Definition set_ledger (g : Z) (d : jsstring) (u : gmap jsstring ref) (σ : state) : state :=
  State g d u (recs σ) (coverTokens σ).

Definition set_users (u : gmap jsstring ref) (σ : state) : state :=
  State (globalCount σ) (resetDate σ) u (recs σ) (coverTokens σ).

Definition set_globalCount (g : Z) (σ : state) : state :=
  State g (resetDate σ) (users σ) (recs σ) (coverTokens σ).

Definition set_recs (h : list userRec) (σ : state) : state :=
  State (globalCount σ) (resetDate σ) (users σ) h (coverTokens σ).

Definition set_coverTokens (c : gmap jsstring entry) (σ : state) : state :=
  State (globalCount σ) (resetDate σ) (users σ) (recs σ) c.

(** The state right after the module is loaded on day [today]. *)
Definition initial (today : jsstring) : state := State 0 today ∅ [] ∅.

(** Reset counters if the calendar day (UTC) has changed. *)
Definition resetIfNewDay (today : jsstring) (σ : state) : state :=
  if decide (resetDate σ ≠ today) then set_ledger 0 today ∅ σ else σ.

(** Get or create per-user record.  A reference found in [users] always
    points into [recs] (see [wf_state]); the record is created afresh also
    in the case, never met, that it did not. *)
Definition new_record (today ip : jsstring) (σ : state) : state * ref :=
  let r := length (recs σ) in
  (set_users (<[ip := r]> (users σ)) (set_recs (recs σ ++ [UserRec 0 today]) σ), r).

Definition userRecord (today ip : jsstring) (σ : state) : state * ref :=
  match users σ !! ip with
  | Some r =>
      match recs σ !! r with
      | Some rec => if decide (date rec ≠ today) then new_record today ip σ else (σ, r)
      | None => new_record today ip σ
      end
  | None => new_record today ip σ
  end.

(** [rec.count] read through a reference. *)
Definition count_at (r : ref) (σ : state) : Z :=
  match recs σ !! r with Some rec => count rec | None => 0 end.

(** The count the ledger holds for a client, if it holds a record. *)
Definition client_count (ip : jsstring) (σ : state) : option Z :=
  r ← users σ !! ip; count <$> recs σ !! r.

(** ** Requests and responses *)

Record request := Request {
  x_forwarded_for : option jsstring;   (* req.headers['x-forwarded-for'] *)
  req_ip : option jsstring;            (* req.ip *)
  remoteAddress : option jsstring;     (* req.socket?.remoteAddress *)
  body_vibe : jsvalue;                 (* req.body.vibe *)
  params_token : jsstring              (* req.params.token *)
}.

Definition or_else (a : option jsstring) (b : jsstring) : jsstring :=
  match a with
  | Some s => if truthy_str s then s else b
  | None => b
  end.

(** Best-effort real client IP. *)
Definition clientIp (req : request) : jsstring :=
  match x_forwarded_for req with
  | Some forwarded =>
      if truthy_str forwarded then trim (split_comma_head forwarded)
      else or_else (req_ip req) (or_else (remoteAddress req) (js "unknown"))
  | None => or_else (req_ip req) (or_else (remoteAddress req) (js "unknown"))
  end.

(** What a [catch] clause gets. *)
Inductive exn :=
| Error (message : string)      (* throw new Error('...') *)
| TextApiError (code : Z)       (* throw new Error(`Pollinations text API error (${code})`) *)
| ImageApiError (code : Z)      (* throw new Error(`Image API ${imgRes.status}`) *)
| Rejected (message : string)   (* a rejected fetch or body read *)
| TypeError                     (* a property read through null, a method that is not there *)
| URIError.                     (* encodeURIComponent on a lone surrogate *)

Inductive body :=
| StatusBody (globalRemaining userRemaining globalLimit userLimit : Z) (resetsAt : string)
| LimitBody (error type : string)              (* { error, type } of the two 429 answers *)
| ErrorBody (error : string)                   (* { error } with a fixed text *)
| FailureBody (err : exn)                      (* { error: err.message || ... } *)
| GenerateBody (tracklist : jsvalue) (coverToken : jsstring) (remaining_user remaining_global : Z)
| ImageBody (contentType : jsstring) (cacheControl : string) (buffer : list N).

Record response := Response { status : Z; body_of : body }.

(** [res.json(b)] answers with status 200. *)
Definition json (b : body) : response := Response 200 b.

Definition global_limit_error : string :=
  "Daily site-wide generation limit reached. Please come back tomorrow!".

Definition user_limit_error : string :=
  "You've used your " +:+ pretty DAILY_USER_LIMIT
  +:+ " free generations for today. Come back tomorrow!".

(** ** GET /api/status *)

Definition status_handler (today : jsstring) (req : request) (σ : state) : state * response :=
  let σ := resetIfNewDay today σ in
  let ip := clientIp req in
  let '(σ, rec) := userRecord today ip σ in
  (σ, json (StatusBody (Z.max 0 (DAILY_GLOBAL_LIMIT - globalCount σ))
                       (Z.max 0 (DAILY_USER_LIMIT - count_at rec σ))
                       DAILY_GLOBAL_LIMIT DAILY_USER_LIMIT "midnight UTC")).

(** ** Handlers that await

    The part of an [async] handler before its first [await] ends in a
    response or in a suspended call. *)

Inductive suspended (P : Type) :=
| Respond (r : response)
| Await (p : P).
Arguments Respond {P} r.
Arguments Await {P} p.

(** The part after it runs inside [try { ... } catch]: a computation on the
    state that may throw.  What was written to the state before a throw
    stays written. *)

Definition M (A : Type) : Type := state → state * (exn + A).

#[global] Instance M_ret : MRet M := λ A a σ, (σ, inr a).

#[global] Instance M_bind : MBind M := λ A B k m σ,
  match m σ with
  | (σ', inr a) => k a σ'
  | (σ', inl e) => (σ', inl e)
  end.

Definition throw {A} (e : exn) : M A := λ σ, (σ, inl e).
Definition gets {A} (f : state → A) : M A := λ σ, (σ, inr (f σ)).
Definition modify (f : state → state) : M unit := λ σ, (f σ, inr tt).

Definition try_catch {A} (m : M A) (handler : exn → A) (σ : state) : state * A :=
  match m σ with
  | (σ', inr a) => (σ', a)
  | (σ', inl e) => (σ', handler e)
  end.

(** ** POST /api/generate *)

(** What the handler still holds when it resumes. *)
Record pending := Pending {
  p_ip : jsstring;
  p_rec : ref;
  p_vibe : jsstring;
  p_apiKey : jsstring
}.

Definition typeof_string_trim (v : jsvalue) : jsstring :=
  match v with JStr s => trim s | _ => [] end.

(** From the top of the handler to [await fetch(...)].  [apiKey] is
    [process.env.POLLINATIONS_API_KEY]. *)
Definition generate_start (today : jsstring) (apiKey : option jsstring)
    (req : request) (σ : state) : state * suspended pending :=
  let σ := resetIfNewDay today σ in
  let ip := clientIp req in
  let '(σ, rec) := userRecord today ip σ in
  if globalCount σ >=? DAILY_GLOBAL_LIMIT then
    (σ, Respond (Response 429 (LimitBody global_limit_error "global_limit")))
  else if count_at rec σ >=? DAILY_USER_LIMIT then
    (σ, Respond (Response 429 (LimitBody user_limit_error "user_limit")))
  else
    let vibe := typeof_string_trim (body_vibe req) in
    if negb (truthy_str vibe) || (600 <? length vibe)%nat then
      (σ, Respond (Response 400 (ErrorBody "Please provide a vibe (max 600 characters).")))
    else
      match apiKey with
      | Some key =>
          if truthy_str key then (σ, Await (Pending ip rec vibe key))
          else (σ, Respond (Response 500 (ErrorBody "Server misconfigured — API key missing.")))
      | None => (σ, Respond (Response 500 (ErrorBody "Server misconfigured — API key missing.")))
      end.

(** The answer of the text API.  The handler awaits twice, the fetch and
    then the body of the answer; between the two it only looks at the
    answer, so both arrive here as one outcome. *)
Inductive fetched :=
| FetchRejected (message : string)
| Fetched (ok : bool) (code : Z) (json_body : string + jsvalue).
    (* [inl m]: [textRes.json()] rejects with message [m] *)

(** The functions of the platform that work on text. *)
Class Platform := {
  JSON_parse : jsstring → option jsvalue;           (* None: SyntaxError *)
  match_fence : jsstring → option jsstring;         (* group 1 of the fenced-block pattern *)
  encodeURIComponent : jsstring → option jsstring   (* None: URIError *)
}.

(** [v?.[0]], [v?.key] *)
Definition index0 (v : jsvalue) : jsvalue :=
  match v with
  | JArr (x :: _) => x
  | JStr (c :: _) => JStr [c]
  | JObj fields => assoc (js "0") fields
  | _ => JUndefined
  end.

Definition opt_prop (key : jsstring) (v : jsvalue) : jsvalue :=
  match v with
  | JObj fields => assoc key fields
  | _ => JUndefined
  end.

Definition falsy (v : jsvalue) : bool :=
  match v with
  | JUndefined | JNull | JBool false | JNum 0 | JStr [] => true
  | _ => false
  end.

Definition buildImagePrompt (vibe : jsstring) : jsstring :=
  js "Cinematic movie soundtrack album cover art. " ++ vibe
  ++ js ". Moody atmospheric lighting, dramatic composition, professional album artwork quality, no text, no words, no letters, dark cinematic color palette with neon accents, gritty photographic style, high contrast, volumetric lighting, 4k detailed".

Definition of_option {A} (e : exn) (o : option A) : M A :=
  match o with Some a => mret a | None => throw e end.

Definition incr_count (rec : userRec) : userRec := UserRec (count rec + 1) (date rec).

Definition imageUrl (encPrompt : jsstring) (seed : Z) (encKey : jsstring) : jsstring :=
  js "https://gen.pollinations.ai/image/" ++ encPrompt
  ++ js "?model=flux&width=768&height=768&nologo=true&seed="
  ++ js (pretty seed) ++ js "&key=" ++ encKey.

Section Generate.
Context `{Platform}.

(** The body of [try], from the answer of the text API on. *)
Definition generate_try (p : pending) (textRes : fetched) (token : jsstring) (now : Z)
    : M response :=
  textData ← match textRes with
    | FetchRejected m => throw (Rejected m)
    | Fetched ok code json_body =>
        if negb ok then
          if code =? 401 then throw (Error "Server API key is invalid.")
          else if code =? 402 then throw (Error "API balance exhausted. Contact the site owner.")
          else throw (TextApiError code)
        else match json_body with
             | inl m => throw (Rejected m)
             | inr textData => mret textData
             end
    end;
  choices ← of_option TypeError (get_prop textData (js "choices"));
  let content := opt_prop (js "content") (opt_prop (js "message") (index0 choices)) in
  if falsy content then throw (Error "No content returned from AI") else
  content ← match content with JStr s => mret s | _ => throw TypeError end;
  (* Parse JSON (handle potential markdown wrapping) *)
  let jsonStr := match match_fence content with
                 | Some group1 => trim group1
                 | None => trim content
                 end in
  tracklist ← of_option (Error "AI returned unparseable data — please try again")
                        (JSON_parse jsonStr);
  tracks ← of_option TypeError (get_prop tracklist (js "tracks"));
  match tracks with
  | JArr (_ :: _) =>
      (* Generate a one-time cover token *)
      let imgPrompt := buildImagePrompt (p_vibe p) in
      encPrompt ← of_option URIError (encodeURIComponent imgPrompt);
      encKey ← of_option URIError (encodeURIComponent (p_apiKey p));
      let imageUrl := imageUrl encPrompt now encKey in
      modify (λ σ, set_coverTokens
                     (<[token := Entry imageUrl (now + 5 * 60 * 1000)]> (coverTokens σ)) σ);;
      (* Increment counters ONLY after success *)
      modify (λ σ, set_globalCount (globalCount σ + 1) σ);;
      modify (λ σ, set_recs (alter incr_count (p_rec p) (recs σ)) σ);;
      user ← gets (λ σ, Z.max 0 (DAILY_USER_LIMIT - count_at (p_rec p) σ));
      global ← gets (λ σ, Z.max 0 (DAILY_GLOBAL_LIMIT - globalCount σ));
      mret (json (GenerateBody tracklist token user global))
  | _ => throw (Error "AI returned an empty tracklist")
  end.

(** From the answer of the text API to the response. *)
Definition generate_resume (p : pending) (textRes : fetched) (token : jsstring) (now : Z)
    (σ : state) : state * response :=
  try_catch (generate_try p textRes token now)
            (λ err, Response 500 (FailureBody err)) σ.

(** A request that no other request interleaves with. *)
Definition generate (today : jsstring) (apiKey : option jsstring) (req : request)
    (textRes : fetched) (token : jsstring) (now : Z) (σ : state) : state * response :=
  match generate_start today apiKey req σ with
  | (σ1, Respond r) => (σ1, r)
  | (σ1, Await p) => generate_resume p textRes token now σ1
  end.

End Generate.

(** ** GET /api/cover/:token *)

(** From the top of the handler to [await fetch(entry.url)]. *)
Definition cover_start (now : Z) (req : request) (σ : state) : state * suspended jsstring :=
  match coverTokens σ !! params_token req with
  | None => (σ, Respond (Response 404 (ErrorBody "Cover not found or already used.")))
  | Some entry =>
      if now >? expiresAt entry then
        (set_coverTokens (delete (params_token req) (coverTokens σ)) σ,
         Respond (Response 410 (ErrorBody "Cover token expired.")))
      else (σ, Await (url entry))
  end.

(** The answer of the image API: the fetch, then the bytes of its body. *)
Inductive image_fetched :=
| ImageRejected (message : string)
| ImageFetched (ok : bool) (code : Z) (content_type : option jsstring)
               (arrayBuffer : string + list N).

Definition cover_try (req : request) (imgRes : image_fetched) : M response :=
  match imgRes with
  | ImageRejected m => throw (Rejected m)
  | ImageFetched ok code content_type arrayBuffer =>
      if negb ok then throw (ImageApiError code) else
      buffer ← match arrayBuffer with
               | inl m => throw (Rejected m)
               | inr bytes => mret bytes
               end;
      (* Stream image bytes to the browser *)
      let sent := Response 200 (ImageBody (or_else content_type (js "image/jpeg"))
                                          "public, max-age=86400" buffer) in
      (* one-time use *)
      modify (λ σ, set_coverTokens (delete (params_token req) (coverTokens σ)) σ);;
      mret sent
  end.

(** From the answer of the image API to the response. *)
Definition cover_resume (req : request) (imgRes : image_fetched) (σ : state)
    : state * response :=
  try_catch (cover_try req imgRes)
            (λ err, Response 502 (ErrorBody "Failed to load album cover.")) σ.

(** A redemption that nothing interleaves with. *)
Definition cover (now : Z) (req : request) (imgRes : image_fetched) (σ : state)
    : state * response :=
  match cover_start now req σ with
  | (σ1, Respond r) => (σ1, r)
  | (σ1, Await _) => cover_resume req imgRes σ1
  end.

(** ** Periodic cleanup of expired tokens *)

(** One turn of the loop [for (const [tok, entry] of coverTokens)]. *)
Definition sweep_entry (now : Z) (te : jsstring * entry) (tokens : gmap jsstring entry)
    : gmap jsstring entry :=
  if now >? expiresAt te.2 then delete te.1 tokens else tokens.

Definition sweep_tokens (now : Z) (tokens : gmap jsstring entry) : gmap jsstring entry :=
  foldl (λ acc te, sweep_entry now te acc) tokens (map_to_list tokens).

Definition sweep (now : Z) (σ : state) : state :=
  set_coverTokens (sweep_tokens now (coverTokens σ)) σ.

(** * Notions used to state the properties *)

(** ** The ledger and the responses *)

(** The record the ledger holds for a client and counts as today's. *)
Definition current_record (today ip : jsstring) (σ : state) : option userRec :=
  r ← users σ !! ip;
  rec ← recs σ !! r;
  if decide (date rec = today) then Some rec else None.

(** What a client has used today, as the ledger has it. *)
Definition used_today (today ip : jsstring) (σ : state) : Z :=
  match current_record today ip σ with Some rec => count rec | None => 0 end.

(** References held by the map point to records. *)
Definition wf_state (σ : state) : Prop :=
  ∀ ip r, users σ !! ip = Some r → (r < length (recs σ))%nat.

(** The remaining-quota numbers a response reports. *)
Definition reported_remaining (r : response) : list Z :=
  match body_of r with
  | StatusBody globalRemaining userRemaining _ _ _ => [globalRemaining; userRemaining]
  | GenerateBody _ _ user global => [user; global]
  | _ => []
  end.

(** The status a handler answered with before any [await], if it did. *)
Definition answered {P} (s : suspended P) : option Z :=
  match s with Respond r => Some (status r) | Await _ => None end.

(** An input the validation turns down: not a string, or, once trimmed,
    empty or longer than 600 code units. *)
Definition vibe_turned_down (v : jsvalue) : Prop :=
  match v with
  | JStr s => trim s = [] ∨ (600 < length (trim s))%nat
  | _ => True
  end.

(** The image fetch went through: an OK answer whose body could be read. *)
Definition image_ok (imgRes : image_fetched) : bool :=
  match imgRes with
  | ImageFetched true _ _ (inr _) => true
  | _ => false
  end.

(** ** A generation that fully succeeds *)

(** The text the model answered with: the upstream call is OK, its body is
    read, and [choices[0].message.content] is a non-empty string. *)
Definition content_of (textRes : fetched) : option jsstring :=
  match textRes with
  | Fetched true _ (inr textData) =>
      choices ← get_prop textData (js "choices");
      match opt_prop (js "content") (opt_prop (js "message") (index0 choices)) with
      | JStr (c :: s) => Some (c :: s)
      | _ => None
      end
  | _ => None
  end.

(** The payload has a non-empty list under [tracks]. *)
Definition tracks_listed (tracklist : jsvalue) : bool :=
  match get_prop tracklist (js "tracks") with
  | Some (JArr (_ :: _)) => true
  | _ => false
  end.

(** The tracklist and the cover URL of a generation that goes through:
    upstream call OK, payload parses as JSON, non-empty tracks list, and
    the cover URL can be written. *)
Definition generation `{Platform} (p : pending) (textRes : fetched) (now : Z)
    : option (jsvalue * jsstring) :=
  content ← content_of textRes;
  tracklist ← JSON_parse (match match_fence content with
                          | Some group1 => trim group1
                          | None => trim content
                          end);
  if tracks_listed tracklist then
    encPrompt ← encodeURIComponent (buildImagePrompt (p_vibe p));
    encKey ← encodeURIComponent (p_apiKey p);
    Some (tracklist, imageUrl encPrompt now encKey)
  else None.

(** The state after the token is stored and both counters are incremented. *)
Definition committed (p : pending) (token url : jsstring) (now : Z) (σ : state) : state :=
  State (globalCount σ + 1) (resetDate σ) (users σ)
        (alter incr_count (p_rec p) (recs σ))
        (<[token := Entry url (now + 5 * 60 * 1000)]> (coverTokens σ)).

(** POST generate goes all the way: no limit is reached, the input is
    valid, the credential is set, and the generation goes through, the
    writing of the cover URL included. *)
Definition fully_succeeds `{Platform} (today : jsstring) (apiKey : option jsstring)
    (req : request) (textRes : fetched) (now : Z) (σ : state) : Prop :=
  let pre := userRecord today (clientIp req) (resetIfNewDay today σ) in
  globalCount pre.1 < 11 ∧ count_at pre.2 pre.1 < 2
  ∧ ¬ vibe_turned_down (body_vibe req)
  ∧ ∃ key, apiKey = Some key ∧ key ≠ []
    ∧ is_Some (generation (Pending (clientIp req) pre.2
                                   (typeof_string_trim (body_vibe req)) key)
                          textRes now).

(** ** The specification read to the letter

    Six sentences of the informal specification, as they are worded; the
    handlers do not satisfy them as they stand. *)

(** GET status read as leaving the ledger exactly as it was. *)
Definition status_leaves_ledger (today : jsstring) (req : request) (σ : state) : Prop :=
  let σ' := (status_handler today req σ).1 in
  globalCount σ' = globalCount σ ∧ resetDate σ' = resetDate σ
  ∧ users σ' = users σ ∧ recs σ' = recs σ.

(** POST generate read as answering 400, with no upstream call, exactly
    when the raw input is not a string, trims to nothing, or is longer than
    600 code units. *)
Definition validation_as_stated (today : jsstring) (apiKey : option jsstring)
    (req : request) (σ : state) : Prop :=
  answered (generate_start today apiKey req σ).2 = Some 400
  ↔ match body_vibe req with
    | JStr s => trim s = [] ∨ (600 < length s)%nat
    | _ => True
    end.

(** redeem read with the expiry instant itself counted as expired. *)
Definition redeem_as_stated (now : Z) (req : request) (σ : state) : Prop :=
  let out := cover_start now req σ in
  match coverTokens σ !! params_token req with
  | None => answered out.2 = Some 404
  | Some e =>
      if decide (expiresAt e ≤ now)
      then answered out.2 = Some 410 ∧ coverTokens out.1 !! params_token req = None
      else out.2 = Await (url e)
  end.

(** sweep read as deleting the entries with [expiresAt ≤ now]. *)
Definition sweep_as_stated (now : Z) (σ : state) : Prop :=
  ∀ tok e, coverTokens σ !! tok = Some e →
    (expiresAt e ≤ now → coverTokens (sweep now σ) !! tok = None)
    ∧ (now < expiresAt e → coverTokens (sweep now σ) !! tok = Some e).

(** GET cover read as consuming a live token whatever the image fetch does. *)
Definition cover_consumes_as_stated (now : Z) (req : request) (imgRes : image_fetched)
    (σ : state) : Prop :=
  ∀ e, coverTokens σ !! params_token req = Some e → now < expiresAt e →
    let σ' := (cover now req imgRes σ).1 in
    coverTokens σ' !! params_token req = None
    ∧ ∀ now' imgRes', status (cover now' req imgRes' σ').2 = 404.

(** The success of a generation as the specification lists it: none of the
    failures before the call (quota denial, validation failure, missing
    credential), upstream call OK, payload parses as JSON, non-empty tracks
    list. *)
Definition upstream_listed `{Platform} (textRes : fetched) : Prop :=
  ∃ content tracklist,
    content_of textRes = Some content
    ∧ JSON_parse (match match_fence content with
                  | Some group1 => trim group1
                  | None => trim content
                  end) = Some tracklist
    ∧ tracks_listed tracklist = true.

Definition listed_success `{Platform} (today : jsstring) (apiKey : option jsstring)
    (req : request) (textRes : fetched) (σ : state) : Prop :=
  let pre := userRecord today (clientIp req) (resetIfNewDay today σ) in
  globalCount pre.1 < 11 ∧ count_at pre.2 pre.1 < 2
  ∧ ¬ vibe_turned_down (body_vibe req)
  ∧ (∃ key, apiKey = Some key ∧ key ≠ [])
  ∧ upstream_listed textRes.

(** The count the ledger has for a client, none used when it has no
    entry. *)
Definition ledger_count (ip : jsstring) (σ : state) : Z := default 0 (client_count ip σ).

(** POST generate read as adding one to both counters of the ledger
    exactly when the generation succeeds as listed, and leaving both alone
    otherwise.  [during] is what the requests served while the handler
    waits for the text API do to the state; the counters are compared with
    what they are when the handler resumes, or when it answers if it
    never waits. *)
Definition counters_as_stated `{Platform} (today : jsstring) (apiKey : option jsstring)
    (req : request) (textRes : fetched) (token : jsstring) (now : Z)
    (during : state → state) (σ : state) : Prop :=
  let ip := clientIp req in
  let start := generate_start today apiKey req σ in
  let before := match start.2 with
                | Await _ => during start.1
                | Respond _ => start.1
                end in
  let after := match start.2 with
               | Await p => (generate_resume p textRes token now before).1
               | Respond _ => start.1
               end in
  (listed_success today apiKey req textRes σ →
     globalCount after = globalCount before + 1
     ∧ ledger_count ip after = ledger_count ip before + 1)
  ∧ (¬ listed_success today apiKey req textRes σ →
     globalCount after = globalCount before
     ∧ ledger_count ip after = ledger_count ip before).

(** ** The server as a transition system

    Between two awaits a handler runs alone; while it waits, any other
    handler may run.  A configuration is the state together with the
    handlers that wait: generations for the text API, cover requests for
    the image API. *)

Record config := Config {
  st : state;
  awaiting_text : list pending;
  awaiting_image : list request
}.

Inductive server_step `{Platform} : config → config → Prop :=
| step_status today req σ ps cs :
    server_step (Config σ ps cs) (Config (status_handler today req σ).1 ps cs)
| step_generate_answer today apiKey req σ σ' r ps cs :
    generate_start today apiKey req σ = (σ', Respond r) →
    server_step (Config σ ps cs) (Config σ' ps cs)
| step_generate_await today apiKey req σ σ' p ps cs :
    generate_start today apiKey req σ = (σ', Await p) →
    server_step (Config σ ps cs) (Config σ' (p :: ps) cs)
| step_generate_resume p textRes token now σ ps1 ps2 cs :
    server_step (Config σ (ps1 ++ p :: ps2) cs)
                (Config (generate_resume p textRes token now σ).1 (ps1 ++ ps2) cs)
| step_cover_answer now req σ σ' r ps cs :
    cover_start now req σ = (σ', Respond r) →
    server_step (Config σ ps cs) (Config σ' ps cs)
| step_cover_await now req σ σ' u ps cs :
    cover_start now req σ = (σ', Await u) →
    server_step (Config σ ps cs) (Config σ' ps (req :: cs))
| step_cover_resume req imgRes σ ps cs1 cs2 :
    server_step (Config σ ps (cs1 ++ req :: cs2))
                (Config (cover_resume req imgRes σ).1 ps (cs1 ++ cs2))
| step_sweep now σ ps cs :
    server_step (Config σ ps cs) (Config (sweep now σ) ps cs).

(** The configurations the server can be in when started on day [today]. *)
Definition reachable `{Platform} (today : jsstring) (c : config) : Prop :=
  rtc server_step (Config (initial today) [] []) c.

(** Every reference in use, in the map or held by a waiting handler,
    points to a record. *)
Definition refs_live (c : config) : Prop :=
  wf_state (st c)
  ∧ Forall (λ p, (p_rec p < length (recs (st c)))%nat) (awaiting_text c).

(** ** A platform to run the handlers on

    [encodeURIComponent] as ECMAScript defines it: unreserved characters
    stay, every other code point is written as the percent-escaped bytes of
    its UTF-8 form, and a lone surrogate is a URIError. *)

Definition uri_unreserved (c : N) : bool :=
  ((65 <=? c) && (c <=? 90) || (97 <=? c) && (c <=? 122) || (48 <=? c) && (c <=? 57)
   || (c =? 45) || (c =? 95) || (c =? 46) || (c =? 33) || (c =? 126)
   || (c =? 42) || (c =? 39) || (c =? 40) || (c =? 41))%N.

Definition hex_digit (d : N) : N := (if d <? 10 then 48 + d else 55 + d)%N.

Definition percent (b : N) : jsstring := [37; hex_digit (b / 16); hex_digit (b mod 16)]%N.

Definition utf8 (cp : N) : list N :=
  (if cp <? 128 then [cp]
   else if cp <? 2048 then [192 + cp / 64; 128 + cp mod 64]
   else if cp <? 65536 then [224 + cp / 4096; 128 + (cp / 64) mod 64; 128 + cp mod 64]
   else [240 + cp / 262144; 128 + (cp / 4096) mod 64; 128 + (cp / 64) mod 64;
         128 + cp mod 64])%N.

Definition is_high_surrogate (c : N) : bool := ((55296 <=? c) && (c <=? 56319))%N.
Definition is_low_surrogate (c : N) : bool := ((56320 <=? c) && (c <=? 57343))%N.

Fixpoint uri_encode (s : jsstring) : option jsstring :=
  match s with
  | [] => Some []
  | c :: r =>
      if uri_unreserved c then (c ::.) <$> uri_encode r
      else if is_low_surrogate c then None
      else if is_high_surrogate c then
        match r with
        | lo :: r' =>
            if is_low_surrogate lo then
              let cp := ((c - 55296) * 1024 + (lo - 56320) + 65536)%N in
              (app (concat (percent <$> utf8 cp))) <$> uri_encode r'
            else None
        | [] => None
        end
      else (app (concat (percent <$> utf8 c))) <$> uri_encode r
  end.

(** The JSON text [{"tracks":[{"title":"Neon Rain"}]}] and its value. *)
Definition sample_json : jsstring :=
  js "{" ++ [34%N] ++ js "tracks" ++ [34%N] ++ js ":[{" ++ [34%N] ++ js "title" ++ [34%N]
  ++ js ":" ++ [34%N] ++ js "Neon Rain" ++ [34%N] ++ js "}]}".

Definition sample_tracklist : jsvalue :=
  JObj [(js "tracks", JArr [JObj [(js "title", JStr (js "Neon Rain"))]])].

(** A platform that parses the one document above and takes any other text
    for malformed; the texts it is run on hold no code fence. *)
Definition sample_platform : Platform := {|
  JSON_parse := λ s, if decide (s = sample_json) then Some sample_tracklist else None;
  match_fence := λ _, None;
  encodeURIComponent := uri_encode
|}.

(** ** Sample inputs *)

Definition day1 : jsstring := js "2024-05-01".
Definition day2 : jsstring := js "2024-05-02".
Definition alice : jsstring := js "203.0.113.7".
Definition bob : jsstring := js "198.51.100.4".

(** A request from [ip], behind one proxy, with body [{ vibe }] and route
    parameter [token]. *)
Definition request_from (ip : jsstring) (vibe : jsvalue) (token : jsstring) : request :=
  Request (Some (ip ++ js ", 10.0.0.1")) (Some (js "10.0.0.1")) None vibe token.

Definition sample_key : jsstring := js "sk_sample".

(** 601 code units: a space and then 600 letters. *)
Definition padded_vibe : jsstring := 32%N :: replicate 600 97%N.

(** 601 letters. *)
Definition long_vibe : jsstring := replicate 601 97%N.

Definition tokenA : jsstring := js "3f0c9a52-7b1e-4c55-9d0a-2f6f1f0b8e11".
Definition urlA : jsstring := js "https://gen.pollinations.ai/image/x?seed=1714560000000".

(** An instant of [day1], in milliseconds, and a vault holding one token
    issued at that instant. *)
Definition noon : Z := 1714564800000.
Definition one_token : state :=
  State 1 day1 {[ alice := 0%nat ]} [UserRec 1 day1]
        {[ tokenA := Entry urlA (noon + 5 * 60 * 1000) ]}.

Definition tokenB : jsstring := js "9b2d6c1e-0a4f-4e7a-8c3d-5e1f7a9b0c2d".

(** A ledger late on [day1]: seven generations, two of them by [alice]. *)
Definition busy_day : state :=
  State 7 day1 {[ alice := 0%nat ]} [UserRec 2 day1] ∅.

(** A ledger whose site-wide quota of [day1] is used up. *)
Definition full_day : state := State 11 day1 ∅ [] ∅.

Definition jpeg : image_fetched :=
  ImageFetched true 200 (Some (js "image/jpeg")) (inr [255; 216; 255]%N).

(** An OK answer of the text API whose message content is [content]. *)
Definition completion (content : jsvalue) : fetched :=
  Fetched true 200
    (inr (JObj [(js "choices",
                 JArr [JObj [(js "message", JObj [(js "content", content)])]])])).

(** ** Strings and client addresses *)

(** No white space at either end. *)
Definition trimmed (s : jsstring) : Prop :=
  (∀ c, head s = Some c → isWhiteSpace c = false)
  ∧ (∀ c, last s = Some c → isWhiteSpace c = false).

(** ** Invariants of the server *)

(** Requests served one after the other, none overlapping another. *)
Inductive served `{Platform} (σ : state) : state → Prop :=
| served_status today req :
    served σ (status_handler today req σ).1
| served_generate today apiKey req textRes token now :
    served σ (generate today apiKey req textRes token now σ).1
| served_cover now req imgRes :
    served σ (cover now req imgRes σ).1
| served_sweep now :
    served σ (sweep now σ).

(** Both daily limits hold in the ledger. *)
Definition within_limits (σ : state) : Prop :=
  0 ≤ globalCount σ ≤ DAILY_GLOBAL_LIMIT
  ∧ ∀ ip c, client_count ip σ = Some c → 0 ≤ c ≤ DAILY_USER_LIMIT.

(** No client is charged more than the site as a whole. *)
Definition counts_bounded (σ : state) : Prop :=
  0 ≤ globalCount σ
  ∧ ∀ ip c, client_count ip σ = Some c → 0 ≤ c ≤ globalCount σ.

(** Every URL in the vault is one the server wrote itself. *)
Definition vault_urls_built (σ : state) : Prop :=
  ∀ tok e, coverTokens σ !! tok = Some e →
    ∃ encPrompt seed encKey, url e = imageUrl encPrompt seed encKey.

(** No record is shared: two addresses never hold the same record, and the
    record a waiting generation holds is, if still in the map, under the
    address of the client that asked. *)
Definition records_owned (c : config) : Prop :=
  (∀ ip1 ip2 r, users (st c) !! ip1 = Some r → users (st c) !! ip2 = Some r → ip1 = ip2)
  ∧ Forall (λ p, ∀ ip, users (st c) !! ip = Some (p_rec p) → ip = p_ip p)
           (awaiting_text c).

(** The four invariants together. *)
Definition server_inv (c : config) : Prop :=
  refs_live c ∧ records_owned c ∧ counts_bounded (st c) ∧ vault_urls_built (st c).

(** ** Sample configurations *)

Definition rainy : request := request_from alice (JStr (js "rainy neon city")) [].

(** [alice]'s first generation of [day1] waits for the text API. *)
Definition alice_waiting : config :=
  let out := generate_start day1 (Some sample_key) rainy (initial day1) in
  Config out.1 (match out.2 with Await p => [p] | Respond _ => [] end) [].

(** The state once it has come back with a tracklist. *)
Definition alice_served : state :=
  (@generate sample_platform day1 (Some sample_key) rainy
     (completion (JStr sample_json)) tokenA noon (initial day1)).1.

(** What [alice]'s waiting generation holds. *)
Definition alice_pending : pending := Pending alice 0 (js "rainy neon city") sample_key.

(** * The page scripts: [api.js], [ui.js], [app.js]

    The scripts are modelled as far as they talk to the three routes and
    write to the controls of the page.  Replies are the bodies this server
    sends.  The elements the scripts look up by id are taken to be there.
    What [renderResults] draws is not modelled, only whether it returns or
    throws, which is an input like the answers of the network. *)

(** Literal texts of the sources, from their UTF-8 bytes to code units. *)
Fixpoint utf16 (s : string) : jsstring :=
  match s with
  | EmptyString => []
  | String a r =>
      let b := Ascii.N_of_ascii a in
      if (b <? 192)%N then b :: utf16 r
      else match r with
      | String a2 r2 =>
          let b2 := Ascii.N_of_ascii a2 in
          if (b <? 224)%N then ((b - 192) * 64 + (b2 - 128))%N :: utf16 r2
          else match r2 with
          | String a3 r3 =>
              let b3 := Ascii.N_of_ascii a3 in
              if (b <? 240)%N then
                ((b - 224) * 4096 + (b2 - 128) * 64 + (b3 - 128))%N :: utf16 r3
              else match r3 with
              | String a4 r4 =>
                  let b4 := Ascii.N_of_ascii a4 in
                  let cp := ((b - 240) * 262144 + (b2 - 128) * 4096
                             + (b3 - 128) * 64 + (b4 - 128) - 65536)%N in
                  (55296 + cp / 1024)%N :: (56320 + cp mod 1024)%N :: utf16 r4
              | EmptyString => [b; b2; b3]
              end
          | EmptyString => [b; b2]
          end
      | EmptyString => [b]
      end
  end.

(** The messages of the errors the engine itself throws. *)
Class Engine := { native_message : exn → jsstring }.

(** [err.message] *)
Definition exn_message `{Engine} (e : exn) : jsstring :=
  match e with
  | Error m => utf16 m
  | TextApiError code => js "Pollinations text API error (" ++ js (pretty code) ++ js ")"
  | ImageApiError code => js "Image API " ++ js (pretty code)
  | Rejected m => utf16 m
  | TypeError | URIError => native_message e
  end.

(** [data.error] of a reply, [None] when the body has no such field. *)
Definition data_error `{Engine} (b : body) : option jsstring :=
  match b with
  | LimitBody error _ => Some (utf16 error)
  | ErrorBody error => Some (utf16 error)
  | FailureBody err =>
      Some (or_else (Some (exn_message err)) (js "Generation failed. Please try again."))
  | _ => None
  end.

(** What a [fetch] of one of the routes, followed by [res.json()], gives. *)
Inductive api_reply :=
| NetworkError (message : jsstring)       (* fetch rejects *)
| NotJson (message : jsstring)            (* res.json() rejects *)
| Reply (r : response).

(** [res.ok] *)
Definition res_ok (r : response) : bool := (200 <=? status r) && (status r <=? 299).

Module PollinationsAPI.

(** [generate(vibe)], from the reply on: the data, or the error thrown. *)
Definition generate `{Engine} (reply : api_reply) : jsstring + body :=
  match reply with
  | NetworkError m => inl m
  | NotJson m => inl m
  | Reply r =>
      if negb (res_ok r) then
        inl (or_else (data_error (body_of r))
                     (js "Server error (" ++ js (pretty (status r)) ++ js ")"))
      else inr (body_of r)
  end.

Definition getCoverUrl (token : jsstring) : jsstring := js "/api/cover/" ++ token.

End PollinationsAPI.

(** The controls of the page the scripts write to. *)
Record page := Page {
  vibeInput_value : jsstring;
  generateBtn_disabled : bool;
  generateBtn_label : jsstring;
  resultsSection_active : bool;
  errorMessage_active : bool;
  errorText : jsstring;
  loadingOverlay_active : bool;
  userQuota_text : jsstring;
  userQuota_class : jsstring;
  globalQuota_text : jsstring;
  globalQuota_class : jsstring
}.

(** [remaining]: each field a number, or [None] when it is not there. *)
Record remaining := Remaining { user : option Z; global : option Z }.

(** A number in a template literal. *)
Definition shown (n : option Z) : jsstring :=
  match n with Some z => js (pretty z) | None => js "undefined" end.

Definition limit_reached_label : jsstring :=
  js "Limit Reached " ++ [8212%N] ++ js " Try Tomorrow".

Module UI.

Definition showLoading (p : page) : page :=
  Page (vibeInput_value p) true (generateBtn_label p) false false (errorText p) true
       (userQuota_text p) (userQuota_class p) (globalQuota_text p) (globalQuota_class p).

Definition hideLoading (p : page) : page :=
  Page (vibeInput_value p) false (generateBtn_label p) (resultsSection_active p)
       (errorMessage_active p) (errorText p) false
       (userQuota_text p) (userQuota_class p) (globalQuota_text p) (globalQuota_class p).

Definition showError (message : jsstring) (p : page) : page :=
  Page (vibeInput_value p) (generateBtn_disabled p) (generateBtn_label p)
       (resultsSection_active p) true
       (if truthy_str message then message else js "Something went wrong. Please try again.")
       (loadingOverlay_active p)
       (userQuota_text p) (userQuota_class p) (globalQuota_text p) (globalQuota_class p).

Definition updateQuota (remaining : option remaining) (p : page) : page :=
  match remaining with
  | None => p
  | Some rem =>
      let user_class := js "quota-badge" ++
        (if decide (user rem = Some 0) then js " exhausted"
         else if decide (user rem = Some 1) then js " low" else []) in
      let global_class := js "quota-badge" ++
        (if decide (global rem = Some 0) then js " exhausted"
         else match global rem with
              | Some g => if g <=? 3 then js " low" else []
              | None => []
              end) in
      (* Disable generate button if either limit is 0 *)
      let exhausted := bool_decide (user rem = Some 0) || bool_decide (global rem = Some 0) in
      Page (vibeInput_value p)
           (if exhausted then true else generateBtn_disabled p)
           (if exhausted then limit_reached_label else generateBtn_label p)
           (resultsSection_active p) (errorMessage_active p) (errorText p)
           (loadingOverlay_active p)
           (js "You: " ++ shown (user rem) ++ js " left") user_class
           (js "Site: " ++ shown (global rem) ++ js " left") global_class
  end.

(** [status.userRemaining], [status.globalRemaining] *)
Definition updateQuotaFromStatus (status : body) (p : page) : page :=
  updateQuota (Some match status with
                    | StatusBody globalRemaining userRemaining _ _ _ =>
                        Remaining (Some userRemaining) (Some globalRemaining)
                    | _ => Remaining None None
                    end) p.

(** The last step of [renderResults], reached when nothing threw. *)
Definition renderResults_done (p : page) : page :=
  Page (vibeInput_value p) (generateBtn_disabled p) (generateBtn_label p) true
       (errorMessage_active p) (errorText p) (loadingOverlay_active p)
       (userQuota_text p) (userQuota_class p) (globalQuota_text p) (globalQuota_class p).

End UI.

Module App.

(** [handleGenerate] up to [await PollinationsAPI.generate(vibe)]: the page,
    and the vibe sent if a request is made. *)
Definition handleGenerate_start (p : page) : page * option jsstring :=
  let vibe := trim (vibeInput_value p) in
  if negb (truthy_str vibe) then (p, None)
  else (UI.showLoading p, Some vibe).

(** [result.remaining] *)
Definition result_remaining (result : body) : option remaining :=
  match result with
  | GenerateBody _ _ remaining_user remaining_global =>
      Some (Remaining (Some remaining_user) (Some remaining_global))
  | _ => None
  end.

(** [handleGenerate] from the reply on.  [thrown] is what [renderResults]
    threw, if it did. *)
Definition handleGenerate_resume `{Engine} (reply : api_reply) (thrown : option jsstring)
    (p : page) : page :=
  UI.hideLoading
    match PollinationsAPI.generate reply with
    | inr result =>
        match thrown with
        | None => UI.updateQuota (result_remaining result) (UI.renderResults_done p)
        | Some message => UI.showError message p
        end
    | inl message => UI.showError message p
    end.

(** [loadQuota] from the reply of [getStatus] on. *)
Definition loadQuota_resume (reply : api_reply) (p : page) : page :=
  match reply with
  | Reply r => UI.updateQuotaFromStatus (body_of r) p
  | _ => p
  end.

End App.

(** The body the browser sends for a vibe: [JSON.stringify({ vibe })], as
    [express.json()] hands it to the handler. *)
Definition posted (ip : jsstring) (vibe : jsstring) : request :=
  Request (Some ip) None None (JStr vibe) [].

(** A page just loaded, with [text] typed in. *)
Definition fresh_page (text : jsstring) : page :=
  Page text false (js "Generate Soundtrack") false false [] false [] [] [] [].


(** ** The total runtime that [renderResults] writes

    The loop over the tracks and the text of the [totalRuntime] element, for
    a tracklist whose [tracks] is an array, as the server makes sure it is.
    A number is an integer or NaN ([None]); the integers are exact as long
    as they stay below 2^53. *)

Definition is_digit (c : N) : bool := ((48 <=? c) && (c <=? 57))%N.

Fixpoint digits_value (acc : Z) (s : jsstring) : Z :=
  match s with
  | c :: r => if is_digit c then digits_value (10 * acc + Z.of_N (c - 48)) r else acc
  | [] => acc
  end.

(** [parseInt(s, 10)]: white space, a sign, then the digits there are. *)
Definition parseInt10 (s : jsstring) : option Z :=
  let s := trimStart s in
  let '(negative, s) := match s with
                        | 45%N :: r => (true, r)
                        | 43%N :: r => (false, r)
                        | _ => (false, s)
                        end in
  match s with
  | c :: _ =>
      if is_digit c then Some (if negative : bool then - digits_value 0 s else digits_value 0 s)
      else None
  | [] => None
  end.

(** [s.split(':')] *)
Fixpoint split_colon (s : jsstring) : list jsstring :=
  match s with
  | [] => [[]]
  | c :: r =>
      if (c =? 58)%N then [] :: split_colon r
      else match split_colon r with
           | part :: parts => (c :: part) :: parts
           | [] => [[c]]
           end
  end.

(** What one track adds to [totalSeconds]: [None] is NaN, [inl] the
    TypeError of a track that is [null] or of a duration that is neither
    missing nor a string. *)
Definition track_seconds (track : jsvalue) : exn + option Z :=
  match get_prop track (js "duration") with
  | None => inl TypeError
  | Some duration =>
      match (if falsy duration then Some (js "0:00")
             else match duration with JStr s => Some s | _ => None end) with
      | None => inl TypeError
      | Some text =>
          match split_colon text with
          | [minutes; seconds] =>
              inr (m ← parseInt10 minutes; s ← parseInt10 seconds; Some (m * 60 + s))
          | _ => inr (Some 0)
          end
      end
  end.

(** [totalSeconds] after the loop. *)
Fixpoint total_seconds (totalSeconds : option Z) (tracks : list jsvalue) : exn + option Z :=
  match tracks with
  | [] => inr totalSeconds
  | track :: rest =>
      match track_seconds track with
      | inl e => inl e
      | inr added =>
          total_seconds (t ← totalSeconds; a ← added; Some (t + a)) rest
      end
  end.

Definition number_text (n : option Z) : jsstring :=
  match n with Some z => js (pretty z) | None => js "NaN" end.

(** [text.padStart(2, '0')] *)
Definition padStart2 (text : jsstring) : jsstring :=
  match text with
  | [] => js "00"
  | [c] => 48%N :: [c]
  | _ => text
  end.

(** The text of the [totalRuntime] element. *)
Definition total_runtime_text (tracks : list jsvalue) : exn + jsstring :=
  match total_seconds (Some 0) tracks with
  | inl e => inl e
  | inr totalSeconds =>
      let totalMin := (λ t, t `div` 60) <$> totalSeconds in
      let totalSec := (λ t, Z.rem t 60) <$> totalSeconds in
      inr (js "Total: " ++ number_text totalMin ++ js ":" ++ padStart2 (number_text totalSec))
  end.

(** A track as the model is asked to write it: a duration of [m] minutes
    and [s] seconds, the seconds on two digits. *)
Definition duration_text (m s : N) : jsstring :=
  js (pretty m) ++ [58%N] ++ padStart2 (js (pretty s)).

Definition track_of (title : jsstring) (ms : N * N) : jsvalue :=
  JObj [(js "title", JStr title); (js "duration", JStr (duration_text ms.1 ms.2))].

Definition seconds_of (ms : N * N) : Z := Z.of_N ms.1 * 60 + Z.of_N ms.2.

(** The seconds of a list of titled durations. *)
Definition sum_seconds (tracks : list (jsstring * (N * N))) : Z :=
  foldr (λ t acc, seconds_of t.2 + acc) 0 tracks.

Definition tracks_of (tracks : list (jsstring * (N * N))) : list jsvalue :=
  (λ t, track_of t.1 t.2) <$> tracks.

(** ** [todayUTC]

    [new Date().toISOString().split('T')[0]] at the instant [now], in
    milliseconds since the epoch, by the date arithmetic of ECMAScript. *)

Definition msPerDay : Z := 86400000.

Definition Day (t : Z) : Z := t `div` msPerDay.

Definition DayFromYear (y : Z) : Z :=
  365 * (y - 1970) + (y - 1969) `div` 4 - (y - 1901) `div` 100 + (y - 1601) `div` 400.

Definition InLeapYear (y : Z) : Z :=
  if negb (y `mod` 4 =? 0) then 0
  else if negb (y `mod` 100 =? 0) then 1
  else if negb (y `mod` 400 =? 0) then 0 else 1.

(** The largest year that starts on or before day [d], searched upwards
    from a year that does. *)
Fixpoint year_search (fuel : nat) (y d : Z) : Z :=
  match fuel with
  | O => y
  | S fuel => if DayFromYear (y + 1) <=? d then year_search fuel (y + 1) d else y
  end.

Definition YearFromDay (d : Z) : Z :=
  year_search (Z.to_nat (d `div` 100000) + 2) (1970 + d `div` 366) d.

Definition MonthFromDay (d : Z) : Z :=
  let y := YearFromDay d in
  let leap := InLeapYear y in
  let n := d - DayFromYear y in
  if n <? 31 then 0 else if n <? 59 + leap then 1 else if n <? 90 + leap then 2
  else if n <? 120 + leap then 3 else if n <? 151 + leap then 4
  else if n <? 181 + leap then 5 else if n <? 212 + leap then 6
  else if n <? 243 + leap then 7 else if n <? 273 + leap then 8
  else if n <? 304 + leap then 9 else if n <? 334 + leap then 10 else 11.

Definition DateFromDay (d : Z) : Z :=
  let y := YearFromDay d in
  let leap := InLeapYear y in
  let n := d - DayFromYear y in
  match MonthFromDay d with
  | 0 => n + 1 | 1 => n - 30 | 2 => n - 58 - leap | 3 => n - 89 - leap
  | 4 => n - 119 - leap | 5 => n - 150 - leap | 6 => n - 180 - leap
  | 7 => n - 211 - leap | 8 => n - 242 - leap | 9 => n - 272 - leap
  | 10 => n - 303 - leap | _ => n - 333 - leap
  end.

(** [text.padStart(width, '0')] *)
Definition padStart0 (width : nat) (text : jsstring) : jsstring :=
  replicate (width - length text) 48%N ++ text.

(** The date part of the ISO string, for a year of four digits. *)
Definition iso_date (d : Z) : jsstring :=
  padStart0 4 (js (pretty (YearFromDay d))) ++ js "-"
  ++ padStart0 2 (js (pretty (MonthFromDay d + 1))) ++ js "-"
  ++ padStart0 2 (js (pretty (DateFromDay d))).

Definition todayUTC (now : Z) : jsstring := iso_date (Day now).

(** The day a date string of that form names: the way back, used to tell
    two dates apart. *)
Definition days_before_month (leap m : Z) : Z :=
  match m with
  | 1 => 0 | 2 => 31 | 3 => 59 + leap | 4 => 90 + leap | 5 => 120 + leap
  | 6 => 151 + leap | 7 => 181 + leap | 8 => 212 + leap | 9 => 243 + leap
  | 10 => 273 + leap | 11 => 304 + leap | _ => 334 + leap
  end.

Definition day_of_iso (s : jsstring) : Z :=
  let y := digits_value 0 (take 4 s) in
  let m := digits_value 0 (take 2 (drop 5 s)) in
  let dd := digits_value 0 (take 2 (drop 8 s)) in
  DayFromYear y + days_before_month (InLeapYear y) m + dd - 1.

(** The first instant of the year 10000, from which on the ISO string
    writes the year on six digits with a sign. *)
Definition year10000 : Z := DayFromYear 10000 * msPerDay.

(** ** The cover URL and [encodeURIComponent]

    A platform whose [encodeURIComponent] is the one of ECMAScript,
    whatever its JSON parser and pattern matcher do. *)
Definition real_platform (parse : jsstring → option jsvalue)
    (fence : jsstring → option jsstring) : Platform :=
  {| JSON_parse := parse; match_fence := fence; encodeURIComponent := uri_encode |}.

(** The code units that delimit the parts of a URL: [?], [&], [=], [#]
    and [/]. *)
Definition url_delimiter (c : N) : bool :=
  ((c =? 63) || (c =? 38) || (c =? 61) || (c =? 35) || (c =? 47))%N.

(** Every surrogate is half of a pair. *)
Fixpoint well_formed (s : jsstring) : bool :=
  match s with
  | [] => true
  | c :: r =>
      if is_low_surrogate c then false
      else if is_high_surrogate c then
        match r with
        | lo :: r' => is_low_surrogate lo && well_formed r'
        | [] => false
        end
      else well_formed r
  end.

(** A vibe with half a pair in it, as the JSON text ["neon \ud83d"] gives. *)
Definition half_pair : jsstring := js "neon " ++ [55357%N].


(** ** Within one UTC day

    What the server may do to the state while a request waits, when every
    request it serves in the meantime reads the date [today]: the start and
    the resumption of any handler, and the sweep. *)
Inductive day_step `{Platform} (today : jsstring) (σ : state) : state → Prop :=
| day_status req :
    day_step today σ (status_handler today req σ).1
| day_generate_start apiKey req :
    day_step today σ (generate_start today apiKey req σ).1
| day_generate_resume p textRes token now :
    day_step today σ (generate_resume p textRes token now σ).1
| day_cover_start now req :
    day_step today σ (cover_start now req σ).1
| day_cover_resume req imgRes :
    day_step today σ (cover_resume req imgRes σ).1
| day_sweep now :
    day_step today σ (sweep now σ).

(** The ledger is of [today] and has, under [ip], the record [r], dated
    [today]: the record a handler took for [ip] is still the client's. *)
Definition held_current (today ip : jsstring) (r : ref) (σ : state) : Prop :=
  resetDate σ = today
  ∧ users σ !! ip = Some r
  ∧ ∃ rec, recs σ !! r = Some rec ∧ date rec = today.

(** A status request of [bob] on [day2]. *)
Definition bob_next_day (σ : state) : state :=
  (status_handler day2 (request_from bob JUndefined []) σ).1.

(** [bob]'s request, and what his generation holds while [alice]'s waits. *)
Definition rainy_bob : request := request_from bob (JStr (js "rainy neon city")) [].
Definition bob_pending : pending := Pending bob 1 (js "rainy neon city") sample_key.

(** [alice]'s generation still waits when [bob]'s, begun after hers, has
    come back and is charged. *)
Definition bob_charged : state :=
  (@generate sample_platform day1 (Some sample_key) rainy_bob
     (completion (JStr sample_json)) tokenB noon (st alice_waiting)).1.


(** * Properties *)

(** ** The ledger *)

Lemma resetIfNewDay_same today σ : resetDate σ = today → resetIfNewDay today σ = σ.
Proof. intros Hd. unfold resetIfNewDay. case_decide; [contradiction | reflexivity]. Qed.

Lemma resetIfNewDay_fresh today σ :
  resetDate σ ≠ today → resetIfNewDay today σ = set_ledger 0 today ∅ σ.
Proof. intros Hd. unfold resetIfNewDay. case_decide; [reflexivity | contradiction]. Qed.

Lemma resetIfNewDay_date today σ : resetDate (resetIfNewDay today σ) = today.
Proof.
  unfold resetIfNewDay. case_decide as Hd; [reflexivity |].
  destruct (decide (resetDate σ = today)); [assumption | contradiction].
Qed.

Lemma resetIfNewDay_idem today σ :
  resetIfNewDay today (resetIfNewDay today σ) = resetIfNewDay today σ.
Proof. apply resetIfNewDay_same, resetIfNewDay_date. Qed.

Lemma resetIfNewDay_frame today σ :
  recs (resetIfNewDay today σ) = recs σ
  ∧ coverTokens (resetIfNewDay today σ) = coverTokens σ.
Proof. unfold resetIfNewDay. case_decide; split; reflexivity. Qed.

Lemma userRecord_current today ip σ r rec :
  users σ !! ip = Some r → recs σ !! r = Some rec → date rec = today →
  userRecord today ip σ = (σ, r).
Proof.
  intros Hu Hr Hd. unfold userRecord. rewrite Hu, Hr.
  case_decide; [contradiction | reflexivity].
Qed.

Lemma userRecord_fresh today ip σ :
  current_record today ip σ = None →
  userRecord today ip σ = new_record today ip σ.
Proof.
  unfold current_record, userRecord.
  destruct (users σ !! ip) as [r|]; simpl; [| reflexivity].
  destruct (recs σ !! r) as [rec|]; simpl; [| reflexivity].
  repeat case_decide; try reflexivity; try contradiction. discriminate.
Qed.

Lemma current_record_Some today ip σ rec :
  current_record today ip σ = Some rec →
  ∃ r, users σ !! ip = Some r ∧ recs σ !! r = Some rec ∧ date rec = today.
Proof.
  unfold current_record.
  destruct (users σ !! ip) as [r|]; simpl; [| discriminate].
  destruct (recs σ !! r) as [rec'|] eqn:Hr; simpl; [| discriminate].
  case_decide; [| discriminate]. intros [= <-]. exists r. auto.
Qed.

(** What [userRecord] returns and what it leaves alone. *)
Lemma userRecord_spec today ip σ σ' r :
  userRecord today ip σ = (σ', r) →
  globalCount σ' = globalCount σ ∧ resetDate σ' = resetDate σ
  ∧ coverTokens σ' = coverTokens σ
  ∧ users σ' !! ip = Some r
  ∧ recs σ' !! r = Some (UserRec (used_today today ip σ) today)
  ∧ (∀ ip', ip' ≠ ip → users σ' !! ip' = users σ !! ip')
  ∧ (∀ r' rec', recs σ !! r' = Some rec' → recs σ' !! r' = Some rec').
Proof.
  intros Hrec. unfold used_today.
  destruct (current_record today ip σ) as [rec|] eqn:Hcur.
  - destruct (current_record_Some _ _ _ _ Hcur) as (r0 & Hu & Hr & Hd).
    rewrite (userRecord_current _ _ _ _ _ Hu Hr Hd) in Hrec.
    injection Hrec as <- <-. repeat split; try done.
    rewrite Hr. destruct rec; simpl in *; congruence.
  - rewrite (userRecord_fresh _ _ _ Hcur) in Hrec. unfold new_record in Hrec.
    injection Hrec as <- <-. simpl. repeat split.
    + apply lookup_insert_eq.
    + rewrite lookup_app_r by lia. by rewrite Nat.sub_diag.
    + intros ip' Hne. by rewrite lookup_insert_ne.
    + intros r' rec' Hr'. by apply lookup_app_l_Some.
Qed.

Lemma userRecord_wf today ip σ :
  wf_state σ → wf_state (userRecord today ip σ).1.
Proof.
  intros Hwf. destruct (current_record today ip σ) as [rec|] eqn:Hcur.
  - destruct (current_record_Some _ _ _ _ Hcur) as (r0 & Hu & Hr & Hd).
    by rewrite (userRecord_current _ _ _ _ _ Hu Hr Hd).
  - rewrite (userRecord_fresh _ _ _ Hcur). unfold new_record, wf_state. simpl.
    intros ip' r'. rewrite length_app. simpl.
    destruct (decide (ip = ip')) as [<- | Hne].
    + rewrite lookup_insert_eq. intros [= <-]. lia.
    + rewrite lookup_insert_ne by done. intros Hu. specialize (Hwf _ _ Hu). lia.
Qed.

Lemma resetIfNewDay_wf today σ : wf_state σ → wf_state (resetIfNewDay today σ).
Proof.
  intros Hwf. unfold resetIfNewDay. case_decide; [| done].
  intros ip r. simpl. by rewrite lookup_empty.
Qed.

Lemma status_handler_eq today req σ :
  status_handler today req σ =
  let p := userRecord today (clientIp req) (resetIfNewDay today σ) in
  (p.1, json (StatusBody (Z.max 0 (DAILY_GLOBAL_LIMIT - globalCount p.1))
                         (Z.max 0 (DAILY_USER_LIMIT - count_at p.2 p.1))
                         DAILY_GLOBAL_LIMIT DAILY_USER_LIMIT "midnight UTC")).
Proof. unfold status_handler. by destruct (userRecord _ _ _). Qed.

Lemma userRecord_count today ip σ σ' r :
  userRecord today ip σ = (σ', r) → count_at r σ' = used_today today ip σ.
Proof.
  intros Hrec. apply userRecord_spec in Hrec as (_ & _ & _ & _ & Hr & _).
  unfold count_at. by rewrite Hr.
Qed.

Lemma used_today_empty today ip σ : users σ = ∅ → used_today today ip σ = 0.
Proof.
  intros Hu. unfold used_today, current_record. by rewrite Hu, lookup_empty.
Qed.

(** C5. When the stored reset date is not today's, the first thing the next
    ledger access does, be it GET status or POST generate, is to put the
    ledger at globalCount = 0, resetDate = today and no per-client entry,
    whatever the counters were: either handler behaves as if started from
    that state, and the status it reports is the full quota. *)
Theorem first_access_after_day_change today σ (Hnew : resetDate σ ≠ today) :
  let σ0 := resetIfNewDay today σ in
  globalCount σ0 = 0 ∧ resetDate σ0 = today ∧ users σ0 = ∅
  ∧ (∀ req, status_handler today req σ = status_handler today req σ0)
  ∧ (∀ apiKey req, generate_start today apiKey req σ = generate_start today apiKey req σ0)
  ∧ (∀ req, (status_handler today req σ).2 = json (StatusBody 11 2 11 2 "midnight UTC")).
Proof.
  intros σ0. subst σ0. rewrite (resetIfNewDay_fresh _ _ Hnew).
  split; [reflexivity |]. split; [reflexivity |]. split; [reflexivity |].
  split; [| split].
  - intros req. unfold status_handler.
    by rewrite <- (resetIfNewDay_fresh _ _ Hnew), resetIfNewDay_idem.
  - intros apiKey req. unfold generate_start.
    by rewrite <- (resetIfNewDay_fresh _ _ Hnew), resetIfNewDay_idem.
  - intros req. rewrite status_handler_eq. simpl.
    rewrite (resetIfNewDay_fresh _ _ Hnew).
    destruct (userRecord today (clientIp req) (set_ledger 0 today ∅ σ))
      as [σ1 r] eqn:Hrec. simpl.
    rewrite (userRecord_count _ _ _ _ _ Hrec), used_today_empty by reflexivity.
    apply userRecord_spec in Hrec as (-> & _). reflexivity.
Qed.

(** C5 at a ledger of [day1] first accessed on [day2]. *)
Lemma first_access_after_day_change_witness :
  resetDate busy_day ≠ day2
  ∧ globalCount (resetIfNewDay day2 busy_day) = 0
  ∧ users (resetIfNewDay day2 busy_day) = ∅
  ∧ (status_handler day2 (request_from alice JUndefined []) busy_day).2
    = json (StatusBody 11 2 11 2 "midnight UTC").
Proof.
  assert (Hnew : resetDate busy_day ≠ day2) by discriminate.
  destruct (first_access_after_day_change day2 busy_day Hnew)
    as (Hg & _ & Hu & _ & _ & Hs).
  split; [exact Hnew |]. split; [exact Hg |]. split; [exact Hu |]. apply Hs.
Defined.

(** C8 (as stated, refuted). GET status does not leave the per-client
    entries as they were: on a ledger whose date is already current, a
    status request from a client without an entry adds one. *)
Lemma status_materializes_record :
  resetDate busy_day = day1
  ∧ ¬ status_leaves_ledger day1 (request_from bob JUndefined []) busy_day.
Proof.
  split; [reflexivity |]. intros (_ & _ & Hu & _).
  apply (f_equal (λ m : gmap jsstring ref, m !! bob)) in Hu.
  vm_compute in Hu. discriminate.
Qed.

(** C8 (amended). Beyond the lazy day-reset, GET status changes neither the
    global counter nor the reset date nor the cover tokens, and it leaves
    every other client's entry and every existing record as it was.  For
    the requesting client it does nothing when the ledger holds a record of
    today for it, and otherwise stores a fresh record with count 0 and
    today's date under the client's address. *)
Theorem status_effects today req σ :
  let ip := clientIp req in
  let σ0 := resetIfNewDay today σ in
  let σ' := (status_handler today req σ).1 in
  (resetDate σ = today → σ0 = σ)
  ∧ globalCount σ' = globalCount σ0 ∧ resetDate σ' = resetDate σ0
  ∧ coverTokens σ' = coverTokens σ
  ∧ (∀ ip', ip' ≠ ip → users σ' !! ip' = users σ0 !! ip')
  ∧ (∀ r rec, recs σ !! r = Some rec → recs σ' !! r = Some rec)
  ∧ match current_record today ip σ0 with
    | Some _ => σ' = σ0
    | None => users σ' = <[ip := length (recs σ)]> (users σ0)
              ∧ recs σ' = recs σ ++ [UserRec 0 today]
    end.
Proof.
  intros ip σ0 σ'. subst σ'. rewrite status_handler_eq. simpl. fold ip σ0.
  destruct (resetIfNewDay_frame today σ) as [Hrecs Htok]. fold σ0 in Hrecs, Htok.
  split; [apply resetIfNewDay_same |].
  destruct (userRecord today ip σ0) as [σ1 r] eqn:Hrec. simpl.
  pose proof (userRecord_spec _ _ _ _ _ Hrec) as (Hg & Hd & Hc & _ & _ & Ho & Hp).
  split; [exact Hg |]. split; [exact Hd |]. split; [congruence |].
  split; [exact Ho |]. split.
  - intros r' rec' Hr'. apply Hp. by rewrite Hrecs.
  - destruct (current_record today ip σ0) as [rec|] eqn:Hcur.
    + destruct (current_record_Some _ _ _ _ Hcur) as (r0 & Hu0 & Hr0 & Hd0).
      rewrite (userRecord_current _ _ _ _ _ Hu0 Hr0 Hd0) in Hrec. congruence.
    + rewrite (userRecord_fresh _ _ _ Hcur) in Hrec. unfold new_record in Hrec.
      injection Hrec as <- <-. simpl. by rewrite Hrecs.
Qed.

(** C6. After the lazy prelude (day-reset, the client's record), the limit
    checks of POST generate change nothing in the state and test the
    site-wide limit first: the answer is 429 global_limit iff globalCount is
    at least 11, whatever the client's own count; it is 429 user_limit iff
    globalCount is below 11 and the client's count is at least 2; in every
    other case the request is not answered with 429.  The two counts are the
    ledger's: the global counter and what the client used today. *)
Theorem reservation_check today apiKey req σ :
  let σ0 := resetIfNewDay today σ in
  let pre := userRecord today (clientIp req) σ0 in
  let out := generate_start today apiKey req σ in
  out.1 = pre.1
  ∧ globalCount pre.1 = globalCount σ0
  ∧ count_at pre.2 pre.1 = used_today today (clientIp req) σ0
  ∧ (out.2 = Respond (Response 429 (LimitBody global_limit_error "global_limit"))
     ↔ 11 ≤ globalCount pre.1)
  ∧ (out.2 = Respond (Response 429 (LimitBody user_limit_error "user_limit"))
     ↔ globalCount pre.1 < 11 ∧ 2 ≤ count_at pre.2 pre.1)
  ∧ (answered out.2 = Some 429
     ↔ 11 ≤ globalCount pre.1 ∨ 2 ≤ count_at pre.2 pre.1).
Proof.
  intros σ0 pre out. subst out pre. unfold generate_start. fold σ0.
  destruct (userRecord today (clientIp req) σ0) as [σ1 r] eqn:Hrec. simpl.
  pose proof (userRecord_spec _ _ _ _ _ Hrec) as (Hg & _).
  pose proof (userRecord_count _ _ _ _ _ Hrec) as Hc.
  unfold DAILY_GLOBAL_LIMIT, DAILY_USER_LIMIT.
  destruct (Z.geb_spec (globalCount σ1) 11) as [Hge | Hlt]; simpl.
  { repeat split; try done; try lia; try (intros _; by left). }
  destruct (Z.geb_spec (count_at r σ1) 2) as [Hge' | Hlt']; simpl.
  { repeat split; try done; try lia; try (intros _; by right). }
  destruct (negb (truthy_str _) || _); simpl;
    [| destruct apiKey as [key|]; [destruct (truthy_str key) |]; simpl ];
    (split; [reflexivity |]; split; [exact Hg |]; split; [exact Hc |]);
    repeat split; try done; try lia; try (intros [? | ?]; lia).
Qed.

Lemma truthy_str_false s : truthy_str s = false ↔ s = [].
Proof. destruct s; simpl; split; congruence. Qed.

(** C7 (as stated, refuted). A 601-character input that trims to 600
    characters passes the validation and goes on to the upstream call; and
    an input that is not a string is answered with 429, not 400, once a
    limit is reached, since the limits are checked first. *)
Lemma validation_counterexample :
  length padded_vibe = 601%nat
  ∧ ¬ validation_as_stated day1 (Some sample_key)
        (request_from alice (JStr padded_vibe) []) (initial day1)
  ∧ ¬ validation_as_stated day1 (Some sample_key)
        (request_from alice JNull []) full_day.
Proof.
  split; [reflexivity |]. split.
  - intros [_ Hback]. assert (Hlong : (600 < length padded_vibe)%nat) by (vm_compute; lia).
    specialize (Hback (or_intror Hlong)). vm_compute in Hback. discriminate.
  - intros [_ Hback]. specialize (Hback I). vm_compute in Hback. discriminate.
Qed.

(** C7 (amended). When neither limit is reached, POST generate answers 400
    before any upstream call exactly when req.body.vibe is not a string or,
    once trimmed, is empty or longer than 600 code units; the state is then
    as the lazy prelude left it, no counter touched.  (When a limit is
    reached the answer is 429 whatever the input, see C6.) *)
Theorem input_validation today apiKey req σ :
  let pre := userRecord today (clientIp req) (resetIfNewDay today σ) in
  let out := generate_start today apiKey req σ in
  globalCount pre.1 < 11 → count_at pre.2 pre.1 < 2 →
  (out.2 = Respond (Response 400 (ErrorBody "Please provide a vibe (max 600 characters)."))
   ↔ vibe_turned_down (body_vibe req))
  ∧ (answered out.2 = Some 400 ↔ vibe_turned_down (body_vibe req))
  ∧ out.1 = pre.1.
Proof.
  intros pre out Hg Hu. subst out pre. unfold generate_start in *.
  destruct (userRecord today (clientIp req) (resetIfNewDay today σ)) as [σ1 r].
  simpl in *. unfold DAILY_GLOBAL_LIMIT, DAILY_USER_LIMIT.
  destruct (Z.geb_spec (globalCount σ1) 11) as [? | _]; [lia |].
  destruct (Z.geb_spec (count_at r σ1) 2) as [? | _]; [lia |].
  assert (Hdown : negb (truthy_str (typeof_string_trim (body_vibe req)))
                  || (600 <? length (typeof_string_trim (body_vibe req)))%nat = true
                  ↔ vibe_turned_down (body_vibe req)).
  { rewrite orb_true_iff, negb_true_iff, truthy_str_false, Nat.ltb_lt.
    unfold vibe_turned_down, typeof_string_trim.
    destruct (body_vibe req); simpl; tauto. }
  destruct (negb _ || _); simpl.
  - repeat split; try done; intros; by apply Hdown.
  - assert (Hno : ¬ vibe_turned_down (body_vibe req)).
    { intros Hv. apply Hdown in Hv. discriminate. }
    destruct apiKey as [key|]; [destruct (truthy_str key) |]; simpl;
      repeat split; try done.
Qed.

(** C7 (amended) at a 601-letter input from a client below both limits. *)
Lemma input_validation_witness :
  let req := request_from bob (JStr long_vibe) [] in
  let pre := userRecord day1 (clientIp req) (resetIfNewDay day1 busy_day) in
  length long_vibe = 601%nat
  ∧ globalCount pre.1 < 11 ∧ count_at pre.2 pre.1 < 2
  ∧ answered (generate_start day1 (Some sample_key) req busy_day).2 = Some 400.
Proof.
  intros req pre.
  assert (Hg : globalCount pre.1 < 11) by (vm_compute; reflexivity).
  assert (Hu : count_at pre.2 pre.1 < 2) by (vm_compute; reflexivity).
  split; [reflexivity |]. split; [exact Hg |]. split; [exact Hu |].
  destruct (input_validation day1 (Some sample_key) req busy_day Hg Hu) as (_ & Hiff & _).
  apply Hiff. right. vm_compute. lia.
Defined.

(** ** The vault *)

(** C3 (as stated, refuted). At the very instant [now = expiresAt] the
    token is not expired: the handler goes on to fetch the stored URL and
    the entry stays in the vault. *)
Lemma redeem_at_expiry_instant :
  let now := noon + 5 * 60 * 1000 in
  let req := request_from alice JUndefined tokenA in
  (expiresAt <$> coverTokens one_token !! tokenA) = Some now
  ∧ ¬ redeem_as_stated now req one_token
  ∧ cover_start now req one_token = (one_token, Await urlA).
Proof.
  split; [reflexivity |]. split; [| reflexivity].
  unfold redeem_as_stated. intros Hst. vm_compute in Hst.
  destruct Hst as [Hst _]. discriminate.
Qed.

(** C3 (amended). redeem answers 404 and changes nothing when the token is
    not in the vault; when it is there and [now > expiresAt], it deletes the
    entry and answers 410; when it is there and [now ≤ expiresAt], the
    instant of expiry included, it changes nothing yet and goes on to fetch
    the stored URL. *)
Theorem redeem_cases now req σ :
  let tok := params_token req in
  let out := cover_start now req σ in
  (coverTokens σ !! tok = None →
     out = (σ, Respond (Response 404 (ErrorBody "Cover not found or already used."))))
  ∧ (∀ e, coverTokens σ !! tok = Some e → expiresAt e < now →
       out = (set_coverTokens (delete tok (coverTokens σ)) σ,
              Respond (Response 410 (ErrorBody "Cover token expired.")))
       ∧ coverTokens out.1 !! tok = None)
  ∧ (∀ e, coverTokens σ !! tok = Some e → now ≤ expiresAt e →
       out = (σ, Await (url e))).
Proof.
  intros tok out. subst out tok. unfold cover_start.
  split; [| split].
  - intros ->. reflexivity.
  - intros e -> Hlt. destruct (Z.gtb_spec now (expiresAt e)); [| lia].
    split; [reflexivity |]. simpl. apply lookup_delete_eq.
  - intros e -> Hle. destruct (Z.gtb_spec now (expiresAt e)); [lia | reflexivity].
Qed.

Lemma sweep_fold_lookup (now : Z) (l : list (jsstring * entry)) (acc : gmap jsstring entry) tok e :
  foldl (λ acc te, sweep_entry now te acc) acc l !! tok = Some e
  ↔ acc !! tok = Some e ∧ ∀ e', (tok, e') ∈ l → now ≤ expiresAt e'.
Proof.
  revert acc. induction l as [| [tok' e1] l IH]; intros acc; simpl.
  - split; [intros Hacc; split; [done |] | by intros [? _]].
    intros e' Hin. by apply elem_of_nil in Hin.
  - rewrite IH. unfold sweep_entry. simpl.
    destruct (Z.gtb_spec now (expiresAt e1)) as [Hexp | Hlive].
    + destruct (decide (tok' = tok)) as [-> | Hne].
      * rewrite lookup_delete_eq. split; [by intros [? _] |].
        intros [_ Hall]. specialize (Hall e1 ltac:(left)). lia.
      * rewrite lookup_delete_ne by done. split; intros [Hacc Hall]; (split; [done |]).
        -- intros e' Hin. apply elem_of_cons in Hin as [[= <- _] | Hin]; [done | eauto].
        -- intros e' Hin. apply Hall. by right.
    + split; intros [Hacc Hall]; (split; [done |]).
      * intros e' Hin. apply elem_of_cons in Hin as [[= _ ->] | Hin]; [lia | eauto].
      * intros e' Hin. apply Hall. by right.
Qed.

Lemma sweep_tokens_lookup (now : Z) (tokens : gmap jsstring entry) tok e :
  sweep_tokens now tokens !! tok = Some e
  ↔ tokens !! tok = Some e ∧ now ≤ expiresAt e.
Proof.
  unfold sweep_tokens. rewrite sweep_fold_lookup. split.
  - intros [Hin Hall]. split; [done |]. apply Hall. by apply elem_of_map_to_list.
  - intros [Hin Hle]. split; [done |]. intros e' Hin'.
    apply elem_of_map_to_list in Hin'. congruence.
Qed.

(** C4 (as stated, refuted). An entry whose expiry equals the current
    instant survives the sweep. *)
Lemma sweep_at_expiry_instant :
  let now := noon + 5 * 60 * 1000 in
  (expiresAt <$> coverTokens one_token !! tokenA) = Some now
  ∧ ¬ sweep_as_stated now one_token
  ∧ sweep now one_token = one_token.
Proof.
  split; [reflexivity |]. split.
  - intros Hst. destruct (Hst tokenA (Entry urlA (noon + 5 * 60 * 1000)) eq_refl) as [Hdel _].
    specialize (Hdel ltac:(reflexivity)).
    assert (Hkept : coverTokens (sweep (noon + 5 * 60 * 1000) one_token) !! tokenA
                    = Some (Entry urlA (noon + 5 * 60 * 1000))).
    { apply sweep_tokens_lookup. split; [reflexivity | simpl; lia]. }
    congruence.
  - unfold sweep. apply (f_equal (λ c, set_coverTokens c one_token)).
    apply map_eq. intros tok. apply option_eq. intros e.
    rewrite sweep_tokens_lookup. split; [by intros [? _] |].
    intros Hin. split; [done |]. simpl in Hin.
    apply lookup_singleton_Some in Hin as [_ <-]. simpl. lia.
Qed.

(** C4 (amended). One run of the sweep deletes exactly the entries with
    [expiresAt < now]: an entry is in the vault afterwards iff it was there
    before with [now ≤ expiresAt], the instant of expiry included; nothing
    else of the state changes. *)
Theorem sweep_deletes_expired now σ :
  let σ' := sweep now σ in
  (∀ tok e, coverTokens σ' !! tok = Some e
            ↔ coverTokens σ !! tok = Some e ∧ now ≤ expiresAt e)
  ∧ (∀ tok e, coverTokens σ !! tok = Some e → expiresAt e < now →
              coverTokens σ' !! tok = None)
  ∧ globalCount σ' = globalCount σ ∧ resetDate σ' = resetDate σ
  ∧ users σ' = users σ ∧ recs σ' = recs σ.
Proof.
  intros σ'. subst σ'. unfold sweep. simpl.
  split; [intros tok e; apply sweep_tokens_lookup |].
  split; [| done].
  intros tok e Hin Hlt.
  destruct (sweep_tokens now (coverTokens σ) !! tok) as [e'|] eqn:Hsw; [| done].
  apply sweep_tokens_lookup in Hsw as [Hin' Hle]. assert (e' = e) by congruence. subst. lia.
Qed.

Lemma cover_resume_ok req code content_type bytes σ :
  cover_resume req (ImageFetched true code content_type (inr bytes)) σ
  = (set_coverTokens (delete (params_token req) (coverTokens σ)) σ,
     Response 200 (ImageBody (or_else content_type (js "image/jpeg"))
                             "public, max-age=86400" bytes)).
Proof. reflexivity. Qed.

Lemma cover_resume_failed req imgRes σ :
  image_ok imgRes = false →
  cover_resume req imgRes σ = (σ, Response 502 (ErrorBody "Failed to load album cover.")).
Proof.
  destruct imgRes as [m | [|] code ct [m | bytes]]; simpl; try discriminate; reflexivity.
Qed.

(** C2 (as stated, refuted). When the image fetch fails, the token of a
    live entry stays in the vault, and a second redemption of it is served. *)
Lemma failed_cover_keeps_token :
  let req := request_from alice JUndefined tokenA in
  let failed := ImageRejected "fetch failed" in
  ¬ cover_consumes_as_stated noon req failed one_token
  ∧ cover noon req failed one_token
    = (one_token, Response 502 (ErrorBody "Failed to load album cover."))
  ∧ status (cover (noon + 1) req jpeg (cover noon req failed one_token).1).2 = 200.
Proof.
  split; [| split; reflexivity].
  intros Hst.
  destruct (Hst (Entry urlA (noon + 5 * 60 * 1000)) eq_refl ltac:(reflexivity)) as [Hgone _].
  vm_compute in Hgone. discriminate.
Qed.

(** C2 (amended). For a token in the vault with [now ≤ expiresAt], GET
    cover goes on to the image fetch.  When the fetch succeeds (OK answer,
    body read), the image is sent and the token is deleted from the vault as
    it then is, so that every later redemption of it answers 404.  When the
    fetch fails, the answer is 502 and the state, the token included, is
    left as it was. *)
Theorem cover_consumes_on_success now req imgRes σ e :
  coverTokens σ !! params_token req = Some e → now ≤ expiresAt e →
  let tok := params_token req in
  cover_start now req σ = (σ, Await (url e))
  ∧ (∀ σ1, let out := cover_resume req imgRes σ1 in
       if image_ok imgRes then
         status out.2 = 200
         ∧ out.1 = set_coverTokens (delete tok (coverTokens σ1)) σ1
         ∧ ∀ now' imgRes', cover now' req imgRes' out.1
             = (out.1, Response 404 (ErrorBody "Cover not found or already used."))
       else out = (σ1, Response 502 (ErrorBody "Failed to load album cover.")))
  ∧ cover now req imgRes σ = cover_resume req imgRes σ.
Proof.
  intros Hin Hle tok.
  assert (Hstart : cover_start now req σ = (σ, Await (url e))).
  { unfold cover_start. rewrite Hin.
    destruct (Z.gtb_spec now (expiresAt e)); [lia | reflexivity]. }
  split; [exact Hstart |]. split.
  - intros σ1 out. subst out. destruct (image_ok imgRes) eqn:Hok.
    + destruct imgRes as [m | [|] code ct [m | bytes]]; simpl in Hok; try discriminate.
      rewrite cover_resume_ok. simpl. split; [reflexivity |]. split; [reflexivity |].
      intros now' imgRes'. unfold cover, cover_start. simpl.
      fold tok. by rewrite lookup_delete_eq.
    + by apply cover_resume_failed.
  - unfold cover. by rewrite Hstart.
Qed.

(** C2 (amended) at a live token whose image is fetched. *)
Lemma cover_consumes_on_success_witness :
  let req := request_from alice JUndefined tokenA in
  coverTokens one_token !! params_token req = Some (Entry urlA (noon + 5 * 60 * 1000))
  ∧ noon ≤ noon + 5 * 60 * 1000
  ∧ status (cover noon req jpeg one_token).2 = 200
  ∧ coverTokens (cover noon req jpeg one_token).1 !! tokenA = None.
Proof.
  intros req.
  assert (Hin : coverTokens one_token !! params_token req
                = Some (Entry urlA (noon + 5 * 60 * 1000))) by reflexivity.
  assert (Hle : noon ≤ expiresAt (Entry urlA (noon + 5 * 60 * 1000))) by (simpl; lia).
  destruct (cover_consumes_on_success noon req jpeg one_token _ Hin Hle)
    as (_ & Hres & Heq).
  specialize (Hres one_token). change (image_ok jpeg) with true in Hres.
  cbv beta iota zeta in Hres. destruct Hres as (Hst & Hdel & _).
  split; [exact Hin |]. split; [exact Hle |]. rewrite Heq.
  split; [exact Hst |]. rewrite Hdel. apply lookup_delete_eq.
Defined.

(** ** Generation *)

Section GenerateProperties.
Context `{Platform}.

Lemma M_bind_ret {A B} (a : A) (k : A → M B) σ : (mret a ≫= k) σ = k a σ.
Proof. reflexivity. Qed.

Lemma M_bind_throw {A B} (e : exn) (k : A → M B) σ : (throw e ≫= k) σ = (σ, inl e).
Proof. reflexivity. Qed.

Lemma M_bind_modify {B} (f : state → state) (k : unit → M B) σ :
  (modify f ≫= k) σ = k tt (f σ).
Proof. reflexivity. Qed.

Lemma M_bind_gets {A B} (f : state → A) (k : A → M B) σ :
  (gets f ≫= k) σ = k (f σ) σ.
Proof. reflexivity. Qed.

Ltac M_simpl :=
  repeat first [ rewrite M_bind_ret | rewrite M_bind_throw
               | rewrite M_bind_modify | rewrite M_bind_gets ];
  cbn beta.

Lemma generate_try_spec p textRes token now σ :
  match generation p textRes now with
  | Some (tracklist, url) =>
      generate_try p textRes token now σ
      = (committed p token url now σ,
         inr (json (GenerateBody tracklist token
                      (Z.max 0 (DAILY_USER_LIMIT
                                - count_at (p_rec p) (committed p token url now σ)))
                      (Z.max 0 (DAILY_GLOBAL_LIMIT - (globalCount σ + 1))))))
  | None => ∃ e, generate_try p textRes token now σ = (σ, inl e)
  end.
Proof.
  unfold generate_try.
  destruct textRes as [m | [|] code [m | textData]]; cbn [negb].
  1, 2: unfold generation, content_of; cbn [mbind option_bind]; M_simpl; (eexists; reflexivity).
  2: { unfold generation, content_of; cbn [mbind option_bind].
       destruct (code =? 401); [| destruct (code =? 402)]; M_simpl; (eexists; reflexivity). }
  2: { unfold generation, content_of; cbn [mbind option_bind].
       destruct (code =? 401); [| destruct (code =? 402)]; M_simpl; (eexists; reflexivity). }
  rewrite M_bind_ret.
  destruct (get_prop textData (js "choices")) as [choices|] eqn:Hch; cbn [of_option].
  2: { unfold generation, content_of. rewrite Hch. cbn [mbind option_bind].
       M_simpl. (eexists; reflexivity). }
  M_simpl.
  destruct (opt_prop (js "content") (opt_prop (js "message") (index0 choices)))
    as [| | [|] | [| ? | ?] | [| c s] | items | fields] eqn:Hco; cbn [falsy];
    try (unfold generation, content_of; rewrite Hch; cbn [mbind option_bind];
         rewrite Hco; cbn [mbind option_bind]; M_simpl; eexists; reflexivity).
  unfold generation, content_of, tracks_listed. rewrite Hch. cbn [mbind option_bind].
  rewrite Hco. cbn [mbind option_bind]. M_simpl.
  destruct (JSON_parse _) as [tracklist|]; cbn [of_option mbind option_bind];
    M_simpl; [| eexists; reflexivity].
  destruct (get_prop tracklist (js "tracks")) as [[| | | | | [| t ts] |]|];
    cbn [of_option]; M_simpl; try (eexists; reflexivity).
  destruct (encodeURIComponent (buildImagePrompt _)) as [encPrompt|];
    cbn [of_option mbind option_bind]; M_simpl; [| eexists; reflexivity].
  destruct (encodeURIComponent (p_apiKey p)) as [encKey|];
    cbn [of_option mbind option_bind]; M_simpl; [| eexists; reflexivity].
  reflexivity.
Qed.

Lemma generate_resume_spec p textRes token now σ :
  match generation p textRes now with
  | Some (tracklist, url) =>
      generate_resume p textRes token now σ
      = (committed p token url now σ,
         json (GenerateBody tracklist token
                 (Z.max 0 (DAILY_USER_LIMIT
                           - count_at (p_rec p) (committed p token url now σ)))
                 (Z.max 0 (DAILY_GLOBAL_LIMIT - (globalCount σ + 1)))))
  | None => ∃ e, generate_resume p textRes token now σ
                 = (σ, Response 500 (FailureBody e))
  end.
Proof.
  pose proof (generate_try_spec p textRes token now σ) as Htry.
  unfold generate_resume, try_catch.
  destruct (generation p textRes now) as [[tracklist url0]|].
  - by rewrite Htry.
  - destruct Htry as [e ->]. by exists e.
Qed.

(** Either the first part of the handler suspends on the upstream call, all
    checks passed, or it answers with an error and nothing is awaited. *)
Lemma generate_start_spec today apiKey req σ :
  let ip := clientIp req in
  let pre := userRecord today ip (resetIfNewDay today σ) in
  let passes := globalCount pre.1 < 11 ∧ count_at pre.2 pre.1 < 2
                ∧ ¬ vibe_turned_down (body_vibe req)
                ∧ ∃ key, apiKey = Some key ∧ key ≠ [] in
  (∃ key, apiKey = Some key ∧ key ≠ [] ∧ passes
          ∧ generate_start today apiKey req σ
            = (pre.1, Await (Pending ip pre.2 (typeof_string_trim (body_vibe req)) key)))
  ∨ (¬ passes
     ∧ ∃ r, generate_start today apiKey req σ = (pre.1, Respond r)
            ∧ (status r = 429 ∨ status r = 400 ∨ status r = 500)
            ∧ reported_remaining r = []).
Proof.
  intros ip pre passes. subst passes pre. unfold generate_start. fold ip.
  destruct (userRecord today ip (resetIfNewDay today σ)) as [σ1 r]. simpl.
  unfold DAILY_GLOBAL_LIMIT, DAILY_USER_LIMIT.
  destruct (Z.geb_spec (globalCount σ1) 11) as [? | Hg].
  { right. split; [intros (? & _); lia |]. eexists. split; [reflexivity |]. split; [by left | reflexivity]. }
  destruct (Z.geb_spec (count_at r σ1) 2) as [? | Hu].
  { right. split; [intros (_ & ? & _); lia |]. eexists. split; [reflexivity |]. split; [by left | reflexivity]. }
  assert (Hdown : negb (truthy_str (typeof_string_trim (body_vibe req)))
                  || (600 <? length (typeof_string_trim (body_vibe req)))%nat = true
                  ↔ vibe_turned_down (body_vibe req)).
  { rewrite orb_true_iff, negb_true_iff, truthy_str_false, Nat.ltb_lt.
    unfold vibe_turned_down, typeof_string_trim.
    destruct (body_vibe req); simpl; tauto. }
  destruct (negb _ || _).
  { right. split; [intros (_ & _ & Hv & _); by apply Hv, Hdown |].
    eexists. split; [reflexivity |]. split; [right; by left | reflexivity]. }
  assert (Hv : ¬ vibe_turned_down (body_vibe req)).
  { intros Hv. apply Hdown in Hv. discriminate. }
  destruct apiKey as [[| c key] |]; simpl.
  - right. split; [intros (_ & _ & _ & k & [= <-] & Hk); by apply Hk |].
    eexists. split; [reflexivity |]. split; [right; by right | reflexivity].
  - left. exists (c :: key). repeat split; try done. by exists (c :: key).
  - right. split; [intros (_ & _ & _ & k & Hk & _); discriminate |].
    eexists. split; [reflexivity |]. split; [right; by right | reflexivity].
Qed.

(** Resumed on any state, the handler adds one to both counters on
    success and changes nothing on failure. *)
Lemma generate_resume_effect p textRes token now σr :
  let resumed := generate_resume p textRes token now σr in
  match generation p textRes now with
  | Some _ => status resumed.2 = 200
              ∧ globalCount resumed.1 = globalCount σr + 1
              ∧ recs resumed.1 !! p_rec p = incr_count <$> recs σr !! p_rec p
              ∧ users resumed.1 = users σr ∧ resetDate resumed.1 = resetDate σr
  | None => status resumed.2 = 500 ∧ resumed.1 = σr
  end.
Proof.
  intros resumed. subst resumed.
  pose proof (generate_resume_spec p textRes token now σr) as Hspec.
  destruct (generation p textRes now) as [[tracklist url0]|].
  - rewrite Hspec. simpl. repeat split; try reflexivity.
    by rewrite list_lookup_alter_eq.
  - destruct Hspec as [e ->]. by split.
Qed.

(** ** A record held across the wait *)

Lemma held_current_userRecord today ip r ip' σ :
  held_current today ip r σ → held_current today ip r (userRecord today ip' σ).1.
Proof.
  intros (Hd & Hu & rec & Hr & Hdate).
  destruct (decide (ip' = ip)) as [-> | Hne].
  - rewrite (userRecord_current _ _ _ _ _ Hu Hr Hdate). simpl.
    split; [exact Hd |]. split; [exact Hu |]. by exists rec.
  - destruct (userRecord today ip' σ) as [σ' r'] eqn:Hrec. simpl.
    apply userRecord_spec in Hrec as (_ & Hd' & _ & _ & _ & Hother & Hrecs).
    split; [by rewrite Hd' |]. split; [by rewrite Hother |].
    exists rec. split; [by apply Hrecs | exact Hdate].
Qed.

Lemma held_current_prelude today ip r ip' σ :
  held_current today ip r σ →
  held_current today ip r (userRecord today ip' (resetIfNewDay today σ)).1.
Proof.
  intros Hheld. rewrite (resetIfNewDay_same today σ) by apply Hheld.
  by apply held_current_userRecord.
Qed.

Lemma held_current_resume today ip r p textRes token now σ :
  held_current today ip r σ →
  held_current today ip r (generate_resume p textRes token now σ).1.
Proof.
  intros (Hd & Hu & rec & Hr & Hdate).
  pose proof (generate_resume_spec p textRes token now σ) as Hspec.
  destruct (generation p textRes now) as [[tracklist url0]|].
  - rewrite Hspec. unfold held_current, committed. simpl.
    split; [exact Hd |]. split; [exact Hu |].
    destruct (decide (p_rec p = r)) as [-> | Hne].
    + exists (incr_count rec). rewrite list_lookup_alter_eq, Hr. by split.
    + exists rec. rewrite list_lookup_alter_ne by done. by split.
  - destruct Hspec as [e ->]. simpl. split; [exact Hd |]. split; [exact Hu |]. by exists rec.
Qed.

Lemma held_current_vault today ip r σ tokens :
  held_current today ip r σ → held_current today ip r (set_coverTokens tokens σ).
Proof. intros Hheld. exact Hheld. Qed.

Lemma day_step_held today ip r σ σ' :
  held_current today ip r σ → day_step today σ σ' → held_current today ip r σ'.
Proof.
  intros Hheld Hstep. destruct Hstep.
  - rewrite status_handler_eq. simpl. by apply held_current_prelude.
  - destruct (generate_start_spec today apiKey req σ)
      as [(key & _ & _ & _ & Hstart) | (_ & resp & Hstart & _)];
      simpl in Hstart; rewrite Hstart; simpl; by apply held_current_prelude.
  - by apply held_current_resume.
  - unfold cover_start. destruct (coverTokens σ !! params_token req) as [e|]; [| done].
    destruct (now >? expiresAt e); [| done]. by apply held_current_vault.
  - destruct (image_ok imgRes) eqn:Hok.
    + destruct imgRes as [m | [|] code ct [m | bytes]]; simpl in Hok; try discriminate.
      rewrite cover_resume_ok. by apply held_current_vault.
    + by rewrite cover_resume_failed.
  - by apply held_current_vault.
Qed.

Lemma day_steps_held today ip r σ σ' :
  held_current today ip r σ → rtc (day_step today) σ σ' → held_current today ip r σ'.
Proof. intros Hheld Hsteps. induction Hsteps; eauto using day_step_held. Qed.

(** The record a generation waits with is the client's when the wait
    begins. *)
Lemma generate_start_held today apiKey req σ σ1 p :
  generate_start today apiKey req σ = (σ1, Await p) →
  p_ip p = clientIp req ∧ held_current today (clientIp req) (p_rec p) σ1.
Proof.
  intros Heq.
  destruct (generate_start_spec today apiKey req σ)
    as [(key & _ & _ & _ & Hstart) | (_ & resp & Hstart & _)];
    simpl in Hstart; rewrite Hstart in Heq; [| discriminate].
  injection Heq as <- <-. simpl. split; [reflexivity |].
  destruct (userRecord today (clientIp req) (resetIfNewDay today σ)) as [σ1 r] eqn:Hrec.
  simpl. apply userRecord_spec in Hrec as (_ & Hd & _ & Hu & Hr & _).
  split; [rewrite Hd; apply resetIfNewDay_date |]. split; [exact Hu |].
  eexists. split; [exact Hr | reflexivity].
Qed.

(** Resumed with its record still the client's, a generation that goes
    through adds one to the client's count in the ledger. *)
Lemma generate_resume_held today ip p textRes token now σ :
  held_current today ip (p_rec p) σ → is_Some (generation p textRes now) →
  ∃ c, client_count ip σ = Some c
       ∧ client_count ip (generate_resume p textRes token now σ).1 = Some (c + 1).
Proof.
  intros (_ & Hu & rec & Hr & _) [[tracklist url0] Hgen].
  pose proof (generate_resume_spec p textRes token now σ) as Hspec.
  rewrite Hgen in Hspec. rewrite Hspec. unfold client_count, committed. simpl.
  rewrite Hu. simpl. rewrite list_lookup_alter_eq, Hr. simpl.
  exists (count rec). by split.
Qed.

Lemma generation_listed p textRes now :
  is_Some (generation p textRes now)
  ↔ upstream_listed textRes
    ∧ is_Some (encodeURIComponent (buildImagePrompt (p_vibe p)))
    ∧ is_Some (encodeURIComponent (p_apiKey p)).
Proof.
  unfold generation, upstream_listed.
  destruct (content_of textRes) as [content |]; cbn [mbind option_bind].
  2: { split; [by intros [? ?] | by intros [(? & ? & ? & _) _]]. }
  destruct (JSON_parse _) as [tl |] eqn:Hparse; cbn [mbind option_bind].
  2: { split; [by intros [? ?] |]. intros [(c & t & [= <-] & Hp & _) _]. congruence. }
  destruct (tracks_listed tl) eqn:Htl.
  2: { split; [by intros [? ?] |]. intros [(c & t & [= <-] & Hp & Ht) _]. congruence. }
  destruct (encodeURIComponent (buildImagePrompt (p_vibe p))) as [ep |]; cbn [mbind option_bind].
  2: { split; [by intros [? ?] | by intros (_ & [? ?] & _)]. }
  destruct (encodeURIComponent (p_apiKey p)) as [ek |]; cbn [mbind option_bind].
  2: { split; [by intros [? ?] | by intros (_ & _ & [? ?])]. }
  split; [| by eexists]. intros _. split; [| by split; eexists].
  exists content, tl. by rewrite Hparse.
Qed.


Lemma fully_succeeds_listed today apiKey req textRes now σ :
  fully_succeeds today apiKey req textRes now σ
  ↔ listed_success today apiKey req textRes σ
    ∧ ∃ key, apiKey = Some key
        ∧ is_Some (encodeURIComponent
                     (buildImagePrompt (typeof_string_trim (body_vibe req))))
        ∧ is_Some (encodeURIComponent key).
Proof.
  unfold fully_succeeds, listed_success. cbn zeta.
  set (pre := userRecord today (clientIp req) (resetIfNewDay today σ)).
  split.
  - intros (Hg & Hu & Hv & key & Hk & Hne & Hgen).
    apply generation_listed in Hgen as (Hup & Hp & Hkey). cbn [p_vibe p_apiKey] in Hp, Hkey.
    split; [| by exists key]. repeat split; try done. by exists key.
  - intros [(Hg & Hu & Hv & (key & Hk & Hne) & Hup) (key' & Hk' & Hp & Hkey)].
    repeat split; try done. exists key. split; [exact Hk |]. split; [exact Hne |].
    apply generation_listed. cbn [p_vibe p_apiKey]. split; [exact Hup |]. split; [exact Hp |].
    congruence.
Qed.

(** What the start of the handler does when it answers at once. *)
Lemma generate_start_responds today apiKey req σ σ1 r :
  generate_start today apiKey req σ = (σ1, Respond r) →
  σ1 = (userRecord today (clientIp req) (resetIfNewDay today σ)).1
  ∧ (status r = 429 ∨ status r = 400 ∨ status r = 500).
Proof.
  intros Heq.
  destruct (generate_start_spec today apiKey req σ)
    as [(key & _ & _ & _ & Hstart) | (_ & resp & Hstart & Hst & _)];
    simpl in Hstart; rewrite Hstart in Heq; [discriminate |].
  injection Heq as <- <-. by split.
Qed.

(** A request that no other request is served during: from the state the
    lazy prelude (day-reset, the client's record) leaves, both counters go
    up by one when the generation fully succeeds, and the state is exactly
    as the prelude left it on every other path.  Resumed on any state, the
    handler adds one to globalCount and to the count of the record it holds
    on success, and changes nothing on failure. *)
Lemma generate_counters today apiKey req textRes token now σ :
  let ip := clientIp req in
  let σ0 := resetIfNewDay today σ in
  let pre := userRecord today ip σ0 in
  let out := generate today apiKey req textRes token now σ in
  globalCount pre.1 = globalCount σ0
  ∧ client_count ip pre.1 = Some (used_today today ip σ0)
  ∧ (resetDate σ = today → is_Some (current_record today ip σ) → pre.1 = σ)
  ∧ (status out.2 = 200 ↔ fully_succeeds today apiKey req textRes now σ)
  ∧ (fully_succeeds today apiKey req textRes now σ →
       globalCount out.1 = globalCount pre.1 + 1
       ∧ client_count ip out.1 = Some (used_today today ip σ0 + 1))
  ∧ (¬ fully_succeeds today apiKey req textRes now σ →
       out.1 = pre.1
       ∧ (status out.2 = 429 ∨ status out.2 = 400 ∨ status out.2 = 500))
  ∧ (globalCount out.1 = globalCount pre.1 + 1
     ↔ fully_succeeds today apiKey req textRes now σ)
  ∧ (∀ p σr, let resumed := generate_resume p textRes token now σr in
       match generation p textRes now with
       | Some _ => status resumed.2 = 200
                   ∧ globalCount resumed.1 = globalCount σr + 1
                   ∧ recs resumed.1 !! p_rec p = incr_count <$> recs σr !! p_rec p
                   ∧ users resumed.1 = users σr ∧ resetDate resumed.1 = resetDate σr
       | None => status resumed.2 = 500 ∧ resumed.1 = σr
       end).
Proof.
  intros ip σ0 pre out.
  assert (Hidle : resetDate σ = today → is_Some (current_record today ip σ) → pre.1 = σ).
  { intros Hd [rec Hcur]. subst pre σ0. rewrite (resetIfNewDay_same _ _ Hd).
    destruct (current_record_Some _ _ _ _ Hcur) as (r0 & Hu0 & Hr0 & Hd0).
    by rewrite (userRecord_current _ _ _ _ _ Hu0 Hr0 Hd0). }
  destruct (userRecord today ip σ0) as [σ1 r] eqn:Hrec.
  pose proof (userRecord_spec _ _ _ _ _ Hrec) as (Hg & _ & _ & Hu & Hr & _).
  assert (Hcount : client_count ip σ1 = Some (used_today today ip σ0)).
  { unfold client_count. rewrite Hu. simpl. by rewrite Hr. }
  split; [exact Hg |]. split; [exact Hcount |]. split; [exact Hidle |]. clear Hidle.
  assert (Hcases :
    (fully_succeeds today apiKey req textRes now σ
     ∧ status out.2 = 200
     ∧ globalCount out.1 = globalCount σ1 + 1
     ∧ client_count ip out.1 = Some (used_today today ip σ0 + 1))
    ∨ (¬ fully_succeeds today apiKey req textRes now σ
       ∧ out.1 = σ1
       ∧ (status out.2 = 429 ∨ status out.2 = 400 ∨ status out.2 = 500))).
  { pose proof (generate_start_spec today apiKey req σ) as Hstart.
    subst out. unfold generate, fully_succeeds. simpl in Hstart.
    fold ip σ0 in Hstart |- *. subst pre. rewrite Hrec in Hstart |- *.
    simpl in Hstart |- *.
    destruct Hstart as [(key & -> & Hkey & Hpass & ->) | (Hno & resp & -> & Hst & _)].
    - set (p := Pending ip r (typeof_string_trim (body_vibe req)) key).
      pose proof (generate_resume_effect p textRes token now σ1) as Heff.
      simpl in Heff. destruct Hpass as (Hgl & Hul & Hv & _).
      destruct (generation p textRes now) as [[tracklist url0]|] eqn:Hgen.
      + destruct Heff as (Hst & Hgc & Hrc & Hus & _). left.
        split; [| split; [exact Hst | split; [exact Hgc |]]].
        * repeat split; try done.
          exists key. split; [reflexivity |]. split; [exact Hkey |].
          fold p. by rewrite Hgen.
        * unfold client_count. rewrite Hus, Hu. simpl. rewrite Hrc, Hr. reflexivity.
      + destruct Heff as (Hst & Hsame). right.
        split; [| split; [exact Hsame | by right; right]].
        intros (_ & _ & _ & key' & [= <-] & _ & Hgen').
        fold p in Hgen'. rewrite Hgen in Hgen'. by destruct Hgen'.
    - simpl. right. split; [| split; [reflexivity | exact Hst]].
      intros (Hgl & Hul & Hv & key & Hk & Hk' & _). destruct Hno. eauto 10. }
  subst pre. simpl.
  split; [| split; [| split; [| split;
    [| exact (λ p' σr, generate_resume_effect p' textRes token now σr)]]]].
  - destruct Hcases as [(Hf & Hst & _) | (Hf & _ & Hst)]; split; try done.
    intros H200. exfalso. lia.
  - intros Hf. destruct Hcases as [(_ & _ & Hgc & Hcc) | (Hnf & _)]; [done | contradiction].
  - intros Hnf. destruct Hcases as [(Hf & _) | (_ & Hsame & Hst)]; [contradiction | done].
  - destruct Hcases as [(Hf & _ & Hgc & _) | (Hnf & Hsame & _)]; split; try done.
    rewrite Hsame. intros Heq. exfalso. lia.
Qed.

(** C1 (amended). For every request to POST generate: when no limit is
    reached, the input is valid, the credential is set, the upstream call
    is OK, the payload parses as JSON with a non-empty tracks list and the
    cover URL can be written (encodeURIComponent does not throw), the
    answer is a success and globalCount and the count of the record the
    handler took for the client are each incremented by exactly one; that
    record is the client's entry in the ledger, so that the client's count
    goes up by one, when no request is served during the upstream call and
    also when every request served in the meantime is of the same day.  On
    every other path (quota denial, validation failure, missing credential,
    upstream failure, parse failure, empty tracklist, cover URL that cannot
    be written) the answer is 429, 400 or 500 and both counters are left
    unchanged: the state is as the prelude left it, or as it was when the
    handler resumed. *)
Theorem quota_consumed_iff_success today apiKey req textRes token now σ :
  let ip := clientIp req in
  let σ0 := resetIfNewDay today σ in
  let pre := userRecord today ip σ0 in
  let out := generate today apiKey req textRes token now σ in
  globalCount pre.1 = globalCount σ0
  ∧ client_count ip pre.1 = Some (used_today today ip σ0)
  ∧ (resetDate σ = today → is_Some (current_record today ip σ) → pre.1 = σ)
  ∧ (status out.2 = 200 ↔ fully_succeeds today apiKey req textRes now σ)
  ∧ (fully_succeeds today apiKey req textRes now σ →
       globalCount out.1 = globalCount pre.1 + 1
       ∧ client_count ip out.1 = Some (used_today today ip σ0 + 1))
  ∧ (¬ fully_succeeds today apiKey req textRes now σ →
       out.1 = pre.1
       ∧ (status out.2 = 429 ∨ status out.2 = 400 ∨ status out.2 = 500))
  ∧ (globalCount out.1 = globalCount pre.1 + 1
     ↔ fully_succeeds today apiKey req textRes now σ)
  ∧ (fully_succeeds today apiKey req textRes now σ
     ↔ listed_success today apiKey req textRes σ
       ∧ ∃ key, apiKey = Some key
           ∧ is_Some (encodeURIComponent
                        (buildImagePrompt (typeof_string_trim (body_vibe req))))
           ∧ is_Some (encodeURIComponent key))
  ∧ (∀ p, is_Some (generation p textRes now)
          ↔ upstream_listed textRes
            ∧ is_Some (encodeURIComponent (buildImagePrompt (p_vibe p)))
            ∧ is_Some (encodeURIComponent (p_apiKey p)))
  ∧ (∀ σ1 r, generate_start today apiKey req σ = (σ1, Respond r) →
       σ1 = pre.1 ∧ (status r = 429 ∨ status r = 400 ∨ status r = 500))
  ∧ (∀ σ1 p σr,
       generate_start today apiKey req σ = (σ1, Await p) →
       rtc (day_step today) σ1 σr →
       let resumed := generate_resume p textRes token now σr in
       (is_Some (generation p textRes now) →
          status resumed.2 = 200
          ∧ globalCount resumed.1 = globalCount σr + 1
          ∧ ∃ c, client_count ip σr = Some c
                 ∧ client_count ip resumed.1 = Some (c + 1))
       ∧ (generation p textRes now = None →
          status resumed.2 = 500 ∧ resumed.1 = σr))
  ∧ (∀ p σr, let resumed := generate_resume p textRes token now σr in
       match generation p textRes now with
       | Some _ => status resumed.2 = 200
                   ∧ globalCount resumed.1 = globalCount σr + 1
                   ∧ recs resumed.1 !! p_rec p = incr_count <$> recs σr !! p_rec p
                   ∧ users resumed.1 = users σr ∧ resetDate resumed.1 = resetDate σr
       | None => status resumed.2 = 500 ∧ resumed.1 = σr
       end).
Proof.
  intros ip σ0 pre out.
  destruct (generate_counters today apiKey req textRes token now σ)
    as (H1 & H2 & H3 & H4 & H5 & H6 & H7 & H8).
  split; [exact H1 |]. split; [exact H2 |]. split; [exact H3 |]. split; [exact H4 |].
  split; [exact H5 |]. split; [exact H6 |]. split; [exact H7 |].
  split; [apply fully_succeeds_listed |].
  split; [intros p; apply generation_listed |].
  split; [intros σ1 r; apply generate_start_responds |].
  split; [| exact H8].
  intros σ1 p σr Hstart Hsteps resumed. subst resumed.
  destruct (generate_start_held _ _ _ _ _ _ Hstart) as [_ Hheld].
  pose proof (day_steps_held _ _ _ _ _ Hheld Hsteps) as Hheld'.
  pose proof (generate_resume_effect p textRes token now σr) as Heff. cbn zeta in Heff.
  split.
  - intros Hgen.
    destruct (generate_resume_held today ip p textRes token now σr Hheld' Hgen)
      as (c & Hc & Hc').
    destruct Hgen as [g Hgen]. rewrite Hgen in Heff. destruct Heff as (Hst & Hg & _).
    split; [exact Hst |]. split; [exact Hg |]. by exists c.
  - intros Hgen. by rewrite Hgen in Heff.
Qed.

(** C10. In every state, whatever the stored counters are, also above
    their limits, the remaining values that GET status reports and those
    that a successful POST generate reports are never negative: each is
    the limit minus the counter clamped at zero, hence zero as soon as the
    counter is at or over its limit.  Error responses report no remaining
    value. *)
Theorem remaining_clamped σ :
  (∀ today req, let out := status_handler today req σ in
     ∃ g u, reported_remaining out.2 = [g; u] ∧ 0 ≤ g ∧ 0 ≤ u
            ∧ (11 ≤ globalCount out.1 → g = 0)
            ∧ (∀ c, client_count (clientIp req) out.1 = Some c → 2 ≤ c → u = 0))
  ∧ (∀ p textRes token now, let out := generate_resume p textRes token now σ in
     match generation p textRes now with
     | Some _ => ∃ u g, reported_remaining out.2 = [u; g] ∧ 0 ≤ u ∧ 0 ≤ g
                        ∧ (11 ≤ globalCount out.1 → g = 0)
                        ∧ (2 ≤ count_at (p_rec p) out.1 → u = 0)
     | None => reported_remaining out.2 = []
     end)
  ∧ (∀ today apiKey req textRes token now,
       Forall (Z.le 0)
         (reported_remaining (generate today apiKey req textRes token now σ).2)).
Proof.
  assert (Hresume : ∀ p textRes token now σr,
            Forall (Z.le 0) (reported_remaining (generate_resume p textRes token now σr).2)).
  { intros p textRes token now σr.
    pose proof (generate_resume_spec p textRes token now σr) as Hspec.
    destruct (generation p textRes now) as [[tracklist url0]|].
    - rewrite Hspec. simpl. repeat constructor; lia.
    - destruct Hspec as [e ->]. constructor. }
  split; [| split].
  - intros today req out. subst out. rewrite status_handler_eq. simpl.
    destruct (userRecord today (clientIp req) (resetIfNewDay today σ)) as [σ1 r] eqn:Hrec.
    pose proof (userRecord_spec _ _ _ _ _ Hrec) as (_ & _ & _ & Hu & Hr & _).
    simpl. eexists _, _. split; [reflexivity |].
    unfold DAILY_GLOBAL_LIMIT, DAILY_USER_LIMIT.
    split; [lia |]. split; [lia |]. split; [lia |].
    intros c Hc Hle. unfold client_count in Hc. rewrite Hu in Hc. simpl in Hc.
    unfold count_at. rewrite Hr in Hc |- *. simpl in Hc |- *. injection Hc as <-. lia.
  - intros p textRes token now out. subst out.
    pose proof (generate_resume_spec p textRes token now σ) as Hspec.
    destruct (generation p textRes now) as [[tracklist url0]|].
    + rewrite Hspec. simpl. eexists _, _. split; [reflexivity |].
      unfold DAILY_GLOBAL_LIMIT, DAILY_USER_LIMIT. repeat split; lia.
    + by destruct Hspec as [e ->].
  - intros today apiKey req textRes token now. unfold generate.
    pose proof (generate_start_spec today apiKey req σ) as Hstart. simpl in Hstart.
    destruct Hstart as [(key & _ & _ & _ & ->) | (_ & resp & -> & _ & Hnone)].
    + apply Hresume.
    + simpl. rewrite Hnone. constructor.
Qed.

End GenerateProperties.

(** C1 (as stated, refuted).  Two requests whose generation succeeds as
    the claim lists it (no limit reached, valid input, credential set,
    upstream call OK, payload parsed, tracks listed) and which do not add
    one to both counters.  In the first the vibe ends in half a surrogate
    pair: encodeURIComponent throws, the answer is a 500 and globalCount
    stays 0.  In the second [bob] asks for the status on [day2] while
    [alice]'s generation of [day1] waits: the ledger is reset, the
    generation answers 200 and adds one to globalCount and to the record
    it holds, which is no longer in the ledger, so that [alice]'s count in
    the ledger is not incremented. *)
Lemma success_not_charged :
  let lone := request_from alice (JStr half_pair) [] in
  let tracks := completion (JStr sample_json) in
  (@listed_success sample_platform day1 (Some sample_key) lone tracks (initial day1)
   ∧ ¬ @counters_as_stated sample_platform day1 (Some sample_key) lone tracks tokenA noon
         (λ σ, σ) (initial day1))
  ∧ (@listed_success sample_platform day1 (Some sample_key) rainy tracks (initial day1)
     ∧ ¬ @counters_as_stated sample_platform day1 (Some sample_key) rainy tracks tokenA noon
           bob_next_day (initial day1)).
Proof.
  intros lone tracks.
  assert (Hup : @upstream_listed sample_platform tracks).
  { exists sample_json, sample_tracklist. repeat split; vm_compute; reflexivity. }
  assert (Hlone : @listed_success sample_platform day1 (Some sample_key) lone tracks
                    (initial day1)).
  { split; [by vm_compute |]. split; [by vm_compute |].
    split; [| split; [| exact Hup]].
    - intros [Hv | Hv]; vm_compute in Hv; [discriminate | lia].
    - exists sample_key. by split. }
  assert (Hrainy : @listed_success sample_platform day1 (Some sample_key) rainy tracks
                     (initial day1)).
  { split; [by vm_compute |]. split; [by vm_compute |].
    split; [| split; [| exact Hup]].
    - intros [Hv | Hv]; vm_compute in Hv; [discriminate | lia].
    - exists sample_key. by split. }
  split; (split; [assumption |]).
  - intros [Hyes _]. destruct (Hyes Hlone) as [Hg _]. vm_compute in Hg. discriminate.
  - intros [Hyes _]. destruct (Hyes Hrainy) as [_ Hc]. vm_compute in Hc. discriminate.
Qed.

(** [bob]'s generation, served on [day1] while [alice]'s waits. *)
Lemma bob_charged_day :
  rtc (@day_step sample_platform day1) (st alice_waiting) bob_charged.
Proof.
  eapply rtc_l;
    [exact (@day_generate_start sample_platform day1 (st alice_waiting)
              (Some sample_key) rainy_bob) |].
  apply rtc_once.
  exact (@day_generate_resume sample_platform day1 _ bob_pending
           (completion (JStr sample_json)) tokenB noon).
Qed.

(** C1 at [alice]'s generation, resumed after [bob]'s was served on the
    same day: her count in the ledger goes from 0 to 1 and globalCount
    from 1 to 2. *)
Lemma quota_consumed_iff_success_witness :
  let out := @generate_resume sample_platform alice_pending (completion (JStr sample_json))
               tokenA noon bob_charged in
  status out.2 = 200
  ∧ globalCount bob_charged = 1 ∧ globalCount out.1 = 2
  ∧ client_count alice bob_charged = Some 0 ∧ client_count alice out.1 = Some 1.
Proof.
  intros out.
  assert (Hstart : generate_start day1 (Some sample_key) rainy (initial day1)
                   = (st alice_waiting, Await alice_pending)) by (vm_compute; reflexivity).
  assert (Hgen : is_Some (@generation sample_platform alice_pending
                            (completion (JStr sample_json)) noon))
    by (vm_compute; eexists; reflexivity).
  destruct (@quota_consumed_iff_success sample_platform day1 (Some sample_key) rainy
              (completion (JStr sample_json)) tokenA noon (initial day1))
    as (_ & _ & _ & _ & _ & _ & _ & _ & _ & _ & Hday & _).
  destruct (proj1 (Hday (st alice_waiting) alice_pending bob_charged Hstart bob_charged_day)
              Hgen) as (Hst & Hg & c & Hc & Hc').
  fold out in Hst, Hg, Hc'.
  change (client_count alice bob_charged = Some c) in Hc.
  change (client_count alice out.1 = Some (c + 1)) in Hc'.
  assert (Hg0 : globalCount bob_charged = 1) by reflexivity.
  assert (Hc0 : client_count alice bob_charged = Some 0) by (vm_compute; reflexivity).
  split; [exact Hst |]. split; [exact Hg0 |]. split; [by rewrite Hg, Hg0 |].
  split; [exact Hc0 |]. rewrite Hc0 in Hc. injection Hc as <-. exact Hc'.
Defined.


(** ** The handlers at work *)

Example uri_encode_ascii : uri_encode (js "neon rain, 4k") = Some (js "neon%20rain%2C%204k").
Proof. reflexivity. Qed.

Example uri_encode_pair :
  uri_encode [55357; 56832]%N = Some (js "%F0%9F%98%80")
  ∧ uri_encode [55357]%N = None.
Proof. split; reflexivity. Qed.

(** A first generation by [bob] late on [day1] goes through: both counters
    go up by one and a token is stored for five minutes. *)
Example generate_goes_through :
  let req := request_from bob (JStr (js " rainy neon city ")) [] in
  let out := @generate sample_platform day1 (Some sample_key) req
               (completion (JStr sample_json)) tokenB noon busy_day in
  status out.2 = 200
  ∧ reported_remaining out.2 = [1; 3]
  ∧ globalCount out.1 = 8
  ∧ client_count bob out.1 = Some 1
  ∧ client_count alice out.1 = Some 2
  ∧ (expiresAt <$> coverTokens out.1 !! tokenB) = Some (noon + 300000).
Proof. vm_compute. repeat split; reflexivity. Qed.

(** The same request with an unparseable answer costs nothing. *)
Example generate_unparseable :
  let req := request_from bob (JStr (js " rainy neon city ")) [] in
  let out := @generate sample_platform day1 (Some sample_key) req
               (completion (JStr (js "Sorry, no tracks today."))) tokenB noon busy_day in
  out.2 = Response 500 (FailureBody (Error "AI returned unparseable data — please try again"))
  ∧ out.1 = (userRecord day1 bob busy_day).1
  ∧ globalCount out.1 = 7 ∧ client_count bob out.1 = Some 0.
Proof. vm_compute. repeat split; reflexivity. Qed.

(** ** References stay live *)

Lemma userRecord_live today ip σ :
  wf_state σ →
  let pre := userRecord today ip σ in
  wf_state pre.1 ∧ (pre.2 < length (recs pre.1))%nat
  ∧ (length (recs σ) ≤ length (recs pre.1))%nat.
Proof.
  intros Hwf pre. subst pre. split; [by apply userRecord_wf |].
  destruct (current_record today ip σ) as [rec|] eqn:Hcur.
  - destruct (current_record_Some _ _ _ _ Hcur) as (r0 & Hu & Hr & Hd).
    rewrite (userRecord_current _ _ _ _ _ Hu Hr Hd). simpl.
    split; [by eapply Hwf | lia].
  - rewrite (userRecord_fresh _ _ _ Hcur). unfold new_record. simpl.
    rewrite length_app. simpl. lia.
Qed.

Lemma prelude_live today ip σ :
  wf_state σ →
  let pre := userRecord today ip (resetIfNewDay today σ) in
  wf_state pre.1 ∧ (pre.2 < length (recs pre.1))%nat
  ∧ (length (recs σ) ≤ length (recs pre.1))%nat.
Proof.
  intros Hwf pre. subst pre.
  destruct (userRecord_live today ip (resetIfNewDay today σ)) as (Hwf' & Hlt & Hle).
  { by apply resetIfNewDay_wf. }
  destruct (resetIfNewDay_frame today σ) as [Hrecs _]. rewrite Hrecs in Hle. done.
Qed.

Lemma awaiting_live_mono (ps : list pending) σ σ' :
  (length (recs σ) ≤ length (recs σ'))%nat →
  Forall (λ p, (p_rec p < length (recs σ))%nat) ps →
  Forall (λ p, (p_rec p < length (recs σ'))%nat) ps.
Proof.
  intros Hle Hps. eapply Forall_impl; [exact Hps |].
  intros p Hp. simpl in *. lia.
Qed.

Section ServerInvariant.
Context `{Platform}.

Lemma generate_resume_frame p textRes token now σ :
  let σ' := (generate_resume p textRes token now σ).1 in
  users σ' = users σ ∧ length (recs σ') = length (recs σ).
Proof.
  intros σ'. subst σ'.
  pose proof (generate_resume_spec p textRes token now σ) as Hspec.
  destruct (generation p textRes now) as [[tracklist url0]|].
  - rewrite Hspec. simpl. split; [reflexivity | apply length_alter].
  - by destruct Hspec as [e ->].
Qed.

Lemma server_step_refs_live c c' : refs_live c → server_step c c' → refs_live c'.
Proof.
  unfold refs_live. intros [Hwf Hps] Hstep.
  destruct Hstep; cbn [st awaiting_text awaiting_image] in *.
  - rewrite status_handler_eq. simpl.
    destruct (prelude_live today (clientIp req) σ Hwf) as (Hwf' & _ & Hle).
    split; [exact Hwf' | by eapply awaiting_live_mono].
  - destruct (prelude_live today (clientIp req) σ Hwf) as (Hwf' & _ & Hle).
    destruct (generate_start_spec today apiKey req σ)
      as [(key & _ & _ & _ & Heq) | (_ & r' & Heq & _)]; simpl in Heq;
      rewrite Heq in *; simplify_eq.
    split; [exact Hwf' | by eapply awaiting_live_mono].
  - destruct (prelude_live today (clientIp req) σ Hwf) as (Hwf' & Hlt & Hle).
    destruct (generate_start_spec today apiKey req σ)
      as [(key & _ & _ & _ & Heq) | (_ & r' & Heq & _)]; simpl in Heq;
      rewrite Heq in *; simplify_eq.
    split; [exact Hwf' |]. constructor; [exact Hlt | by eapply awaiting_live_mono].
  - destruct (generate_resume_frame p textRes token now σ) as [Hu Hlen].
    split.
    + intros ip r. rewrite Hu, Hlen. apply Hwf.
    + apply Forall_app in Hps as [Hps1 Hps2]. apply Forall_cons in Hps2 as [_ Hps2].
      apply Forall_app. split; eapply awaiting_live_mono; try eassumption; lia.
  - unfold cover_start in *. repeat case_match; simplify_eq; by split.
  - unfold cover_start in *. repeat case_match; simplify_eq; by split.
  - assert (Hframe : users (cover_resume req imgRes σ).1 = users σ
                     ∧ recs (cover_resume req imgRes σ).1 = recs σ).
    { destruct (image_ok imgRes) eqn:Hok.
      - destruct imgRes as [m | [|] code ct [m | bytes]]; simpl in Hok; try discriminate.
        by rewrite cover_resume_ok.
      - by rewrite cover_resume_failed. }
    destruct Hframe as [Hu Hr]. split.
    + intros ip r. rewrite Hu, Hr. apply Hwf.
    + by rewrite Hr.
  - by split.
Qed.

(** In every configuration the server can reach, each reference held by the
    [users] map or by a waiting handler points to a record: [userRecord]
    never meets a dangling reference, and [rec.count++] always finds its
    record. *)
Theorem reachable_refs_live today c : reachable today c → refs_live c.
Proof.
  unfold reachable. revert c. apply rtc_ind_r.
  - split; [| constructor]. intros ip r. simpl. by rewrite lookup_empty.
  - intros c c' _ Hstep Hlive. by eapply server_step_refs_live.
Qed.

End ServerInvariant.

(** Three generations of one client that wait for the text API at the same
    time all pass the limit checks; once they have all come back the
    client's count is 3, above the limit of 2, and GET status reports a
    remaining quota of 0 for it. *)
Example over_limit_reachable :
  let req := request_from alice (JStr (js "rainy neon city")) [] in
  ∃ c, @reachable sample_platform day1 c
       ∧ awaiting_text c = []
       ∧ globalCount (st c) = 3
       ∧ client_count alice (st c) = Some 3
       ∧ (status_handler day1 req (st c)).2 = json (StatusBody 8 0 11 2 "midnight UTC").
Proof.
  intros req. eexists. split.
  - unfold reachable.
    eapply rtc_l.
    { eapply (step_generate_await day1 (Some sample_key) req). vm_compute. reflexivity. }
    eapply rtc_l.
    { eapply (step_generate_await day1 (Some sample_key) req). vm_compute. reflexivity. }
    eapply rtc_l.
    { eapply (step_generate_await day1 (Some sample_key) req). vm_compute. reflexivity. }
    eapply rtc_l.
    { eapply (step_generate_resume _ (completion (JStr sample_json)) tokenA noon _ []). }
    eapply rtc_l.
    { eapply (step_generate_resume _ (completion (JStr sample_json)) tokenB noon _ []). }
    eapply rtc_l.
    { eapply (step_generate_resume _ (completion (JStr sample_json)) tokenA (noon + 1) _ []). }
    apply rtc_refl.
  - vm_compute. repeat split; reflexivity.
Qed.

(** * Further properties of the server *)

(** ** [trim] and [clientIp] *)

Lemma rev_reverse {A} (l : list A) : rev l = reverse l.
Proof. apply rev_alt. Qed.

Lemma trimStart_head s c : head (trimStart s) = Some c → isWhiteSpace c = false.
Proof.
  induction s as [| a s IH]; simpl; [discriminate |].
  destruct (isWhiteSpace a) eqn:Ha; [exact IH |]. simpl. by intros [= <-].
Qed.

Lemma trimStart_fix s :
  (∀ c, head s = Some c → isWhiteSpace c = false) → trimStart s = s.
Proof.
  destruct s as [| a s]; [reflexivity |]. intros Hh. simpl.
  by rewrite (Hh a eq_refl).
Qed.

(** [trimStart] takes a prefix away, so what it keeps ends as the string
    did. *)
Lemma trimStart_suffix s : ∃ ws, s = ws ++ trimStart s.
Proof.
  induction s as [| a s [ws IH]]; simpl; [by exists [] |].
  destruct (isWhiteSpace a); [| by exists []].
  exists (a :: ws). simpl. by rewrite <- IH.
Qed.

Lemma trimStart_last s c :
  last s = Some c → isWhiteSpace c = false → last (trimStart s) = Some c.
Proof.
  induction s as [| a s IH]; simpl; [discriminate |]. intros Hl Hc.
  destruct (isWhiteSpace a) eqn:Ha; [| exact Hl].
  destruct s as [| b s]; simpl in Hl.
  - injection Hl as ->. congruence.
  - apply IH; [exact Hl | exact Hc].
Qed.

Lemma trim_trimmed s : trimmed (trim s).
Proof.
  unfold trimmed, trim, trimEnd. rewrite !rev_reverse. split; intros c.
  - rewrite head_reverse. intros Hl.
    destruct (trimStart s) as [| a t] eqn:Ht; [discriminate |].
    assert (Ha : isWhiteSpace a = false).
    { apply (trimStart_head s). by rewrite Ht. }
    assert (Hla : last (trimStart (reverse (a :: t))) = Some a).
    { apply trimStart_last; [| exact Ha]. by rewrite last_reverse. }
    congruence.
  - rewrite last_reverse. apply trimStart_head.
Qed.

Lemma trim_fix s : trimmed s → trim s = s.
Proof.
  intros [Hh Hl]. unfold trim, trimEnd. rewrite (trimStart_fix s Hh).
  rewrite !rev_reverse, trimStart_fix, reverse_involutive; [reflexivity |].
  intros c. rewrite head_reverse. apply Hl.
Qed.

Lemma trim_idem s : trim (trim s) = trim s.
Proof. apply trim_fix, trim_trimmed. Qed.

Lemma trimStart_elem_of s c : c ∈ trimStart s → c ∈ s.
Proof.
  destruct (trimStart_suffix s) as [ws Hws]. intros Hc.
  rewrite Hws. apply elem_of_app. by right.
Qed.

Lemma trim_elem_of s c : c ∈ trim s → c ∈ s.
Proof.
  unfold trim, trimEnd. rewrite !rev_reverse. intros Hc.
  rewrite elem_of_reverse in Hc. apply trimStart_elem_of in Hc.
  rewrite elem_of_reverse in Hc. by apply trimStart_elem_of in Hc.
Qed.

Lemma split_comma_head_no_comma s : 44%N ∉ split_comma_head s.
Proof.
  induction s as [| c s IH]; simpl; [apply not_elem_of_nil |].
  destruct (N.eqb_spec c 44); [apply not_elem_of_nil |].
  apply not_elem_of_cons. split; [congruence | exact IH].
Qed.

(** X1. When the request carries a non-empty X-Forwarded-For header, the
    client address is the first entry of the header with the white space
    around it removed: it holds no comma, has no white space at either end,
    and does not depend on anything else in the request (the transport
    address included). *)
Theorem clientIp_forwarded req forwarded :
  x_forwarded_for req = Some forwarded → forwarded ≠ [] →
  clientIp req = trim (split_comma_head forwarded)
  ∧ (44%N ∉ clientIp req)
  ∧ trimmed (clientIp req)
  ∧ ∀ req', x_forwarded_for req' = Some forwarded → clientIp req' = clientIp req.
Proof.
  intros Hf Hne.
  assert (Hip : ∀ r, x_forwarded_for r = Some forwarded →
                     clientIp r = trim (split_comma_head forwarded)).
  { intros r Hr. unfold clientIp. rewrite Hr. by destruct forwarded. }
  rewrite (Hip req Hf). split; [reflexivity |]. split; [| split].
  - intros Hc. apply trim_elem_of in Hc. by apply split_comma_head_no_comma in Hc.
  - apply trim_trimmed.
  - intros req' Hf'. by apply Hip.
Qed.

(** X1 at a header with two hops and padding. *)
Lemma clientIp_forwarded_witness :
  let req := Request (Some (js "  203.0.113.7 , 10.0.0.1")) (Some (js "10.0.0.1")) None
                     JUndefined [] in
  x_forwarded_for req = Some (js "  203.0.113.7 , 10.0.0.1")
  ∧ js "  203.0.113.7 , 10.0.0.1" ≠ []
  ∧ clientIp req = js "203.0.113.7".
Proof.
  intros req.
  assert (Hf : x_forwarded_for req = Some (js "  203.0.113.7 , 10.0.0.1")) by reflexivity.
  assert (Hne : js "  203.0.113.7 , 10.0.0.1" ≠ []) by discriminate.
  split; [exact Hf |]. split; [exact Hne |].
  destruct (clientIp_forwarded req _ Hf Hne) as (-> & _). reflexivity.
Defined.

(** X2. Without an X-Forwarded-For header (absent or empty) the client
    address is never empty: it is [req.ip] when that is a non-empty string,
    else the socket's remote address when that is one, else "unknown". *)
Theorem clientIp_fallback req :
  x_forwarded_for req = None ∨ x_forwarded_for req = Some [] →
  clientIp req ≠ []
  ∧ (∀ ip, req_ip req = Some ip → ip ≠ [] → clientIp req = ip)
  ∧ (req_ip req = None ∨ req_ip req = Some [] →
     ∀ a, remoteAddress req = Some a → a ≠ [] → clientIp req = a)
  ∧ (req_ip req = None ∨ req_ip req = Some [] →
     remoteAddress req = None ∨ remoteAddress req = Some [] →
     clientIp req = js "unknown").
Proof.
  intros Hf.
  assert (Hip : clientIp req
                = or_else (req_ip req) (or_else (remoteAddress req) (js "unknown"))).
  { unfold clientIp. by destruct Hf as [-> | ->]. }
  rewrite Hip. unfold or_else.
  destruct (req_ip req) as [[| c ip] |]; destruct (remoteAddress req) as [[| d a] |];
    simpl; (split; [by vm_compute |]); repeat split;
    try (intros ? [= <-] ?; done); try (intros [? | ?] ? [= <-] ?; done);
    try (intros [? | ?] [? | ?]; done); try done.
Qed.

(** X2 at a request with nothing to go by. *)
Lemma clientIp_fallback_witness :
  let req := Request None None None JUndefined [] in
  (x_forwarded_for req = None ∨ x_forwarded_for req = Some [])
  ∧ clientIp req = js "unknown".
Proof.
  intros req.
  assert (Hf : x_forwarded_for req = None ∨ x_forwarded_for req = Some []) by (by left).
  split; [exact Hf |].
  destruct (clientIp_fallback req Hf) as (_ & _ & _ & Hunknown).
  apply Hunknown; by left.
Defined.

(** ** Ledger accesses compose *)

Lemma userRecord_resetDate today ip σ :
  resetDate (userRecord today ip σ).1 = resetDate σ.
Proof.
  destruct (userRecord today ip σ) as [σ' r] eqn:Hrec.
  by apply userRecord_spec in Hrec as (_ & Hd & _).
Qed.

Lemma prelude_resetDate today ip σ :
  resetDate (userRecord today ip (resetIfNewDay today σ)).1 = today.
Proof. rewrite userRecord_resetDate. apply resetIfNewDay_date. Qed.

Lemma userRecord_again today ip σ :
  userRecord today ip (userRecord today ip σ).1 = userRecord today ip σ.
Proof.
  destruct (userRecord today ip σ) as [σ1 r] eqn:Hrec. simpl.
  apply userRecord_spec in Hrec as (_ & _ & _ & Hu & Hr & _).
  by apply (userRecord_current _ _ _ _ _ Hu Hr).
Qed.

(** X3. [userRecord] is get-or-create: the record it returns is registered
    under the client's address and dated today, with the count the ledger
    had for the client today (0 when it had none), and asking again returns
    the same record and changes nothing more. *)
Theorem userRecord_idempotent today ip σ :
  let pre := userRecord today ip σ in
  current_record today ip pre.1 = Some (UserRec (used_today today ip σ) today)
  ∧ userRecord today ip pre.1 = pre.
Proof.
  intros pre. subst pre.
  destruct (userRecord today ip σ) as [σ1 r] eqn:Hrec. simpl.
  apply userRecord_spec in Hrec as (_ & _ & _ & Hu & Hr & _).
  split.
  - unfold current_record. rewrite Hu. simpl. rewrite Hr. simpl.
    by rewrite decide_True.
  - by apply (userRecord_current _ _ _ _ _ Hu Hr).
Qed.

(** X4. GET status is idempotent within a day: a second status request of
    the same client leaves the state as the first one left it and gets the
    same answer. *)
Theorem status_idempotent today req σ :
  let once := status_handler today req σ in
  status_handler today req once.1 = once.
Proof.
  intros once. subst once. rewrite !status_handler_eq. simpl.
  set (pre := userRecord today (clientIp req) (resetIfNewDay today σ)).
  assert (Hsame : resetIfNewDay today pre.1 = pre.1)
    by apply resetIfNewDay_same, prelude_resetDate.
  rewrite Hsame.
  pose proof (userRecord_again today (clientIp req) (resetIfNewDay today σ)) as Hidem.
  fold pre in Hidem. by rewrite Hidem.
Qed.

Section ServerExtras.
Context `{Platform}.

(** What [generate] does, by cases: it commits, or it leaves the state of
    the prelude. *)
Lemma generate_cases today apiKey req textRes token now σ :
  let ip := clientIp req in
  let pre := userRecord today ip (resetIfNewDay today σ) in
  let out := generate today apiKey req textRes token now σ in
  (∃ key tracklist url,
      let p := Pending ip pre.2 (typeof_string_trim (body_vibe req)) key in
      generation p textRes now = Some (tracklist, url)
      ∧ globalCount pre.1 < 11 ∧ count_at pre.2 pre.1 < 2
      ∧ out = (committed p token url now pre.1,
               json (GenerateBody tracklist token
                       (Z.max 0 (DAILY_USER_LIMIT
                                 - count_at pre.2 (committed p token url now pre.1)))
                       (Z.max 0 (DAILY_GLOBAL_LIMIT - (globalCount pre.1 + 1))))))
  ∨ (out.1 = pre.1 ∧ status out.2 ≠ 200).
Proof.
  intros ip pre out. subst out. unfold generate.
  destruct (generate_start_spec today apiKey req σ)
    as [(key & _ & _ & (Hg & Hu & _) & Hstart) | (_ & r & Hstart & Hst & _)];
    simpl in Hstart; fold ip pre in Hstart |- *; rewrite Hstart.
  - fold ip pre in Hg, Hu.
    set (p := Pending ip pre.2 (typeof_string_trim (body_vibe req)) key).
    pose proof (generate_resume_spec p textRes token now pre.1) as Hspec.
    destruct (generation p textRes now) as [[tracklist url0]|] eqn:Hgen.
    + left. exists key, tracklist, url0. fold p. rewrite Hgen. by repeat split.
    + right. destruct Hspec as [e ->]. by split.
  - right. split; [reflexivity |]. simpl. lia.
Qed.

(** X5. What a successful POST generate reports as remaining is what a
    GET status of the same client on the same day then reports, and that
    status request changes nothing in the state, when no request is served
    while the generation waits for the text API and also when every request
    served in the meantime is of the same day. *)
Theorem generate_then_status today apiKey req textRes token now σ σ1 p σr :
  generate_start today apiKey req σ = (σ1, Await p) →
  rtc (day_step today) σ1 σr →
  let out := generate_resume p textRes token now σr in
  status out.2 = 200 →
  let again := status_handler today req out.1 in
  again.1 = out.1
  ∧ ∃ user global, reported_remaining out.2 = [user; global]
                   ∧ reported_remaining again.2 = [global; user].
Proof.
  intros Hstart Hsteps out H200 again. subst again.
  destruct (generate_start_held _ _ _ _ _ _ Hstart) as [_ Hheld].
  pose proof (day_steps_held _ _ _ _ _ Hheld Hsteps) as Hheld'.
  pose proof (held_current_resume _ _ _ p textRes token now _ Hheld') as Hout.
  fold out in Hout. destruct Hout as (Hd & Hu & rec & Hr & Hdate).
  pose proof (generate_resume_spec p textRes token now σr) as Hspec. fold out in Hspec.
  destruct (generation p textRes now) as [[tracklist url0]|].
  2: { destruct Hspec as [e Hspec]. rewrite Hspec in H200. discriminate. }
  rewrite status_handler_eq. cbn zeta.
  rewrite (resetIfNewDay_same _ _ Hd), (userRecord_current _ _ _ _ _ Hu Hr Hdate).
  cbn [fst snd]. split; [reflexivity |].
  rewrite Hspec. cbn [fst snd]. eexists _, _. split; reflexivity.
Qed.

(** ** The limits hold when requests do not overlap *)

Lemma client_count_ext ip σ σ' :
  users σ' = users σ → recs σ' = recs σ → client_count ip σ' = client_count ip σ.
Proof. intros Hu Hr. unfold client_count. by rewrite Hu, Hr. Qed.

Lemma resetIfNewDay_client_count today ip σ c :
  client_count ip (resetIfNewDay today σ) = Some c → client_count ip σ = Some c.
Proof.
  unfold resetIfNewDay. case_decide; [| done].
  unfold client_count. simpl. by rewrite lookup_empty.
Qed.

Lemma resetIfNewDay_globalCount today σ :
  globalCount (resetIfNewDay today σ) = 0
  ∨ globalCount (resetIfNewDay today σ) = globalCount σ.
Proof. unfold resetIfNewDay. case_decide; [by left | by right]. Qed.

(** A count found after [userRecord] was there before, or is the 0 of the
    record just created. *)
Lemma userRecord_client_count today ip σ ip' c :
  client_count ip' (userRecord today ip σ).1 = Some c →
  c = 0 ∨ client_count ip' σ = Some c.
Proof.
  destruct (current_record today ip σ) as [rec|] eqn:Hcur.
  - destruct (current_record_Some _ _ _ _ Hcur) as (r0 & Hu & Hr & Hd).
    rewrite (userRecord_current _ _ _ _ _ Hu Hr Hd). by right.
  - rewrite (userRecord_fresh _ _ _ Hcur). unfold new_record, client_count. simpl.
    destruct (decide (ip = ip')) as [<- | Hne].
    + rewrite lookup_insert_eq. simpl.
      rewrite lookup_app_r by lia. rewrite Nat.sub_diag. simpl.
      intros [= <-]. by left.
    + rewrite lookup_insert_ne by done.
      destruct (users σ !! ip') as [r'|]; simpl; [| discriminate].
      destruct (decide (r' < length (recs σ))%nat) as [Hlt | Hge].
      * rewrite lookup_app_l by done. by right.
      * rewrite lookup_app_r by lia.
        destruct (r' - length (recs σ))%nat as [| n]; simpl.
        -- intros [= <-]. by left.
        -- by destruct n.
Qed.

(** A count found after the commit is the one before, plus one if it is
    the count of the record the handler holds. *)
Lemma committed_client_count p token url0 now σ ip c :
  client_count ip (committed p token url0 now σ) = Some c →
  ∃ c0, client_count ip σ = Some c0
        ∧ (c = c0 ∨ (c = c0 + 1 ∧ users σ !! ip = Some (p_rec p))).
Proof.
  unfold client_count, committed. simpl.
  destruct (users σ !! ip) as [r|]; simpl; [| discriminate].
  destruct (decide (p_rec p = r)) as [<- | Hne].
  - rewrite list_lookup_alter_eq.
    destruct (recs σ !! p_rec p) as [rec|]; simpl; [| discriminate].
    intros [= <-]. exists (count rec). split; [reflexivity |]. by right.
  - rewrite list_lookup_alter_ne by done.
    destruct (recs σ !! r) as [rec|]; simpl; [| discriminate].
    intros [= <-]. exists (count rec). split; [reflexivity |]. by left.
Qed.

Lemma cover_ledger now req imgRes σ :
  let σ' := (cover now req imgRes σ).1 in
  globalCount σ' = globalCount σ ∧ resetDate σ' = resetDate σ
  ∧ users σ' = users σ ∧ recs σ' = recs σ.
Proof.
  intros σ'. subst σ'. unfold cover, cover_start.
  destruct (coverTokens σ !! params_token req) as [e|]; [| done].
  destruct (now >? expiresAt e); [done |].
  destruct (image_ok imgRes) eqn:Hok.
  - destruct imgRes as [m | [|] code ct [m | bytes]]; simpl in Hok; try discriminate.
    by rewrite cover_resume_ok.
  - by rewrite cover_resume_failed.
Qed.

Lemma prelude_within_limits today ip σ :
  within_limits σ → within_limits (userRecord today ip (resetIfNewDay today σ)).1.
Proof.
  intros [Hg Hc]. unfold within_limits, DAILY_GLOBAL_LIMIT, DAILY_USER_LIMIT in *.
  destruct (userRecord today ip (resetIfNewDay today σ)) as [σ1 r] eqn:Hrec.
  pose proof (userRecord_spec _ _ _ _ _ Hrec) as (Hg1 & _). simpl. split.
  - rewrite Hg1. destruct (resetIfNewDay_globalCount today σ) as [-> | ->]; lia.
  - intros ip' c Hc'. change σ1 with (σ1, r).1 in Hc'. rewrite <- Hrec in Hc'.
    apply userRecord_client_count in Hc' as [-> | Hc']; [lia |].
    apply resetIfNewDay_client_count in Hc'. eauto.
Qed.

Lemma served_within_limits σ σ' : within_limits σ → served σ σ' → within_limits σ'.
Proof.
  intros Hlim Hserved. destruct Hserved.
  - rewrite status_handler_eq. simpl. by apply prelude_within_limits.
  - pose proof (prelude_within_limits today (clientIp req) σ Hlim) as [Hg Hc].
    unfold within_limits, DAILY_GLOBAL_LIMIT, DAILY_USER_LIMIT in *.
    destruct (generate_cases today apiKey req textRes token now σ)
      as [(key & tracklist & url0 & _ & Hgl & Hul & ->) | [-> _]];
      [| by split].
    split; [simpl; lia |]. intros ip c Hcount. simpl in Hcount.
    apply committed_client_count in Hcount as (c0 & Hc0 & [-> | [-> Hu]]);
      [by eapply Hc |].
    specialize (Hc _ _ Hc0). cbn [p_rec] in Hu.
    unfold client_count in Hc0. rewrite Hu in Hc0. simpl in Hc0.
    unfold count_at in Hul.
    destruct (recs _ !! _) as [rec|]; simpl in Hc0; [| discriminate].
    injection Hc0 as <-. lia.
  - destruct (cover_ledger now req imgRes σ) as (Hg & _ & Hu & Hr).
    destruct Hlim as [Hgl Hc]. split; [by rewrite Hg |].
    intros ip c. rewrite (client_count_ext _ _ _ Hu Hr). apply Hc.
  - exact Hlim.
Qed.

(** X6. When requests are served one after the other, from the start of
    the server on, the limits are never exceeded: globalCount stays between
    0 and 11 and every client's count between 0 and 2. *)
Theorem sequential_within_limits today σ :
  rtc served (initial today) σ → within_limits σ.
Proof.
  revert σ. apply rtc_ind_r.
  - split; [simpl; unfold DAILY_GLOBAL_LIMIT; lia |].
    intros ip c. unfold client_count. simpl. by rewrite lookup_empty.
  - intros σ σ' _ Hserved Hlim. by eapply served_within_limits.
Qed.

(** ** What holds however the requests overlap *)

Lemma generate_start_state today apiKey req σ :
  (generate_start today apiKey req σ).1
  = (userRecord today (clientIp req) (resetIfNewDay today σ)).1.
Proof.
  destruct (generate_start_spec today apiKey req σ)
    as [(key & _ & _ & _ & Hstart) | (_ & r & Hstart & _)];
    simpl in Hstart; by rewrite Hstart.
Qed.

Lemma generate_start_await today apiKey req σ σ' p :
  generate_start today apiKey req σ = (σ', Await p) →
  p_ip p = clientIp req
  ∧ p_rec p = (userRecord today (clientIp req) (resetIfNewDay today σ)).2.
Proof.
  intros Heq.
  destruct (generate_start_spec today apiKey req σ)
    as [(key & _ & _ & _ & Hstart) | (_ & r & Hstart & _)];
    simpl in Hstart; rewrite Hstart in Heq; simplify_eq. by split.
Qed.

(** An entry of the map after the prelude was there before, or is the one
    of the record just created. *)
Lemma prelude_users_lookup today ip σ ip0 r0 :
  let pre := userRecord today ip (resetIfNewDay today σ) in
  users pre.1 !! ip0 = Some r0 →
  users σ !! ip0 = Some r0
  ∨ (ip0 = ip ∧ r0 = pre.2 ∧ (length (recs σ) ≤ r0)%nat).
Proof.
  intros pre. subst pre.
  destruct (resetIfNewDay_frame today σ) as [Hrecs _].
  set (σ0 := resetIfNewDay today σ) in *.
  assert (Hsub : ∀ i r, users σ0 !! i = Some r → users σ !! i = Some r).
  { intros i r. subst σ0. unfold resetIfNewDay. case_decide; [| done].
    simpl. by rewrite lookup_empty. }
  destruct (current_record today ip σ0) as [rec|] eqn:Hcur.
  - destruct (current_record_Some _ _ _ _ Hcur) as (r1 & Hu & Hr & Hd).
    rewrite (userRecord_current _ _ _ _ _ Hu Hr Hd). simpl. intros Hl. left. eauto.
  - rewrite (userRecord_fresh _ _ _ Hcur). unfold new_record. simpl.
    destruct (decide (ip = ip0)) as [<- | Hne].
    + rewrite lookup_insert_eq. intros [= <-]. right. rewrite Hrecs. by repeat split.
    + rewrite lookup_insert_ne by done. intros Hl. left. eauto.
Qed.

Lemma prelude_counts_bounded today ip σ :
  counts_bounded σ → counts_bounded (userRecord today ip (resetIfNewDay today σ)).1.
Proof.
  intros Hb.
  assert (Hb0 : counts_bounded (resetIfNewDay today σ)).
  { unfold resetIfNewDay. case_decide; [| done]. split; [simpl; lia |].
    intros ip' c. unfold client_count. simpl. by rewrite lookup_empty. }
  destruct Hb0 as [Hg Hc].
  destruct (userRecord today ip (resetIfNewDay today σ)) as [σ1 r] eqn:Hrec.
  pose proof (userRecord_spec _ _ _ _ _ Hrec) as (Hg1 & _). simpl.
  split; [by rewrite Hg1 |]. intros ip' c Hc'. rewrite Hg1.
  change σ1 with (σ1, r).1 in Hc'. rewrite <- Hrec in Hc'.
  apply userRecord_client_count in Hc' as [-> | Hc']; [lia | eauto].
Qed.

Lemma generation_url p textRes now tracklist url0 :
  generation p textRes now = Some (tracklist, url0) →
  ∃ encPrompt encKey, url0 = imageUrl encPrompt now encKey.
Proof.
  unfold generation. intros Hgen.
  destruct (content_of textRes) as [content|]; simpl in Hgen; [| discriminate].
  destruct (JSON_parse _) as [t|]; simpl in Hgen; [| discriminate].
  destruct (tracks_listed t); [| discriminate].
  destruct (encodeURIComponent (buildImagePrompt _)) as [encPrompt|]; simpl in Hgen;
    [| discriminate].
  destruct (encodeURIComponent (p_apiKey p)) as [encKey|]; simpl in Hgen;
    [| discriminate].
  injection Hgen as _ <-. eauto.
Qed.

Lemma generate_resume_counts_bounded p textRes token now σ :
  counts_bounded σ → counts_bounded (generate_resume p textRes token now σ).1.
Proof.
  intros [Hg Hc].
  pose proof (generate_resume_spec p textRes token now σ) as Hspec.
  destruct (generation p textRes now) as [[tracklist url0]|].
  - rewrite Hspec. split; [simpl; lia |]. intros ip c Hcount. simpl in Hcount.
    apply committed_client_count in Hcount as (c0 & Hc0 & [-> | [-> _]]);
      specialize (Hc _ _ Hc0); simpl; lia.
  - destruct Hspec as [e ->]. by split.
Qed.

Lemma generate_resume_vault p textRes token now σ :
  vault_urls_built σ → vault_urls_built (generate_resume p textRes token now σ).1.
Proof.
  intros Hv.
  pose proof (generate_resume_spec p textRes token now σ) as Hspec.
  destruct (generation p textRes now) as [[tracklist url0]|] eqn:Hgen.
  - rewrite Hspec. intros tok e. simpl.
    destruct (decide (token = tok)) as [<- | Hne].
    + rewrite lookup_insert_eq. intros [= <-]. simpl.
      destruct (generation_url _ _ _ _ _ Hgen) as (encPrompt & encKey & ->). eauto.
    + rewrite lookup_insert_ne by done. apply Hv.
  - by destruct Hspec as [e ->].
Qed.

Lemma cover_start_frame now req σ :
  let σ' := (cover_start now req σ).1 in
  globalCount σ' = globalCount σ ∧ users σ' = users σ ∧ recs σ' = recs σ
  ∧ ∀ tok e, coverTokens σ' !! tok = Some e → coverTokens σ !! tok = Some e.
Proof.
  intros σ'. subst σ'. unfold cover_start.
  destruct (coverTokens σ !! params_token req) as [e0|]; [| done].
  destruct (now >? expiresAt e0); [| done]. simpl. repeat split.
  intros tok e Hl. by apply lookup_delete_Some in Hl as [_ Hl].
Qed.

Lemma cover_resume_frame req imgRes σ :
  let σ' := (cover_resume req imgRes σ).1 in
  globalCount σ' = globalCount σ ∧ users σ' = users σ ∧ recs σ' = recs σ
  ∧ ∀ tok e, coverTokens σ' !! tok = Some e → coverTokens σ !! tok = Some e.
Proof.
  intros σ'. subst σ'. destruct (image_ok imgRes) eqn:Hok.
  - destruct imgRes as [m | [|] code ct [m | bytes]]; simpl in Hok; try discriminate.
    rewrite cover_resume_ok. simpl. repeat split.
    intros tok e Hl. by apply lookup_delete_Some in Hl as [_ Hl].
  - by rewrite cover_resume_failed.
Qed.

Lemma prelude_owned today ip σ ps cs :
  refs_live (Config σ ps cs) → records_owned (Config σ ps cs) →
  let pre := userRecord today ip (resetIfNewDay today σ) in
  records_owned (Config pre.1 ps cs)
  ∧ ∀ ip0, users pre.1 !! ip0 = Some pre.2 → ip0 = ip.
Proof.
  intros [Hwf Hlive] [Hinj Hown] pre. cbn [st awaiting_text] in *.
  pose proof (prelude_users_lookup today ip σ) as Hlook. cbn zeta in Hlook. fold pre in Hlook.
  assert (Hinj' : ∀ ip1 ip2 r, users pre.1 !! ip1 = Some r →
                               users pre.1 !! ip2 = Some r → ip1 = ip2).
  { intros ip1 ip2 r H1 H2.
    apply Hlook in H1 as [H1 | (-> & _ & Hge1)]; apply Hlook in H2 as [H2 | (-> & _ & Hge2)].
    - by eapply Hinj.
    - specialize (Hwf _ _ H1). lia.
    - specialize (Hwf _ _ H2). lia.
    - reflexivity. }
  split; [split; [exact Hinj' |] |].
  - cbn [st awaiting_text]. rewrite Forall_forall in Hown, Hlive |- *.
    intros p Hp ip0 Hip0.
    apply Hlook in Hip0 as [Hip0 | (_ & _ & Hge)]; [by apply (Hown p Hp) |].
    specialize (Hlive p Hp). simpl in Hlive. lia.
  - intros ip0 Hip0. apply (Hinj' ip0 ip pre.2 Hip0).
    subst pre. destruct (userRecord today ip (resetIfNewDay today σ)) as [σ1 r] eqn:Hrec.
    by apply userRecord_spec in Hrec as (_ & _ & _ & Hu & _).
Qed.

Lemma prelude_vault today ip σ :
  vault_urls_built σ → vault_urls_built (userRecord today ip (resetIfNewDay today σ)).1.
Proof.
  intros Hv tok e.
  destruct (userRecord today ip (resetIfNewDay today σ)) as [σ1 r] eqn:Hrec.
  apply userRecord_spec in Hrec as (_ & _ & Hc & _). simpl. rewrite Hc.
  destruct (resetIfNewDay_frame today σ) as [_ ->]. apply Hv.
Qed.

Lemma records_owned_ext σ σ' ps cs cs' :
  users σ' = users σ → records_owned (Config σ ps cs) → records_owned (Config σ' ps cs').
Proof. unfold records_owned. cbn [st awaiting_text]. by intros ->. Qed.

Lemma counts_bounded_ext σ σ' :
  globalCount σ' = globalCount σ → users σ' = users σ → recs σ' = recs σ →
  counts_bounded σ → counts_bounded σ'.
Proof.
  intros Hg Hu Hr [Hg0 Hc]. split; [by rewrite Hg |].
  intros ip c. rewrite (client_count_ext _ _ _ Hu Hr), Hg. apply Hc.
Qed.

Lemma vault_urls_built_sub σ σ' :
  (∀ tok e, coverTokens σ' !! tok = Some e → coverTokens σ !! tok = Some e) →
  vault_urls_built σ → vault_urls_built σ'.
Proof. intros Hsub Hv tok e Hl. apply (Hv tok e), Hsub, Hl. Qed.

Lemma server_step_inv c c' : server_inv c → server_step c c' → server_inv c'.
Proof.
  intros (Hlive & Hown & Hb & Hv) Hstep.
  split; [by eapply server_step_refs_live |].
  destruct Hstep; cbn [st awaiting_text awaiting_image] in *.
  - rewrite status_handler_eq. cbn zeta. cbn [fst].
    split; [apply (prelude_owned today (clientIp req) σ ps cs Hlive Hown) |].
    split; [by apply prelude_counts_bounded | by apply prelude_vault].
  - assert (Hσ' : σ' = (generate_start today apiKey req σ).1) by (by rewrite H0).
    rewrite generate_start_state in Hσ'. subst σ'.
    split; [apply (prelude_owned today (clientIp req) σ ps cs Hlive Hown) |].
    split; [by apply prelude_counts_bounded | by apply prelude_vault].
  - assert (Hσ' : σ' = (generate_start today apiKey req σ).1) by (by rewrite H0).
    rewrite generate_start_state in Hσ'. subst σ'.
    destruct (generate_start_await _ _ _ _ _ _ H0) as [Hip Hrec].
    destruct (prelude_owned today (clientIp req) σ ps cs Hlive Hown) as [[Hinj Hps] Hmine].
    split; [| split; [by apply prelude_counts_bounded | by apply prelude_vault]].
    split; [exact Hinj |]. cbn [st awaiting_text] in *. constructor; [| exact Hps].
    rewrite Hip, Hrec. exact Hmine.
  - destruct (generate_resume_frame p textRes token now σ) as [Hu _].
    split; [| split; [by apply generate_resume_counts_bounded
                     | by apply generate_resume_vault]].
    destruct Hown as [Hinj Hps]. cbn [st awaiting_text] in *.
    split; cbn [st awaiting_text]; rewrite Hu; [exact Hinj |].
    apply Forall_app in Hps as [Hps1 Hps2]. apply Forall_cons in Hps2 as [_ Hps2].
    apply Forall_app. by split.
  - assert (Hσ' : σ' = (cover_start now req σ).1) by (by rewrite H0). subst σ'.
    destruct (cover_start_frame now req σ) as (Hg & Hu & Hr & Hsub).
    split; [exact (records_owned_ext σ _ ps cs cs Hu Hown) |].
    split; [exact (counts_bounded_ext σ _ Hg Hu Hr Hb)
           | exact (vault_urls_built_sub σ _ Hsub Hv)].
  - assert (Hσ' : σ' = (cover_start now req σ).1) by (by rewrite H0). subst σ'.
    destruct (cover_start_frame now req σ) as (Hg & Hu & Hr & Hsub).
    split; [exact (records_owned_ext σ _ ps cs (req :: cs) Hu Hown) |].
    split; [exact (counts_bounded_ext σ _ Hg Hu Hr Hb)
           | exact (vault_urls_built_sub σ _ Hsub Hv)].
  - destruct (cover_resume_frame req imgRes σ) as (Hg & Hu & Hr & Hsub).
    split; [exact (records_owned_ext σ _ ps (cs1 ++ req :: cs2) (cs1 ++ cs2) Hu Hown) |].
    split; [exact (counts_bounded_ext σ _ Hg Hu Hr Hb)
           | exact (vault_urls_built_sub σ _ Hsub Hv)].
  - split; [exact (records_owned_ext σ (sweep now σ) ps cs cs eq_refl Hown) |].
    split; [exact (counts_bounded_ext σ (sweep now σ) eq_refl eq_refl eq_refl Hb) |].
    apply (vault_urls_built_sub σ); [| exact Hv].
    intros tok e Hl. simpl in Hl. by apply sweep_tokens_lookup in Hl as [Hl _].
Qed.

Lemma reachable_server_inv today c : reachable today c → server_inv c.
Proof.
  unfold reachable. revert c. apply rtc_ind_r.
  - split; [split; [| constructor] |]; [intros ip r; simpl; by rewrite lookup_empty |].
    split; [split; [| constructor]; intros ip1 ip2 r; simpl; by rewrite lookup_empty |].
    split; [split; [simpl; lia |] |].
    + intros ip c. unfold client_count. simpl. by rewrite lookup_empty.
    + intros tok e. simpl. by rewrite lookup_empty.
  - intros c c' _ Hstep Hinv. by eapply server_step_inv.
Qed.

(** Requests served one after the other are one way for the server to
    run. *)
Lemma served_reachable σ σ' ps cs :
  served σ σ' → rtc server_step (Config σ ps cs) (Config σ' ps cs).
Proof.
  intros Hserved. destruct Hserved.
  - apply rtc_once. constructor.
  - unfold generate.
    destruct (generate_start today apiKey req σ) as [σ1 [r | p]] eqn:Hstart.
    + apply rtc_once. by econstructor.
    + eapply rtc_l; [by eapply step_generate_await |].
      apply rtc_once. apply (step_generate_resume p textRes token now σ1 [] ps cs).
  - unfold cover.
    destruct (cover_start now req σ) as [σ1 [r | u]] eqn:Hstart.
    + apply rtc_once. by econstructor.
    + eapply rtc_l; [by eapply step_cover_await |].
      apply rtc_once. apply (step_cover_resume req imgRes σ1 ps [] cs).
  - apply rtc_once. constructor.
Qed.

(** X7. However the requests overlap, no client is ever charged more than
    the site as a whole, and no count is negative: in every reachable state
    0 ≤ globalCount, and every count the ledger holds for a client lies
    between 0 and globalCount. *)
Theorem reachable_counts_bounded today c :
  reachable today c →
  0 ≤ globalCount (st c)
  ∧ ∀ ip n, client_count ip (st c) = Some n → 0 ≤ n ≤ globalCount (st c).
Proof. intros Hreach. by destruct (reachable_server_inv today c Hreach) as (_ & _ & Hb & _). Qed.

(** X8. The cover proxy only ever fetches URLs the server wrote itself:
    in every reachable state, the URL that GET cover goes on to fetch
    starts with https://gen.pollinations.ai/image/. *)
Theorem cover_fetches_own_urls today c now req σ' u :
  reachable today c →
  cover_start now req (st c) = (σ', Await u) →
  js "https://gen.pollinations.ai/image/" `prefix_of` u.
Proof.
  intros Hreach Hstart.
  destruct (reachable_server_inv today c Hreach) as (_ & _ & _ & Hv).
  unfold cover_start in Hstart.
  destruct (coverTokens (st c) !! params_token req) as [e|] eqn:Hl; [| discriminate].
  destruct (now >? expiresAt e); [discriminate |]. injection Hstart as _ <-.
  destruct (Hv _ _ Hl) as (encPrompt & seed & encKey & ->).
  unfold imageUrl. by eexists.
Qed.

(** X9. A generation only ever charges the client that asked for it:
    however the requests overlap, when a waiting generation resumes, the
    count of every other client is left as it was. *)
Theorem generation_charges_own_client today σ ps1 p ps2 cs textRes token now :
  reachable today (Config σ (ps1 ++ p :: ps2) cs) →
  ∀ ip, ip ≠ p_ip p →
    client_count ip (generate_resume p textRes token now σ).1 = client_count ip σ.
Proof.
  intros Hreach ip Hne.
  destruct (reachable_server_inv today _ Hreach) as (_ & [_ Hown] & _).
  cbn [st awaiting_text] in Hown.
  apply Forall_app in Hown as [_ Hown]. apply Forall_cons in Hown as [Hp _].
  pose proof (generate_resume_spec p textRes token now σ) as Hspec.
  destruct (generation p textRes now) as [[tracklist url0]|].
  - rewrite Hspec. unfold client_count, committed. simpl.
    destruct (users σ !! ip) as [r|] eqn:Hu; [| reflexivity]. simpl.
    rewrite list_lookup_alter_ne; [reflexivity |].
    intros Heq. subst r. by apply Hne, Hp.
  - by destruct Hspec as [e ->].
Qed.

End ServerExtras.
(** X5 at [alice]'s generation, resumed after [bob]'s. *)
Lemma generate_then_status_witness :
  let out := @generate_resume sample_platform alice_pending (completion (JStr sample_json))
               tokenA noon bob_charged in
  status out.2 = 200
  ∧ reported_remaining out.2 = [1; 9]
  ∧ reported_remaining (status_handler day1 rainy out.1).2 = [9; 1]
  ∧ (status_handler day1 rainy out.1).1 = out.1.
Proof.
  intros out.
  assert (Hstart : generate_start day1 (Some sample_key) rainy (initial day1)
                   = (st alice_waiting, Await alice_pending)) by (vm_compute; reflexivity).
  assert (H200 : status out.2 = 200) by (vm_compute; reflexivity).
  split; [exact H200 |].
  destruct (@generate_then_status sample_platform day1 (Some sample_key) rainy
              (completion (JStr sample_json)) tokenA noon (initial day1)
              (st alice_waiting) alice_pending bob_charged Hstart bob_charged_day H200)
    as (Hsame & user & global & Hout & Hagain).
  fold out in Hsame, Hout, Hagain.
  assert (Hrep : reported_remaining out.2 = [1; 9]) by (vm_compute; reflexivity).
  split; [exact Hrep |]. split; [| exact Hsame]. rewrite Hagain.
  rewrite Hrep in Hout. by injection Hout as <- <-.
Defined.


Lemma bob_charged_reachable :
  @reachable sample_platform day1 (Config bob_charged [alice_pending] []).
Proof.
  unfold reachable.
  eapply rtc_l;
    [apply (@step_generate_await sample_platform day1 (Some sample_key) rainy (initial day1));
     vm_compute; reflexivity |].
  eapply rtc_l;
    [apply (@step_generate_await sample_platform day1 (Some sample_key) rainy_bob);
     vm_compute; reflexivity |].
  apply rtc_once.
  exact (@step_generate_resume sample_platform bob_pending (completion (JStr sample_json))
           tokenB noon _ [] [alice_pending] []).
Qed.

Lemma alice_waiting_reachable : @reachable sample_platform day1 alice_waiting.
Proof.
  unfold reachable. apply rtc_once.
  apply (@step_generate_await sample_platform day1 (Some sample_key) rainy (initial day1)).
  vm_compute. reflexivity.
Qed.

Lemma alice_served_reachable :
  @reachable sample_platform day1 (Config alice_served [] []).
Proof. apply (@served_reachable sample_platform). constructor. Qed.

(** X6 at the state after [alice]'s first generation. *)
Lemma sequential_within_limits_witness :
  rtc (@served sample_platform) (initial day1) alice_served
  ∧ within_limits alice_served
  ∧ globalCount alice_served = 1 ∧ client_count alice alice_served = Some 1.
Proof.
  assert (Hrun : rtc (@served sample_platform) (initial day1) alice_served).
  { apply rtc_once. constructor. }
  split; [exact Hrun |].
  split; [exact (@sequential_within_limits sample_platform day1 alice_served Hrun) |].
  split; vm_compute; reflexivity.
Defined.

(** X7 at the state after [alice]'s first generation. *)
Lemma reachable_counts_bounded_witness :
  @reachable sample_platform day1 (Config alice_served [] [])
  ∧ 0 ≤ globalCount alice_served
  ∧ (client_count alice alice_served = Some 1 → 0 ≤ 1 ≤ globalCount alice_served).
Proof.
  split; [exact alice_served_reachable |].
  destruct (@reachable_counts_bounded sample_platform day1 (Config alice_served [] [])
              alice_served_reachable) as [Hg Hc].
  split; [exact Hg |]. exact (Hc alice 1).
Defined.

(** X8 at the redemption of [alice]'s token. *)
Lemma cover_fetches_own_urls_witness :
  let req := request_from alice JUndefined tokenA in
  @reachable sample_platform day1 (Config alice_served [] [])
  ∧ ∃ σ' u, cover_start noon req alice_served = (σ', Await u)
            ∧ js "https://gen.pollinations.ai/image/" `prefix_of` u.
Proof.
  intros req. split; [exact alice_served_reachable |].
  destruct (cover_start noon req alice_served) as [σ' [r | u]] eqn:Hstart.
  - exfalso. vm_compute in Hstart. discriminate.
  - exists σ', u. split.
    + reflexivity.
    + exact (@cover_fetches_own_urls sample_platform day1 (Config alice_served [] [])
               noon req σ' u alice_served_reachable Hstart).
Defined.

(** X9 at [alice]'s waiting generation, resumed after [bob] was charged:
    [bob]'s count stays at 1 while [alice]'s goes from 0 to 1. *)
Lemma generation_charges_own_client_witness :
  let out := @generate_resume sample_platform alice_pending (completion (JStr sample_json))
               tokenA noon bob_charged in
  bob ≠ p_ip alice_pending
  ∧ client_count bob bob_charged = Some 1
  ∧ client_count bob out.1 = Some 1
  ∧ client_count alice bob_charged = Some 0
  ∧ client_count alice out.1 = Some 1.
Proof.
  intros out.
  assert (Hreach : @reachable sample_platform day1
                     (Config bob_charged ([] ++ alice_pending :: []) []))
    by exact bob_charged_reachable.
  assert (Hne : bob ≠ p_ip alice_pending) by discriminate.
  pose proof (@generation_charges_own_client sample_platform day1 bob_charged []
                alice_pending [] [] (completion (JStr sample_json)) tokenA noon
                Hreach bob Hne) as Hbob.
  fold out in Hbob.
  assert (Hbefore : client_count bob bob_charged = Some 1) by (vm_compute; reflexivity).
  split; [exact Hne |]. split; [exact Hbefore |]. split; [by rewrite Hbob |].
  split; vm_compute; reflexivity.
Defined.

(** ** The vault: issue, redeem, sweep *)

Lemma cover_start_live now req σ e :
  coverTokens σ !! params_token req = Some e → now ≤ expiresAt e →
  cover_start now req σ = (σ, Await (url e)).
Proof.
  intros Hin Hle. unfold cover_start. rewrite Hin.
  destruct (Z.gtb_spec now (expiresAt e)); [lia | reflexivity].
Qed.

Lemma cover_start_expired now req σ e :
  coverTokens σ !! params_token req = Some e → expiresAt e < now →
  cover_start now req σ
  = (set_coverTokens (delete (params_token req) (coverTokens σ)) σ,
     Respond (Response 410 (ErrorBody "Cover token expired."))).
Proof.
  intros Hin Hlt. unfold cover_start. rewrite Hin.
  destruct (Z.gtb_spec now (expiresAt e)); [reflexivity | lia].
Qed.

Lemma cover_start_absent now req σ :
  coverTokens σ !! params_token req = None →
  cover_start now req σ
  = (σ, Respond (Response 404 (ErrorBody "Cover not found or already used."))).
Proof. intros Hin. unfold cover_start. by rewrite Hin. Qed.

(** X10. Issue then redeem.  A generation that goes through stores its
    token with the cover URL and an expiry five minutes later, replacing
    any entry under the same token.  Up to and including that instant a
    redemption of the token goes on to fetch exactly that URL; after it the
    redemption answers 410 and removes the entry.  Once a redemption has
    fetched the image, every later one answers 404. *)
Theorem issued_token_redeems `{Platform} p textRes token now σ tracklist url0 :
  generation p textRes now = Some (tracklist, url0) →
  let σ1 := (generate_resume p textRes token now σ).1 in
  coverTokens σ1 !! token = Some (Entry url0 (now + 300000))
  ∧ (∀ now' req, params_token req = token → now' ≤ now + 300000 →
       cover_start now' req σ1 = (σ1, Await url0))
  ∧ (∀ now' req, params_token req = token → now + 300000 < now' →
       answered (cover_start now' req σ1).2 = Some 410
       ∧ coverTokens (cover_start now' req σ1).1 !! token = None)
  ∧ (∀ now' req imgRes, params_token req = token → now' ≤ now + 300000 →
       image_ok imgRes = true →
       status (cover now' req imgRes σ1).2 = 200
       ∧ ∀ now'' imgRes',
           status (cover now'' req imgRes' (cover now' req imgRes σ1).1).2 = 404).
Proof.
  intros Hgen σ1.
  assert (Hin : coverTokens σ1 !! token = Some (Entry url0 (now + 300000))).
  { subst σ1. pose proof (generate_resume_spec p textRes token now σ) as Hspec.
    rewrite Hgen in Hspec. rewrite Hspec. simpl. apply lookup_insert_eq. }
  split; [exact Hin |].
  split; [| split].
  - intros now' req <- Hle. by apply (cover_start_live now' req σ1 _ Hin).
  - intros now' req <- Hlt.
    rewrite (cover_start_expired now' req σ1 _ Hin) by (simpl; lia).
    split; [reflexivity |]. simpl. apply lookup_delete_eq.
  - intros now' req imgRes <- Hle Hok. unfold cover at 1 3.
    rewrite (cover_start_live now' req σ1 _ Hin) by (simpl; lia).
    destruct imgRes as [m | [|] code ct [m | bytes]]; simpl in Hok; try discriminate.
    rewrite cover_resume_ok. split; [reflexivity |].
    intros now'' imgRes'. unfold cover.
    rewrite cover_start_absent; [reflexivity |]. simpl. apply lookup_delete_eq.
Qed.

(** X10 at [alice]'s generation: her token is redeemed once. *)
Lemma issued_token_redeems_witness :
  let req := request_from alice JUndefined tokenA in
  let σ1 := (@generate_resume sample_platform alice_pending
               (completion (JStr sample_json)) tokenA noon (st alice_waiting)).1 in
  is_Some (@generation sample_platform alice_pending (completion (JStr sample_json)) noon)
  ∧ (expiresAt <$> coverTokens σ1 !! tokenA) = Some (noon + 300000)
  ∧ status (cover (noon + 300000) req jpeg σ1).2 = 200
  ∧ status (cover (noon + 300000) req jpeg (cover (noon + 300000) req jpeg σ1).1).2 = 404.
Proof.
  intros req σ1.
  destruct (@generation sample_platform alice_pending (completion (JStr sample_json)) noon)
    as [[tracklist url0]|] eqn:Hgen; [| vm_compute in Hgen; discriminate].
  split; [by eexists |].
  destruct (@issued_token_redeems sample_platform alice_pending
              (completion (JStr sample_json)) tokenA noon (st alice_waiting)
              tracklist url0 Hgen) as (Hin & _ & _ & Honce).
  fold σ1 in Hin, Honce.
  split; [by rewrite Hin |].
  destruct (Honce (noon + 300000) req jpeg eq_refl ltac:(lia) eq_refl) as [H200 H404].
  split; [exact H200 | apply H404].
Defined.

Lemma sweep_tokens_sweep_tokens (now1 now2 : Z) (tokens : gmap jsstring entry) :
  sweep_tokens now2 (sweep_tokens now1 tokens) = sweep_tokens (now1 `max` now2) tokens.
Proof.
  apply map_eq. intros tok. apply option_eq. intros e.
  rewrite !sweep_tokens_lookup. split.
  - intros [[Hin H1] H2]. split; [exact Hin | lia].
  - intros [Hin Hmax]. split; [split; [exact Hin |] |]; lia.
Qed.

(** X11. Sweeps compose: sweeping at one instant and then at another
    leaves the vault of a single sweep at the later of the two, in either
    order; in particular a second sweep at the same instant changes
    nothing. *)
Theorem sweep_sweep now1 now2 σ :
  sweep now2 (sweep now1 σ) = sweep (now1 `max` now2) σ
  ∧ sweep now1 (sweep now1 σ) = sweep now1 σ.
Proof.
  unfold sweep. simpl. split.
  - unfold set_coverTokens. simpl. by rewrite sweep_tokens_sweep_tokens.
  - unfold set_coverTokens. simpl. by rewrite sweep_tokens_sweep_tokens, Z.max_id.
Qed.

(** X12. A sweep is invisible to redemption at the same instant, except
    that a token which had expired is answered 404 (not found) instead of
    410 (expired): after a sweep at [now], a redemption at [now] never
    answers 410, and for a token that had not expired it goes on to fetch
    the same URL. *)
Theorem sweep_then_redeem now req σ :
  let before := cover_start now req σ in
  let after := cover_start now req (sweep now σ) in
  answered after.2 ≠ Some 410
  ∧ (answered before.2 = Some 410 → answered after.2 = Some 404)
  ∧ (answered before.2 = Some 404 → answered after.2 = Some 404)
  ∧ (∀ u, before.2 = Await u → after = (sweep now σ, Await u)).
Proof.
  intros before after. subst before after.
  destruct (coverTokens σ !! params_token req) as [e|] eqn:Hin.
  - destruct (decide (expiresAt e < now)) as [Hlt | Hge].
    + assert (Hgone : coverTokens (sweep now σ) !! params_token req = None).
      { simpl. destruct (sweep_tokens now (coverTokens σ) !! params_token req)
          as [e'|] eqn:Hsw; [| reflexivity].
        apply sweep_tokens_lookup in Hsw as [Hin' Hle]. simplify_eq. lia. }
      rewrite (cover_start_absent now req (sweep now σ) Hgone).
      rewrite (cover_start_expired now req σ e Hin Hlt). simpl.
      repeat split; try done.
    + assert (Hkept : coverTokens (sweep now σ) !! params_token req = Some e).
      { simpl. apply sweep_tokens_lookup. split; [exact Hin | lia]. }
      rewrite (cover_start_live now req (sweep now σ) e Hkept) by lia.
      rewrite (cover_start_live now req σ e Hin) by lia. simpl.
      repeat split; try done. by intros u [= <-].
  - assert (Hgone : coverTokens (sweep now σ) !! params_token req = None).
    { simpl. destruct (sweep_tokens now (coverTokens σ) !! params_token req)
        as [e'|] eqn:Hsw; [| reflexivity].
      apply sweep_tokens_lookup in Hsw as [Hin' _]. congruence. }
    rewrite (cover_start_absent now req (sweep now σ) Hgone).
    rewrite (cover_start_absent now req σ Hin). simpl. repeat split; try done.
Qed.

(** * Properties of the page scripts *)

Example utf16_dash : utf16 "a — b" = [97; 32; 8212; 32; 98]%N.
Proof. reflexivity. Qed.

Lemma generate_start_answers today apiKey req σ :
  let pre := userRecord today (clientIp req) (resetIfNewDay today σ) in
  let out := generate_start today apiKey req σ in
  (answered out.2 = Some 429
   ↔ 11 ≤ globalCount pre.1 ∨ 2 ≤ count_at pre.2 pre.1)
  ∧ (globalCount pre.1 < 11 → count_at pre.2 pre.1 < 2 →
     (answered out.2 = Some 400 ↔ vibe_turned_down (body_vibe req))).
Proof.
  intros pre out. subst out pre. unfold generate_start.
  destruct (userRecord today (clientIp req) (resetIfNewDay today σ)) as [σ1 r].
  cbn [fst snd]. unfold DAILY_GLOBAL_LIMIT, DAILY_USER_LIMIT.
  destruct (Z.geb_spec (globalCount σ1) 11) as [Hge | Hlt]; cbn [snd answered status].
  { split; [split; [by left | done] | lia]. }
  destruct (Z.geb_spec (count_at r σ1) 2) as [Hge' | Hlt']; cbn [snd answered status].
  { split; [split; [by right | done] | lia]. }
  assert (Hdown : negb (truthy_str (typeof_string_trim (body_vibe req)))
                  || (600 <? length (typeof_string_trim (body_vibe req)))%nat = true
                  ↔ vibe_turned_down (body_vibe req)).
  { rewrite orb_true_iff, negb_true_iff, truthy_str_false, Nat.ltb_lt.
    unfold vibe_turned_down, typeof_string_trim.
    destruct (body_vibe req); simpl; tauto. }
  destruct (negb _ || _).
  - cbn [snd answered status]. split; [split; [done | lia] |].
    intros _ _. split; [intros _; by apply Hdown | done].
  - assert (Hno : ¬ vibe_turned_down (body_vibe req)).
    { intros Hv. apply Hdown in Hv. discriminate. }
    destruct apiKey as [key|]; [destruct (truthy_str key) |];
      cbn [snd answered status];
      (split; [split; [done | lia] |]); intros _ _; split; done.
Qed.

(** X13. What the page sends.  [handleGenerate] makes a request exactly
    when the input holds something other than white space, and otherwise
    leaves the page as it is.  The vibe it sends is the trimmed input, which
    the server's own trimming leaves unchanged; so, when no limit is reached,
    the server turns the request down with 400 exactly when the trimmed input
    is longer than 600 code units. *)
Theorem page_request_validation p :
  let start := App.handleGenerate_start p in
  (start.2 = None ↔ trim (vibeInput_value p) = [])
  ∧ (start.2 = None → start.1 = p)
  ∧ ∀ vibe, start.2 = Some vibe →
      vibe = trim (vibeInput_value p) ∧ vibe ≠ []
      ∧ typeof_string_trim (JStr vibe) = vibe
      ∧ ∀ today apiKey ip σ,
          let req := posted ip vibe in
          let pre := userRecord today (clientIp req) (resetIfNewDay today σ) in
          globalCount pre.1 < 11 → count_at pre.2 pre.1 < 2 →
          (answered (generate_start today apiKey req σ).2 = Some 400
           ↔ (600 < length vibe)%nat).
Proof.
  intros start. subst start. unfold App.handleGenerate_start.
  destruct (trim (vibeInput_value p)) as [| c t] eqn:Htrim; cbn [negb truthy_str fst snd].
  - split; [done |]. split; [done |]. intros vibe [=].
  - split; [split; discriminate |]. split; [discriminate |].
    intros vibe [= <-]. split; [reflexivity |]. split; [discriminate |].
    assert (Hfix : typeof_string_trim (JStr (c :: t)) = c :: t).
    { simpl. rewrite <- Htrim. apply trim_idem. }
    split; [exact Hfix |].
    intros today apiKey ip σ Hg Hu.
    destruct (generate_start_answers today apiKey (posted ip (c :: t)) σ) as [_ H400].
    rewrite (H400 Hg Hu). cbn [posted body_vibe vibe_turned_down].
    simpl in Hfix. rewrite Hfix. split; [intros [? | ?]; [discriminate | done] | by right].
Qed.

(** X14. When [handleGenerate] finishes, whatever the reply was and whether
    or not the rendering threw, the loading overlay is hidden and the
    Generate button is enabled.  This is so also when the reply reports
    that the client has no generation left: the button then carries the
    limit-reached label, the badge is marked exhausted, and the button is
    enabled all the same, since [hideLoading] runs last. *)
Theorem button_after_generate `{Engine} reply thrown p :
  let p' := App.handleGenerate_resume reply thrown p in
  loadingOverlay_active p' = false
  ∧ generateBtn_disabled p' = false
  ∧ vibeInput_value p' = vibeInput_value p
  ∧ ∀ tracklist token remaining_global,
      reply = Reply (json (GenerateBody tracklist token 0 remaining_global)) →
      thrown = None →
      generateBtn_label p' = limit_reached_label
      ∧ userQuota_class p' = js "quota-badge exhausted"
      ∧ resultsSection_active p' = true.
Proof.
  intros p'. subst p'. unfold App.handleGenerate_resume.
  split; [reflexivity |]. split; [reflexivity |]. split.
  - destruct (PollinationsAPI.generate reply) as [m | result]; [reflexivity |].
    destruct thrown; [reflexivity |].
    by destruct (App.result_remaining result).
  - intros tracklist token g -> ->. repeat split.
Qed.

(** X15. The button on page load agrees with the server.  On a page whose
    Generate button is enabled, [loadQuota] disables it exactly when the
    server, in the state the status request left, would answer the
    client's next generation of that day with 429. *)
Theorem quota_button_matches_server today apiKey req req' σ p :
  generateBtn_disabled p = false →
  clientIp req' = clientIp req →
  let served := status_handler today req σ in
  let p' := App.loadQuota_resume (Reply served.2) p in
  generateBtn_disabled p' = true
  ↔ answered (generate_start today apiKey req' served.1).2 = Some 429.
Proof.
  intros Hbtn Hip served p'. subst p' served.
  destruct (generate_start_answers today apiKey req' (status_handler today req σ).1)
    as [H429 _]. rewrite H429. clear H429.
  rewrite status_handler_eq. cbn zeta. cbn [fst snd]. rewrite Hip.
  set (pre := userRecord today (clientIp req) (resetIfNewDay today σ)).
  assert (Hsame : resetIfNewDay today pre.1 = pre.1)
    by apply resetIfNewDay_same, prelude_resetDate.
  pose proof (userRecord_again today (clientIp req) (resetIfNewDay today σ)) as Hidem.
  fold pre in Hidem. rewrite Hsame, Hidem.
  unfold App.loadQuota_resume, UI.updateQuotaFromStatus, UI.updateQuota, json.
  cbn [body_of generateBtn_disabled user global].
  unfold DAILY_GLOBAL_LIMIT, DAILY_USER_LIMIT. rewrite Hbtn.
  destruct (bool_decide _ || bool_decide _) eqn:Hex.
  - split; [intros _ | done].
    apply orb_true_iff in Hex as [Hex | Hex]; apply bool_decide_eq_true in Hex;
      injection Hex as Hex; [right | left]; lia.
  - split; [discriminate |]. intros Hover. exfalso.
    apply orb_false_iff in Hex as [Hu Hg]. apply bool_decide_eq_false in Hu, Hg.
    destruct Hover; [apply Hg | apply Hu]; f_equal; lia.
Qed.

(** X15 at a client that has used both its generations. *)
Lemma quota_button_matches_server_witness :
  let req := request_from alice JUndefined [] in
  let p := fresh_page (js "rainy neon city") in
  generateBtn_disabled p = false
  ∧ clientIp rainy = clientIp req
  ∧ generateBtn_disabled
      (App.loadQuota_resume (Reply (status_handler day1 req busy_day).2) p) = true
  ∧ answered (generate_start day1 (Some sample_key) rainy
                (status_handler day1 req busy_day).1).2 = Some 429.
Proof.
  intros req p.
  assert (Hbtn : generateBtn_disabled p = false) by reflexivity.
  assert (Hip : clientIp rainy = clientIp req) by reflexivity.
  split; [exact Hbtn |]. split; [exact Hip |].
  assert (Hoff : generateBtn_disabled
                   (App.loadQuota_resume (Reply (status_handler day1 req busy_day).2) p)
                 = true) by (vm_compute; reflexivity).
  split; [exact Hoff |].
  exact (proj1 (quota_button_matches_server day1 (Some sample_key) req rainy busy_day p
                  Hbtn Hip) Hoff).
Defined.





(** ** The total runtime *)

Lemma pretty_N_char_digit d :
  (d < 10)%N →
  is_digit (Ascii.N_of_ascii (pretty_N_char d)) = true
  ∧ (Ascii.N_of_ascii (pretty_N_char d) - 48)%N = d.
Proof.
  intros Hd.
  assert (d = 0 ∨ d = 1 ∨ d = 2 ∨ d = 3 ∨ d = 4 ∨ d = 5 ∨ d = 6 ∨ d = 7 ∨ d = 8 ∨ d = 9)%N
    as Hcases by lia.
  repeat destruct Hcases as [-> | Hcases]; try subst d; by vm_compute.
Qed.

(** The digits [pretty] writes, and what they read back as. *)
Lemma pretty_N_go_digits x s :
  ∃ ds, js (pretty_N_go x s) = ds ++ js s
        ∧ Forall (λ c, is_digit c = true) ds
        ∧ ((0 < x)%N → ds ≠ [])
        ∧ ∀ acc rest, digits_value acc (ds ++ rest)
                      = digits_value (acc * 10 ^ Z.of_nat (length ds) + Z.of_N x) rest.
Proof.
  revert s. induction (N.lt_wf_0 x) as [x _ IH]. intros s.
  destruct (decide (x = 0)%N) as [-> | Hx].
  - exists []. rewrite pretty_N_go_0. split; [reflexivity |]. split; [constructor |].
    split; [lia |]. intros acc rest. simpl. f_equal. lia.
  - rewrite pretty_N_go_step by lia.
    destruct (IH (x `div` 10)%N ltac:(apply N.div_lt; lia)
                 (String (pretty_N_char (x `mod` 10)) s))
      as (ds & Hjs & Hdig & _ & Hval).
    destruct (pretty_N_char_digit (x `mod` 10)%N ltac:(apply N.mod_lt; lia)) as [Hc Hv].
    exists (ds ++ [Ascii.N_of_ascii (pretty_N_char (x `mod` 10))]).
    split; [| split; [| split]].
    + rewrite Hjs. unfold js at 1. fold js. by rewrite <- app_assoc.
    + apply Forall_app. split; [exact Hdig |]. by repeat constructor.
    + intros _. by destruct ds.
    + intros acc rest. rewrite <- app_assoc. rewrite Hval. simpl.
      rewrite Hc, Hv. f_equal. rewrite length_app. simpl.
      rewrite Nat2Z.inj_add, Z.pow_add_r by lia.
      pose proof (N.div_mod x 10 ltac:(lia)) as Hdm.
      rewrite N2Z.inj_div. rewrite N2Z.inj_mod.
      assert (Hx' : Z.of_N x = 10 * (Z.of_N x `div` 10) + Z.of_N x `mod` 10)
        by (apply Z.div_mod; lia).
      change (Z.of_N 10) with 10. change (Z.of_nat 1) with 1. lia.
Qed.

Lemma js_pretty_N (n : N) :
  ∃ c ds, js (pretty n) = c :: ds
          ∧ Forall (λ c, is_digit c = true) (c :: ds)
          ∧ digits_value 0 (c :: ds) = Z.of_N n.
Proof.
  unfold pretty, pretty_N. case_decide as Hn.
  - subst n. exists 48%N, []. split; [reflexivity |]. split; [by repeat constructor |].
    reflexivity.
  - destruct (pretty_N_go_digits n "") as (ds & Hjs & Hdig & Hne & Hval).
    change (js "") with (@nil N) in Hjs. rewrite app_nil_r in Hjs.
    destruct ds as [| c ds]; [exfalso; apply Hne; [lia | reflexivity] |].
    exists c, ds. split; [exact Hjs |]. split; [exact Hdig |].
    specialize (Hval 0 []). rewrite app_nil_r in Hval. rewrite Hval. simpl. lia.
Qed.

Lemma is_digit_cases c :
  is_digit c = true →
  (c = 48 ∨ c = 49 ∨ c = 50 ∨ c = 51 ∨ c = 52 ∨ c = 53 ∨ c = 54 ∨ c = 55 ∨ c = 56
   ∨ c = 57)%N.
Proof.
  unfold is_digit. rewrite andb_true_iff, !N.leb_le. lia.
Qed.

Lemma parseInt10_digits c ds :
  is_digit c = true → parseInt10 (c :: ds) = Some (digits_value 0 (c :: ds)).
Proof.
  intros Hc. apply is_digit_cases in Hc.
  repeat destruct Hc as [-> | Hc]; try subst c; reflexivity.
Qed.

Lemma parseInt10_pretty (n : N) : parseInt10 (js (pretty n)) = Some (Z.of_N n).
Proof.
  destruct (js_pretty_N n) as (c & ds & -> & Hdig & <-).
  apply parseInt10_digits. by apply Forall_cons in Hdig as [Hc _].
Qed.

Lemma padStart2_digits (n : N) :
  ∃ c ds, padStart2 (js (pretty n)) = c :: ds
          ∧ Forall (λ c, is_digit c = true) (c :: ds)
          ∧ digits_value 0 (c :: ds) = Z.of_N n.
Proof.
  destruct (js_pretty_N n) as (c & ds & -> & Hdig & Hval).
  destruct ds as [| d ds]; simpl padStart2.
  - exists 48%N, [c]. split; [reflexivity |]. split; [by constructor |].
    rewrite <- Hval. reflexivity.
  - by exists c, (d :: ds).
Qed.

Lemma parseInt10_padStart2 (n : N) :
  parseInt10 (padStart2 (js (pretty n))) = Some (Z.of_N n).
Proof.
  destruct (padStart2_digits n) as (c & ds & -> & Hdig & <-).
  apply parseInt10_digits. by apply Forall_cons in Hdig as [Hc _].
Qed.

Lemma split_colon_none s : 58%N ∉ s → split_colon s = [s].
Proof.
  induction s as [| c s IH]; [reflexivity |]. intros Hs.
  apply not_elem_of_cons in Hs as [Hc Hs]. simpl.
  destruct (N.eqb_spec c 58); [congruence |]. by rewrite (IH Hs).
Qed.

Lemma split_colon_two a b :
  58%N ∉ a → 58%N ∉ b → split_colon (a ++ 58%N :: b) = [a; b].
Proof.
  intros Ha Hb. induction a as [| c a IH]; simpl.
  - by rewrite (split_colon_none b Hb).
  - apply not_elem_of_cons in Ha as [Hc Ha].
    destruct (N.eqb_spec c 58); [congruence |]. by rewrite (IH Ha).
Qed.

Lemma digits_no_colon ds : Forall (λ c, is_digit c = true) ds → 58%N ∉ ds.
Proof.
  intros Hdig Hin. rewrite Forall_forall in Hdig. by specialize (Hdig _ Hin).
Qed.

Lemma track_seconds_track_of title ms :
  track_seconds (track_of title ms) = inr (Some (seconds_of ms)).
Proof.
  destruct ms as [m s]. unfold track_seconds, track_of, seconds_of, duration_text.
  cbn [get_prop assoc fst snd].
  rewrite decide_False by (by vm_compute). rewrite decide_True by reflexivity.
  destruct (js_pretty_N m) as (c & ds & Hm & Hdm & _).
  destruct (padStart2_digits s) as (c' & ds' & Hs & Hds & _).
  assert (Hfalsy : falsy (JStr (js (pretty m) ++ [58%N] ++ padStart2 (js (pretty s)))) = false)
    by (by rewrite Hm).
  rewrite Hfalsy.
  change ([58%N] ++ padStart2 (js (pretty s))) with (58%N :: padStart2 (js (pretty s))).
  rewrite split_colon_two.
  - rewrite parseInt10_pretty, parseInt10_padStart2. reflexivity.
  - rewrite Hm. by apply digits_no_colon.
  - rewrite Hs. by apply digits_no_colon.
Qed.

Lemma seconds_of_nonneg ms : 0 ≤ seconds_of ms.
Proof. unfold seconds_of. lia. Qed.

Lemma sum_seconds_nonneg tracks : 0 ≤ sum_seconds tracks.
Proof.
  induction tracks as [| t tracks IH]; simpl; [lia |].
  pose proof (seconds_of_nonneg t.2). lia.
Qed.

Lemma total_seconds_tracks_of acc tracks :
  total_seconds (Some acc) (tracks_of tracks) = inr (Some (acc + sum_seconds tracks)).
Proof.
  revert acc. induction tracks as [| t tracks IH]; intros acc; simpl.
  - do 2 f_equal. lia.
  - rewrite track_seconds_track_of. simpl. rewrite IH. do 2 f_equal. lia.
Qed.

Lemma two_digits (n : Z) : 0 ≤ n < 60 → length (padStart2 (js (pretty n))) = 2%nat.
Proof.
  intros Hn. assert (Hk : ∃ k : nat, n = Z.of_nat k ∧ (k < 60)%nat).
  { exists (Z.to_nat n). lia. }
  destruct Hk as (k & -> & Hk).
  do 60 (destruct k as [| k]; [reflexivity |]). lia.
Qed.

(** X17. For a tracklist whose durations are written as minutes, a colon
    and the seconds on two digits, the total runtime shown is the sum of
    the durations, as whole minutes, a colon and the remaining seconds on
    exactly two digits; seconds of 60 or more in a duration are carried
    over.  (The sum stays below 2^53, where the numbers of the page are
    exact.) *)
Theorem total_runtime_of_durations tracks :
  sum_seconds tracks < 2 ^ 53 →
  total_runtime_text (tracks_of tracks)
  = inr (js "Total: " ++ js (pretty (sum_seconds tracks `div` 60)) ++ js ":"
         ++ padStart2 (js (pretty (sum_seconds tracks `mod` 60))))
  ∧ length (padStart2 (js (pretty (sum_seconds tracks `mod` 60)))) = 2%nat.
Proof.
  intros _. pose proof (sum_seconds_nonneg tracks) as Hpos. split.
  - unfold total_runtime_text. rewrite total_seconds_tracks_of. simpl.
    rewrite Z.rem_mod_nonneg by lia. reflexivity.
  - apply two_digits. apply Z.mod_pos_bound. lia.
Qed.

(** X17 at two tracks of 3:42 and 4:75. *)
Lemma total_runtime_of_durations_witness :
  let tracks := [(js "Neon Rain", (3, 42)%N); (js "Afterglow", (4, 75)%N)] in
  sum_seconds tracks < 2 ^ 53
  ∧ total_runtime_text (tracks_of tracks) = inr (js "Total: 8:57").
Proof.
  intros tracks.
  assert (Hsum : sum_seconds tracks < 2 ^ 53) by (vm_compute; reflexivity).
  split; [exact Hsum |].
  destruct (total_runtime_of_durations tracks Hsum) as [-> _]. reflexivity.
Defined.

Lemma total_seconds_NaN tracks :
  total_seconds None tracks = inr None ∨ ∃ e, total_seconds None tracks = inl e.
Proof.
  induction tracks as [| t tracks IH]; simpl; [by left |].
  destruct (track_seconds t) as [e | added]; [right; by exists e |]. exact IH.
Qed.

(** X18. One duration that does not read as two numbers blanks the total:
    if some track has a duration with exactly one colon of which a side is
    not a number (so that it adds NaN), then, unless the rendering throws,
    the total runtime shown is "Total: NaN:NaN", whatever the other tracks
    are. *)
Theorem malformed_duration_blanks_total tracks track :
  track ∈ tracks → track_seconds track = inr None →
  total_runtime_text tracks = inr (js "Total: NaN:NaN")
  ∨ ∃ e, total_runtime_text tracks = inl e.
Proof.
  intros Hin Hnan.
  assert (Hany : ∀ acc, total_seconds acc tracks = inr None
                        ∨ ∃ e, total_seconds acc tracks = inl e).
  { induction tracks as [| t tracks IH]; [by apply elem_of_nil in Hin |].
    intros acc. simpl. apply elem_of_cons in Hin as [<- | Hin].
    - rewrite Hnan. destruct acc; simpl; apply total_seconds_NaN.
    - destruct (track_seconds t) as [e | added]; [right; by exists e |]. by apply IH. }
  unfold total_runtime_text.
  destruct (Hany (Some 0)) as [-> | [e ->]]; [by left | right; by exists e].
Qed.

(** X18 at a duration without minutes. *)
Lemma malformed_duration_blanks_total_witness :
  let bad := JObj [(js "duration", JStr (js ":30"))] in
  let tracks := [track_of (js "Neon Rain") (3, 42)%N; bad] in
  bad ∈ tracks ∧ track_seconds bad = inr None
  ∧ total_runtime_text tracks = inr (js "Total: NaN:NaN").
Proof.
  intros bad tracks.
  assert (Hin : bad ∈ tracks) by (right; left).
  assert (Hnan : track_seconds bad = inr None) by reflexivity.
  split; [exact Hin |]. split; [exact Hnan |].
  destruct (malformed_duration_blanks_total tracks bad Hin Hnan) as [Htext | [e He]].
  - exact Htext.
  - vm_compute in He. discriminate.
Defined.

(** ** The date of the day *)

Lemma InLeapYear_cases y : InLeapYear y = 0 ∨ InLeapYear y = 1.
Proof. unfold InLeapYear. repeat case_match; auto. Qed.

Lemma DayFromYear_succ y : DayFromYear (y + 1) = DayFromYear y + 365 + InLeapYear y.
Proof.
  unfold DayFromYear, InLeapYear.
  repeat match goal with
         | |- context [negb (?a =? ?b)] => destruct (Z.eqb_spec a b); cbn [negb]
         end; Z.div_mod_to_equations; lia.
Qed.

Lemma year_search_spec fuel y d :
  DayFromYear y ≤ d → d < DayFromYear (y + Z.of_nat fuel + 1) →
  DayFromYear (year_search fuel y d) ≤ d < DayFromYear (year_search fuel y d + 1).
Proof.
  revert y. induction fuel as [| fuel IH]; intros y Hlo Hhi; simpl year_search.
  - change (Z.of_nat 0) with 0 in Hhi. rewrite Z.add_0_r in Hhi. lia.
  - destruct (Z.leb_spec (DayFromYear (y + 1)) d) as [Hle | Hgt].
    + apply IH; [exact Hle |]. replace (y + 1 + Z.of_nat fuel + 1) with (y + Z.of_nat (S fuel) + 1) by lia. exact Hhi.
    + lia.
Qed.

Lemma YearFromDay_spec d :
  0 ≤ d → DayFromYear (YearFromDay d) ≤ d < DayFromYear (YearFromDay d + 1).
Proof.
  intros Hd. unfold YearFromDay. apply year_search_spec.
  - unfold DayFromYear. Z.div_mod_to_equations. lia.
  - rewrite Nat2Z.inj_add, Z2Nat.id by (apply Z.div_pos; lia).
    unfold DayFromYear. Z.div_mod_to_equations. lia.
Qed.

Lemma date_fields d :
  0 ≤ d →
  0 ≤ MonthFromDay d ≤ 11 ∧ 1 ≤ DateFromDay d ≤ 31
  ∧ DayFromYear (YearFromDay d)
    + days_before_month (InLeapYear (YearFromDay d)) (MonthFromDay d + 1)
    + DateFromDay d - 1 = d.
Proof.
  intros Hd. pose proof (YearFromDay_spec d Hd) as Hy.
  rewrite DayFromYear_succ in Hy.
  unfold DateFromDay, MonthFromDay.
  set (y := YearFromDay d) in *. set (leap := InLeapYear y) in *.
  pose proof (InLeapYear_cases y) as Hleap. fold leap in Hleap.
  set (n := d - DayFromYear y).
  assert (Hn : 0 ≤ n < 365 + leap) by (unfold n; lia).
  assert (Hdn : d = DayFromYear y + n) by (unfold n; lia).
  clearbody n leap. clear Hy.
  repeat match goal with
         | |- context [?a <? ?b] => destruct (Z.ltb_spec a b)
         end; cbn;
    match goal with
    | |- context [days_before_month _ (?k + 1)] =>
        let v := eval vm_compute in (k + 1) in change (k + 1) with v
    end; cbv beta iota delta [days_before_month]; lia.
Qed.

Lemma year_range d :
  0 ≤ d < DayFromYear 10000 → 1970 ≤ YearFromDay d < 10000.
Proof.
  intros [Hd Hmax]. pose proof (YearFromDay_spec d Hd) as Hy.
  revert Hy Hmax. generalize (YearFromDay d). intros y. unfold DayFromYear.
  Z.div_mod_to_equations. lia.
Qed.

Lemma Day_range now : 0 ≤ now < year10000 → 0 ≤ Day now < DayFromYear 10000.
Proof.
  unfold year10000, Day, msPerDay. intros [Hlo Hhi]. split.
  - apply Z.div_pos; lia.
  - apply Z.div_lt_upper_bound; lia.
Qed.

Lemma pretty_N_go_length k x s :
  (x < 10 ^ N.of_nat k)%N →
  (length (js (pretty_N_go x s)) ≤ k + length (js s))%nat.
Proof.
  revert x s. induction k as [| k IH]; intros x s Hx.
  - assert (x = 0%N) as -> by (change (10 ^ N.of_nat 0)%N with 1%N in Hx; lia).
    rewrite pretty_N_go_0. lia.
  - destruct (decide (x = 0)%N) as [-> | Hx0]; [rewrite pretty_N_go_0; lia |].
    rewrite pretty_N_go_step by lia.
    etrans; [apply IH |].
    + rewrite Nat2N.inj_succ, N.pow_succ_r' in Hx.
      apply N.Div0.div_lt_upper_bound; lia.
    + simpl. lia.
Qed.

Lemma digits_value_zeros k s : digits_value 0 (replicate k 48%N ++ s) = digits_value 0 s.
Proof. induction k as [| k IH]; [reflexivity | exact IH]. Qed.

(** A number below [10 ^ w] written on [w] digits. *)
Lemma padStart0_digits (w : nat) (n : Z) :
  (0 < w)%nat → 0 ≤ n < 10 ^ Z.of_nat w →
  length (padStart0 w (js (pretty n))) = w
  ∧ digits_value 0 (padStart0 w (js (pretty n))) = n.
Proof.
  intros Hw Hn. unfold padStart0. rewrite digits_value_zeros.
  assert (Hlen : (length (js (pretty n)) ≤ w)%nat ∧ digits_value 0 (js (pretty n)) = n).
  { destruct n as [| p | p]; [| | lia].
    - split; [simpl; lia | reflexivity].
    - change (pretty (Z.pos p)) with (pretty (N.pos p)). split.
      + unfold pretty, pretty_N. rewrite decide_False by done.
        etrans; [apply (pretty_N_go_length w) |]; [| simpl; lia].
        apply N2Z.inj_lt. rewrite N2Z.inj_pow, nat_N_Z. simpl. lia.
      + destruct (js_pretty_N (N.pos p)) as (c & ds & -> & _ & ->). reflexivity. }
  destruct Hlen as [Hlen Hval]. split; [| exact Hval].
  rewrite length_app, length_replicate. lia.
Qed.

Lemma iso_date_day d : 0 ≤ d < DayFromYear 10000 → day_of_iso (iso_date d) = d.
Proof.
  intros Hd. pose proof (year_range d Hd) as Hy.
  destruct (date_fields d ltac:(lia)) as (Hm & Hdd & Heq).
  destruct (padStart0_digits 4 (YearFromDay d) ltac:(lia) ltac:(simpl; lia)) as [Hly Hvy].
  destruct (padStart0_digits 2 (MonthFromDay d + 1) ltac:(lia) ltac:(simpl; lia)) as [Hlm Hvm].
  destruct (padStart0_digits 2 (DateFromDay d) ltac:(lia) ltac:(simpl; lia)) as [Hld Hvd].
  unfold iso_date, day_of_iso.
  set (Y := padStart0 4 _) in *. set (M := padStart0 2 (js (pretty (MonthFromDay d + 1)))) in *.
  set (D := padStart0 2 (js (pretty (DateFromDay d)))) in *.
  change (js "-") with [45%N].
  rewrite (take_app_length' Y) by done.
  replace (drop 5 (Y ++ [45%N] ++ M ++ [45%N] ++ D)) with (M ++ [45%N] ++ D).
  2: { rewrite (app_assoc Y). rewrite drop_app_length'; [done |]. rewrite length_app, Hly. done. }
  replace (drop 8 (Y ++ [45%N] ++ M ++ [45%N] ++ D)) with D.
  2: { rewrite (app_assoc Y), (app_assoc (Y ++ _)), (app_assoc ((Y ++ _) ++ _)).
       rewrite drop_app_length'; [done |]. rewrite !length_app, Hly, Hlm. done. }
  rewrite (take_app_length' M) by done.
  rewrite firstn_all2 by lia.
  rewrite Hvy, Hvm, Hvd. exact Heq.
Qed.

Lemma iso_date_length d : 0 ≤ d < DayFromYear 10000 → length (iso_date d) = 10%nat.
Proof.
  intros Hd. pose proof (year_range d Hd) as Hy.
  destruct (date_fields d ltac:(lia)) as (Hm & Hdd & Heq).
  destruct (padStart0_digits 4 (YearFromDay d) ltac:(lia) ltac:(simpl; lia)) as [Hly Hvy].
  destruct (padStart0_digits 2 (MonthFromDay d + 1) ltac:(lia) ltac:(simpl; lia)) as [Hlm Hvm].
  destruct (padStart0_digits 2 (DateFromDay d) ltac:(lia) ltac:(simpl; lia)) as [Hld Hvd].
  unfold iso_date. rewrite !length_app, Hly, Hlm, Hld. reflexivity.
Qed.

Lemma todayUTC_Day (now1 now2 : Z) :
  0 ≤ now1 < year10000 → 0 ≤ now2 < year10000 →
  todayUTC now1 = todayUTC now2 → Day now1 = Day now2.
Proof.
  intros H1 H2 Heq. apply Day_range in H1, H2. unfold todayUTC in Heq.
  apply (f_equal day_of_iso) in Heq. by rewrite !iso_date_day in Heq.
Qed.

(** X19. Two instants between 1970 and the year 10000 get the same date
    from [todayUTC] exactly when they lie in the same UTC day, that is when
    they have the same whole number of 86400000 ms since the epoch. *)
Theorem todayUTC_same_day (now1 now2 : Z) :
  0 ≤ now1 < year10000 → 0 ≤ now2 < year10000 →
  todayUTC now1 = todayUTC now2 ↔ now1 `div` 86400000 = now2 `div` 86400000.
Proof.
  intros H1 H2.
  change (now1 `div` 86400000) with (Day now1). change (now2 `div` 86400000) with (Day now2).
  split; [by apply todayUTC_Day |]. unfold todayUTC. by intros ->.
Qed.

(** X19 at [noon]: the same date up to the last millisecond of the day,
    another one from midnight on. *)
Lemma todayUTC_same_day_witness :
  todayUTC noon = todayUTC (noon + 43199999) ∧ todayUTC noon ≠ todayUTC (noon + 43200000).
Proof.
  assert (H1 : 0 ≤ noon < year10000) by (by vm_compute).
  assert (H2 : 0 ≤ noon + 43199999 < year10000) by (by vm_compute).
  assert (H3 : 0 ≤ noon + 43200000 < year10000) by (by vm_compute).
  split.
  - apply (todayUTC_same_day _ _ H1 H2). reflexivity.
  - intros Heq. apply (todayUTC_same_day _ _ H1 H3) in Heq. vm_compute in Heq. discriminate.
Defined.

(** X20. Between 1970 and the year 10000 the date of [todayUTC] is written
    YYYY-MM-DD: ten code units with a hyphen after the year and after the
    month, and read back as a year, a month and a day of the month it names
    the UTC day of the instant. *)
Theorem todayUTC_form (now : Z) :
  0 ≤ now < year10000 →
  length (todayUTC now) = 10%nat
  ∧ todayUTC now !! 4%nat = Some 45%N ∧ todayUTC now !! 7%nat = Some 45%N
  ∧ day_of_iso (todayUTC now) = Day now.
Proof.
  intros Hnow. apply Day_range in Hnow. unfold todayUTC.
  split; [by apply iso_date_length |]. split; [| split; [| by apply iso_date_day]].
  - pose proof (year_range _ Hnow) as Hy.
    destruct (padStart0_digits 4 (YearFromDay (Day now)) ltac:(lia) ltac:(simpl; lia)) as [Hly _].
    unfold iso_date. rewrite lookup_app_r by lia. by rewrite Hly.
  - pose proof (year_range _ Hnow) as Hy.
    destruct (date_fields (Day now) ltac:(lia)) as (Hm & _ & _).
    destruct (padStart0_digits 4 (YearFromDay (Day now)) ltac:(lia) ltac:(simpl; lia)) as [Hly _].
    destruct (padStart0_digits 2 (MonthFromDay (Day now) + 1) ltac:(lia) ltac:(simpl; lia))
      as [Hlm _].
    unfold iso_date. rewrite lookup_app_r by lia. rewrite Hly.
    change (js "-") with [45%N]. change ((7 - 4)%nat) with 3%nat.
    change ([45%N] ++ ?x) with (45%N :: x). rewrite lookup_cons_ne_0 by done.
    rewrite lookup_app_r by (simpl; lia). rewrite Hlm. reflexivity.
Qed.

(** X20 at [noon], which is in [day1], the 19844th day after the epoch. *)
Lemma todayUTC_form_witness : todayUTC noon = day1 ∧ day_of_iso day1 = 19844.
Proof.
  assert (H1 : 0 ≤ noon < year10000) by (by vm_compute).
  destruct (todayUTC_form noon H1) as (_ & _ & _ & Hday).
  split; [reflexivity |]. exact Hday.
Defined.

(** X21. A ledger whose reset date was written by [todayUTC] at one
    instant is left alone by [resetIfNewDay] at any instant of the same UTC
    day, and at an instant of another day a status request is answered with
    the full quota, whatever the counters were. *)
Theorem ledger_reset_at_day_change (t0 t1 : Z) σ :
  0 ≤ t0 < year10000 → 0 ≤ t1 < year10000 →
  resetDate σ = todayUTC t0 →
  (Day t1 = Day t0 → resetIfNewDay (todayUTC t1) σ = σ)
  ∧ (Day t1 ≠ Day t0 →
     globalCount (resetIfNewDay (todayUTC t1) σ) = 0
     ∧ users (resetIfNewDay (todayUTC t1) σ) = ∅
     ∧ ∀ req, (status_handler (todayUTC t1) req σ).2 = json (StatusBody 11 2 11 2 "midnight UTC")).
Proof.
  intros H0 H1 Hdate. split.
  - intros Hday. apply resetIfNewDay_same. rewrite Hdate. unfold todayUTC. by rewrite Hday.
  - intros Hday.
    assert (Hnew : resetDate σ ≠ todayUTC t1).
    { rewrite Hdate. intros Heq. apply Hday. symmetry.
      by apply (todayUTC_Day t0 t1). }
    rewrite (resetIfNewDay_fresh _ _ Hnew). split; [reflexivity |]. split; [reflexivity |].
    intros req. rewrite status_handler_eq. simpl.
    rewrite (resetIfNewDay_fresh _ _ Hnew).
    destruct (userRecord (todayUTC t1) (clientIp req) (set_ledger 0 (todayUTC t1) ∅ σ))
      as [σ1 r] eqn:Hrec. simpl.
    rewrite (userRecord_count _ _ _ _ _ Hrec), used_today_empty by reflexivity.
    apply userRecord_spec in Hrec as (-> & _). reflexivity.
Qed.

(** X21 at a ledger of [day1]: left alone a second after [noon], reset
    twelve hours later. *)
Lemma ledger_reset_at_day_change_witness :
  resetIfNewDay (todayUTC (noon + 1000)) busy_day = busy_day
  ∧ (status_handler (todayUTC (noon + 43200000)) (request_from alice JUndefined []) busy_day).2
    = json (StatusBody 11 2 11 2 "midnight UTC").
Proof.
  assert (H0 : 0 ≤ noon < year10000) by (by vm_compute).
  assert (H1 : 0 ≤ noon + 1000 < year10000) by (by vm_compute).
  assert (H2 : 0 ≤ noon + 43200000 < year10000) by (by vm_compute).
  assert (Hdate : resetDate busy_day = todayUTC noon) by reflexivity.
  assert (Hsame : Day (noon + 1000) = Day noon) by reflexivity.
  assert (Hother : Day (noon + 43200000) ≠ Day noon) by (vm_compute; discriminate).
  split.
  - exact (proj1 (ledger_reset_at_day_change noon (noon + 1000) busy_day H0 H1 Hdate) Hsame).
  - destruct (proj2 (ledger_reset_at_day_change noon (noon + 43200000) busy_day H0 H2 Hdate)
                Hother) as (_ & _ & Hs).
    apply Hs.
Defined.

(** ** The cover URL and [encodeURIComponent] *)

Lemma uri_unreserved_no_delimiter c : uri_unreserved c = true → url_delimiter c = false.
Proof.
  unfold uri_unreserved, url_delimiter.
  rewrite !orb_true_iff, !andb_true_iff, !N.leb_le, !N.eqb_eq.
  rewrite !orb_false_iff, !N.eqb_neq. lia.
Qed.

Lemma hex_digit_no_delimiter d : url_delimiter (hex_digit d) = false.
Proof.
  unfold hex_digit, url_delimiter. rewrite !orb_false_iff, !N.eqb_neq.
  destruct (N.ltb_spec d 10); lia.
Qed.

Lemma percent_no_delimiter bs :
  Forall (λ c, url_delimiter c = false) (concat (percent <$> bs)).
Proof.
  induction bs as [| b bs IH]; [constructor |].
  simpl. repeat (constructor; [first [reflexivity | apply hex_digit_no_delimiter] |]).
  exact IH.
Qed.

(** Induction along the way [encodeURIComponent] reads a string: one code
    unit at a time, or two for a pair. *)
Lemma code_units_ind (P : jsstring → Prop) :
  P [] → (∀ c r, P r → (∀ lo r', r = lo :: r' → P r') → P (c :: r)) → ∀ s, P s.
Proof.
  intros Hnil Hcons s.
  assert (H : P s ∧ ∀ c r, s = c :: r → P r).
  { induction s as [| c r [IH1 IH2]].
    - split; [exact Hnil | discriminate].
    - split; [by apply Hcons |]. intros ? ? [= <- <-]. exact IH1. }
  apply H.
Qed.

Lemma uri_encode_no_delimiter s t :
  uri_encode s = Some t → Forall (λ c, url_delimiter c = false) t.
Proof.
  revert t. induction s as [| c r IH IH2] using code_units_ind; intros t.
  - intros [= <-]. constructor.
  - cbn [uri_encode]. destruct (uri_unreserved c) eqn:Hc.
    { destruct (uri_encode r) as [t' |]; [| discriminate]. intros [= <-].
      constructor; [by apply uri_unreserved_no_delimiter | by apply IH]. }
    destruct (is_low_surrogate c); [discriminate |].
    destruct (is_high_surrogate c).
    + destruct r as [| lo r']; [discriminate |].
      destruct (is_low_surrogate lo); [| discriminate].
      destruct (uri_encode r') as [t' |] eqn:Hr'; [| discriminate]. intros [= <-].
      apply Forall_app. split; [apply percent_no_delimiter |]. by eapply IH2.
    + destruct (uri_encode r) as [t' |]; [| discriminate]. intros [= <-].
      apply Forall_app. split; [apply percent_no_delimiter | by apply IH].
Qed.

Lemma uri_encode_well_formed s : is_Some (uri_encode s) ↔ well_formed s = true.
Proof.
  induction s as [| c r IH IH2] using code_units_ind; [by split; [| eexists] |].
  cbn [uri_encode well_formed]. destruct (uri_unreserved c) eqn:Hc.
  { assert (is_low_surrogate c = false ∧ is_high_surrogate c = false) as [-> ->].
    { revert Hc. unfold uri_unreserved, is_low_surrogate, is_high_surrogate.
      rewrite !orb_true_iff, !andb_true_iff, !andb_false_iff, !N.leb_le, !N.eqb_eq, !N.leb_gt.
      lia. }
    rewrite <- IH. by rewrite fmap_is_Some. }
  destruct (is_low_surrogate c); [split; [by intros [? ?] | done] |].
  destruct (is_high_surrogate c).
  - destruct r as [| lo r']; [split; [by intros [? ?] | done] |].
    destruct (is_low_surrogate lo); [| split; [by intros [? ?] | done]].
    rewrite fmap_is_Some. simpl. by eapply IH2.
  - by rewrite fmap_is_Some.
Qed.

(** Text without surrogates in front changes nothing. *)
Lemma well_formed_js_app (a : string) s : well_formed (js a ++ s) = well_formed s.
Proof.
  induction a as [| c a IH]; [reflexivity |].
  change (js (String c a)) with (Ascii.N_of_ascii c :: js a). cbn [app well_formed].
  pose proof (Ascii.N_ascii_bounded c).
  assert (is_low_surrogate (Ascii.N_of_ascii c) = false) as ->.
  { unfold is_low_surrogate. apply andb_false_iff. left. apply N.leb_gt. lia. }
  assert (is_high_surrogate (Ascii.N_of_ascii c) = false) as ->.
  { unfold is_high_surrogate. apply andb_false_iff. left. apply N.leb_gt. lia. }
  exact IH.
Qed.

(** Nor does text behind that does not start with the second half of a
    pair mend a string. *)
Lemma well_formed_app_false s c r :
  is_low_surrogate c = false → well_formed s = false → well_formed (s ++ c :: r) = false.
Proof.
  intros Hc. induction s as [| d s IH IH2] using code_units_ind; [discriminate |].
  cbn [app well_formed]. destruct (is_low_surrogate d); [done |].
  destruct (is_high_surrogate d); [| exact IH].
  destruct s as [| lo s']; cbn [app].
  - intros _. by rewrite Hc.
  - destruct (is_low_surrogate lo); [| done]. cbn [andb]. by eapply IH2.
Qed.

Lemma well_formed_app_js s (a : Ascii.ascii) (r : string) :
  well_formed s = false → well_formed (s ++ js (String a r)) = false.
Proof.
  change (js (String a r)) with (Ascii.N_of_ascii a :: js r).
  apply well_formed_app_false. pose proof (Ascii.N_ascii_bounded a).
  unfold is_low_surrogate. apply andb_false_iff. left. apply N.leb_gt. lia.
Qed.

Lemma buildImagePrompt_well_formed vibe :
  well_formed vibe = false → uri_encode (buildImagePrompt vibe) = None.
Proof.
  intros Hv. apply eq_None_not_Some. rewrite uri_encode_well_formed.
  unfold buildImagePrompt. rewrite well_formed_js_app.
  rewrite well_formed_app_js by exact Hv. done.
Qed.

(** X22. The vibe cannot reach into the upstream URL.  When a generation
    goes through, the cover URL stored is the server's template around the
    encoded prompt and the encoded key, and neither of the two holds a
    [?], [&], [=], [#] or [/]: whatever the client typed, the path and the
    query parameters of the image request are the ones the server wrote. *)
Theorem cover_url_delimiters parse fence p textRes now tracklist url :
  @generation (real_platform parse fence) p textRes now = Some (tracklist, url) →
  ∃ encPrompt encKey,
    url = imageUrl encPrompt now encKey
    ∧ uri_encode (buildImagePrompt (p_vibe p)) = Some encPrompt
    ∧ uri_encode (p_apiKey p) = Some encKey
    ∧ Forall (λ c, url_delimiter c = false) (encPrompt ++ encKey).
Proof.
  unfold generation. intros Hgen.
  destruct (content_of textRes) as [content |]; [| discriminate]. cbn [mbind option_bind] in Hgen.
  destruct (JSON_parse _) as [tl |]; [| discriminate]. cbn [mbind option_bind] in Hgen.
  destruct (tracks_listed tl); [| discriminate].
  change (@encodeURIComponent (real_platform parse fence)) with uri_encode in Hgen.
  destruct (uri_encode (buildImagePrompt (p_vibe p))) as [encPrompt |] eqn:Hp; [| discriminate].
  cbn [mbind option_bind] in Hgen.
  destruct (uri_encode (p_apiKey p)) as [encKey |] eqn:Hk; [| discriminate].
  cbn [mbind option_bind] in Hgen. injection Hgen as _ <-.
  exists encPrompt, encKey. split; [reflexivity |]. split; [reflexivity |].
  split; [reflexivity |]. apply Forall_app. split; by eapply uri_encode_no_delimiter.
Qed.

(** X22 at the URL stored for [alice]'s generation. *)
Lemma cover_url_delimiters_witness :
  ∃ encPrompt encKey,
    url <$> coverTokens alice_served !! tokenA = Some (imageUrl encPrompt noon encKey)
    ∧ Forall (λ c, url_delimiter c = false) (encPrompt ++ encKey).
Proof.
  assert (Hgen : @generation (real_platform (@JSON_parse sample_platform)
                                (@match_fence sample_platform))
                   alice_pending (completion (JStr sample_json)) noon
                 = Some (sample_tracklist,
                         default [] (url <$> coverTokens alice_served !! tokenA)))
    by (vm_compute; reflexivity).
  destruct (cover_url_delimiters _ _ _ _ _ _ _ Hgen) as (ep & ek & Hurl & _ & _ & Hsafe).
  exists ep, ek. split; [| exact Hsafe]. rewrite <- Hurl. vm_compute. reflexivity.
Defined.

(** X23. A vibe with half a surrogate pair in it cannot be encoded: for a
    waiting generation with such a vibe, whatever the text API answers, no
    cover URL is written and the request ends in a 500 with the state left
    as it was: no token stored, nobody charged. *)
Theorem malformed_vibe_fails parse fence p textRes token now σ :
  well_formed (p_vibe p) = false →
  @generation (real_platform parse fence) p textRes now = None
  ∧ ∃ e, @generate_resume (real_platform parse fence) p textRes token now σ
         = (σ, Response 500 (FailureBody e)).
Proof.
  intros Hv.
  assert (Hgen : @generation (real_platform parse fence) p textRes now = None).
  { unfold generation.
    destruct (content_of textRes) as [content |]; [| reflexivity]. cbn [mbind option_bind].
    destruct (JSON_parse _) as [tl |]; [| reflexivity]. cbn [mbind option_bind].
    destruct (tracks_listed tl); [| reflexivity].
    change (@encodeURIComponent (real_platform parse fence)) with uri_encode.
    by rewrite (buildImagePrompt_well_formed _ Hv). }
  split; [exact Hgen |].
  pose proof (@generate_resume_spec (real_platform parse fence) p textRes token now σ) as Hspec.
  by rewrite Hgen in Hspec.
Qed.

(** X23 at [alice] sending a vibe that ends in half a pair: the text API
    is called and answers with a tracklist, and the request ends in a 500
    with the URIError of [encodeURIComponent]. *)
Lemma malformed_vibe_fails_witness :
  let p := Pending alice 0 half_pair sample_key in
  let req := request_from alice (JStr half_pair) [] in
  (generate_start day1 (Some sample_key) req (initial day1)).2 = Await p
  ∧ @generation sample_platform p (completion (JStr sample_json)) noon = None
  ∧ (@generate sample_platform day1 (Some sample_key) req (completion (JStr sample_json))
       tokenA noon (initial day1)).2 = Response 500 (FailureBody URIError).
Proof.
  intros p req.
  assert (Hv : well_formed (p_vibe p) = false) by reflexivity.
  destruct (malformed_vibe_fails (@JSON_parse sample_platform) (@match_fence sample_platform)
              p (completion (JStr sample_json)) tokenA noon (initial day1) Hv) as [Hgen _].
  split; [vm_compute; reflexivity |]. split; [exact Hgen |]. vm_compute. reflexivity.
Defined.
